(** * Soteria network statistics bot: a shallow embedding of [bot.py]

    The bot polls a node's RPC interface, a supply endpoint and a
    market-data endpoint, formats the values and writes them into the names
    of voice channels grouped under one category.  This file embeds the
    refresh cycle ([make_rpc_call], [norm], [get_or_create_channel],
    [set_channel_private], [update_channel], [update_stats_channels]) and
    proves the properties of the specification about it.

    Conventions of the embedding:
    - a Python value that comes out of a JSON document is a [pyval];
      integers are unbounded ([Z]), floats are IEEE binary64 values given by
      the Standard Library's [spec_float] with [prec = 53], [emax = 1024];
    - code that can raise returns a [res]; [try ... except Exception] is
      [try_except];
    - the chat platform is an explicit state ([guild]) threaded through a
      state-and-exception monad [M], together with an oracle that says which
      platform calls fail and a log of the calls made;
    - a text is held as its UTF-8 bytes ([string]); [str.lower] folds the
      letters A to Z and follows the Unicode database of the interpreter,
      a parameter ([unicode]), outside ASCII; [str.strip] removes the
      white space of Unicode, which is a fixed set of characters of one,
      two and three bytes. *)

From Stdlib Require Import ZArith List String Ascii Bool Lia.
From Stdlib Require Import SpecFloat DecimalString.
Import ListNotations.

Open Scope string_scope.
Open Scope Z_scope.

(** ** Exceptions and results *)

Inductive exn : Type :=
| ValueError
| TypeError
| KeyError
| AttributeError
| OverflowError
| ClientError        (* aiohttp transport failure *)
| DecodeError        (* response.json() could not decode the body *)
| HTTPException.     (* discord.py: the platform refused a call *)

Inductive res (A : Type) : Type :=
| Ok (a : A)
| Raise (e : exn).
Arguments Ok {A} a.
Arguments Raise {A} e.

Definition res_bind {A B} (r : res A) (k : A -> res B) : res B :=
  match r with
  | Ok a => k a
  | Raise e => Raise e
  end.

Definition res_map {A B} (f : A -> B) (r : res A) : res B :=
  res_bind r (fun a => Ok (f a)).

(** [try: r except Exception: h]. *)
Definition try_except {A} (r : res A) (h : exn -> res A) : res A :=
  match r with
  | Ok a => Ok a
  | Raise e => h e
  end.

Declare Scope res_scope.
Delimit Scope res_scope with res.
Notation "x <- r ;; k" := (res_bind r (fun x => k))
  (at level 61, r at next level, right associativity) : res_scope.

(** ** Python values *)

Definition float := spec_float.

#[warnings="-register-all"]
Inductive pyval : Type :=
| PNone
| PBool (b : bool)
| PInt (z : Z)
| PFloat (f : float)
| PStr (s : string)
| PList (l : list pyval)
| PDict (d : list (string * pyval)).

(** Truth value of an object, as [or], [not] and [if] take it. *)
Definition truthy (v : pyval) : bool :=
  match v with
  | PNone => false
  | PBool b => b
  | PInt z => negb (z =? 0)
  | PFloat (S754_zero _) => false
  | PFloat _ => true
  | PStr s => negb (s =? "")%string
  | PList l => match l with [] => false | _ => true end
  | PDict d => match d with [] => false | _ => true end
  end.

(** [a or b]. *)
Definition py_or (a b : pyval) : pyval := if truthy a then a else b.

(** [isinstance(v, (int, float))]; [bool] is a subclass of [int]. *)
Definition is_number (v : pyval) : bool :=
  match v with
  | PBool _ | PInt _ | PFloat _ => true
  | _ => false
  end.

(** [d.get(key)] on a dict whose items are [d]. *)
Fixpoint dict_get (d : list (string * pyval)) (key : string) : option pyval :=
  match d with
  | [] => None
  | (k, v) :: rest => if (k =? key)%string then Some v else dict_get rest key
  end.

(** [obj.get(key)]: only a dict has the method; a missing key gives [None]. *)
Definition py_get (obj : pyval) (key : string) : res pyval :=
  match obj with
  | PDict d => Ok (match dict_get d key with Some v => v | None => PNone end)
  | _ => Raise AttributeError
  end.

(** [obj.get(key, default)]. *)
Definition py_get_default (obj : pyval) (key : string) (default : pyval) : res pyval :=
  match obj with
  | PDict d => Ok (match dict_get d key with Some v => v | None => default end)
  | _ => Raise AttributeError
  end.

(** [obj[key]] with a string key. *)
Definition py_getitem (obj : pyval) (key : string) : res pyval :=
  match obj with
  | PDict d => match dict_get d key with Some v => Ok v | None => Raise KeyError end
  | _ => Raise TypeError
  end.

(** ** Binary64 arithmetic *)

Definition prec : Z := 53.
Definition emax : Z := 1024.

Definition fzero : float := S754_zero false.
Definition fone : float := Eval cbv in binary_normalize prec emax 1 0 false.

(** The float literal [1e9]; the integer [1_000_000_000] converts to it. *)
Definition f1e9 : float := Eval cbv in binary_normalize prec emax 1000000000 0 false.

(** Conversion of an [int] to a float: rounded to nearest even,
    [OverflowError] when the integer is too large. *)
Definition float_of_int (z : Z) : res float :=
  match binary_normalize prec emax z 0 false with
  | S754_infinity _ => Raise OverflowError
  | f => Ok f
  end.

Definition fdiv (x y : float) : float := SFdiv prec emax x y.

(** The float a number is formatted or divided as. *)
Definition as_float (v : pyval) : res float :=
  match v with
  | PBool b => Ok (if b then fone else fzero)
  | PInt z => float_of_int z
  | PFloat f => Ok f
  | _ => Raise TypeError
  end.

(** [v >= 0] for a number [v]: exact on integers, false on NaN, true on
    both zeros. *)
Definition ge_zero (v : pyval) : bool :=
  match v with
  | PBool _ => true
  | PInt z => 0 <=? z
  | PFloat f => SFleb fzero f
  | _ => false
  end.

(** ** Decimal text *)

Definition digit_char (n : Z) : ascii := ascii_of_nat (48 + Z.to_nat n).

(** Decimal digits of a natural number, without leading zeros. *)
Definition nat_digits (n : Z) : string :=
  NilZero.string_of_uint (N.to_uint (Z.to_N n)).

(** The [k] low-order decimal digits of [n], zero padded. *)
Fixpoint low_digits (k : nat) (n : Z) : string :=
  match k with
  | O => ""
  | S k' => low_digits k' (n / 10) ++ String (digit_char (n mod 10)) ""
  end.

Fixpoint string_rev_onto (s acc : string) : string :=
  match s with
  | "" => acc
  | String c r => string_rev_onto r (String c acc)
  end.

Definition string_rev (s : string) : string := string_rev_onto s "".

(** A comma after every third character of a reversed digit string. *)
Fixpoint group3 (s : string) : string :=
  match s with
  | String a (String b (String c rest)) =>
      match rest with
      | "" => s
      | _ => String a (String b (String c (String "," (group3 rest))))
      end
  | _ => s
  end.

(** Thousands separators, the [,] option of a format specification. *)
Definition group_thousands (digits : string) : string :=
  string_rev (group3 (string_rev digits)).

(** [format(z, ",")] for an [int]. *)
Definition format_int_grouped (z : Z) : string :=
  (if z <? 0 then "-" else "") ++ group_thousands (nat_digits (Z.abs z)).

(** [n / d] rounded to the nearest integer, ties to even; [d > 0]. *)
Definition round_half_even (n d : Z) : Z :=
  let q := n / d in
  match 2 * (n mod d) ?= d with
  | Lt => q
  | Gt => q + 1
  | Eq => if Z.even q then q else q + 1
  end.

(** [m * 2^e * 10^digits] rounded to the nearest integer, ties to even:
    the digits that the correctly rounded [f] presentation prints. *)
Definition scaled (digits : nat) (m : positive) (e : Z) : Z :=
  let p := Zpos m * 10 ^ Z.of_nat digits in
  if 0 <=? e then p * 2 ^ e else round_half_even p (2 ^ (- e)).

(** Sign, integer part and fraction of a fixed-point text. *)
Definition fixed_text (grouping : bool) (digits : nat) (neg : bool) (n : Z) : string :=
  let ip := nat_digits (n / 10 ^ Z.of_nat digits) in
  (if neg then "-" else "")
  ++ (if grouping then group_thousands ip else ip)
  ++ match digits with
     | O => ""
     | _ => "." ++ low_digits digits n
     end.

(** [format(f, ".<digits>f")] and [format(f, ",.<digits>f")] for a float. *)
Definition format_float_f (grouping : bool) (digits : nat) (f : float) : string :=
  match f with
  | S754_nan => "nan"
  | S754_infinity s => if s then "-inf" else "inf"
  | S754_zero s => fixed_text grouping digits s 0
  | S754_finite s m e => fixed_text grouping digits s (scaled digits m e)
  end.

(** The same presentations for any number: an [int] (or [bool]) is
    converted to a float first, which can raise [OverflowError]. *)
Definition format_f (grouping : bool) (digits : nat) (v : pyval) : res string :=
  (f <- as_float v ;; Ok (format_float_f grouping digits f))%res.

(** ** Channel keys *)

Inductive channel_key : Type :=
| members
| difficulty_soterg
| hashrate_soterg
| block
| supply
| price
| volume_24h
| market_cap.

(** The label prefix of each key. *)
Definition CHANNEL_KEYS (key : channel_key) : string :=
  match key with
  | members => "Members:"
  | difficulty_soterg => "Difficulty (SoterG):"
  | hashrate_soterg => "Hashrate (SoterG): GH/s"
  | block => "Block:"
  | supply => "Supply:"
  | price => "Price:"
  | volume_24h => "24h Volume: $"
  | market_cap => "Market Cap: $"
  end.

Definition all_keys : list channel_key :=
  [members; difficulty_soterg; hashrate_soterg; block; supply; price;
   volume_24h; market_cap].

Definition channel_key_eqb (a b : channel_key) : bool :=
  match a, b with
  | members, members | difficulty_soterg, difficulty_soterg
  | hashrate_soterg, hashrate_soterg | block, block | supply, supply
  | price, price | volume_24h, volume_24h | market_cap, market_cap => true
  | _, _ => false
  end.

(** The sentinel for a value that is not available. *)
Definition NA : string := "N/A".

(** ** The HTTP boundary *)

(** What the program sees of a response: its status, and what decoding the
    body as JSON returns or raises. *)
Record response : Type := {
  status : Z;
  json : res pyval
}.

(** A request either raises in the transport or yields a response. *)
Definition http_outcome : Type := res response.

(** The three remote services, as they answer during one cycle: the node
    by method and parameters, the supply endpoint and the market-data
    endpoint. *)
Record session : Type := {
  post_rpc : string -> list pyval -> http_outcome;
  get_supply : http_outcome;
  get_coingecko : http_outcome
}.

(** ** Names *)

(** A text is held as its UTF-8 bytes: a byte below 128 is the ASCII
    character of that code, and every byte of a character outside ASCII
    is 128 or more. *)
Definition is_ascii (c : ascii) : bool := (nat_of_ascii c <? 128)%nat.

(** [str.lower] on ASCII: the letters A to Z become a to z. *)
Definition lower_char (c : ascii) : ascii :=
  let n := nat_of_ascii c in
  if ((65 <=? n) && (n <=? 90))%nat then ascii_of_nat (n + 32) else c.

(** Outside ASCII [str.lower] follows the Unicode database of the
    interpreter.  [lower_high before c after] is what it writes for the
    byte [c] of 128 or more, given the bytes before it (nearest first) and
    the bytes after it: the lower-case character for the first byte of a
    character, nothing for the bytes that continue one.  The result may be
    ASCII (the Kelvin sign becomes [k]) and may depend on the context
    (capital sigma). *)
Class unicode : Type := {
  lower_high : string -> ascii -> string -> string
}.

Fixpoint lower_from {u : unicode} (before s : string) : string :=
  match s with
  | "" => ""
  | String c r =>
      (if is_ascii c then String (lower_char c) "" else lower_high before c r)
      ++ lower_from (String c before) r
  end.

Definition lower {u : unicode} (s : string) : string := lower_from "" s.

(** [s.replace(" ", "")]. *)
Fixpoint remove_spaces (s : string) : string :=
  match s with
  | "" => ""
  | String c r => if Ascii.eqb c " " then remove_spaces r else String c (remove_spaces r)
  end.

(** White space as [str.strip] sees it below 128: tab to carriage return,
    the four separators 28 to 31, and the space. *)
Definition is_space (c : ascii) : bool :=
  let n := nat_of_ascii c in
  (((9 <=? n) && (n <=? 13)) || ((28 <=? n) && (n <=? 32)))%nat.

(** White space of two bytes: U+0085 and U+00A0. *)
Definition is_space2 (c d : ascii) : bool :=
  let n := nat_of_ascii d in
  ((nat_of_ascii c =? 194) && ((n =? 133) || (n =? 160)))%nat.

(** White space of three bytes: U+1680, U+2000 to U+200A, U+2028, U+2029,
    U+202F, U+205F and U+3000. *)
Definition is_space3 (c d e : ascii) : bool :=
  let a := nat_of_ascii c in
  let b := nat_of_ascii d in
  let n := nat_of_ascii e in
  (((a =? 225) && (b =? 154) && (n =? 128))
   || ((a =? 226) && (b =? 128)
       && (((128 <=? n) && (n <=? 138)) || (n =? 168) || (n =? 169) || (n =? 175)))
   || ((a =? 226) && (b =? 129) && (n =? 159))
   || ((a =? 227) && (b =? 128) && (n =? 128)))%nat.

Fixpoint lstrip (s : string) : string :=
  match s with
  | "" => ""
  | String c r =>
      if is_space c then lstrip r
      else match r with
           | "" => s
           | String d r2 =>
               if is_space2 c d then lstrip r2
               else match r2 with
                    | "" => s
                    | String e r3 => if is_space3 c d e then lstrip r3 else s
                    end
           end
  end.

(** A text of white space only. *)
Definition all_space (s : string) : bool :=
  match lstrip s with
  | "" => true
  | _ => false
  end.

Fixpoint rstrip (s : string) : string :=
  match s with
  | "" => ""
  | String c r => if all_space s then "" else String c (rstrip r)
  end.

Definition strip (s : string) : string := rstrip (lstrip s).

(** [norm]: lower case, spaces removed, stripped. *)
Definition norm {u : unicode} (s : string) : string :=
  strip (remove_spaces (lower s)).

(** ** The chat platform *)

Inductive channel_kind : Type :=
| VoiceChannel
| TextChannel
| StageChannel
| ForumChannel.

Definition is_voice (k : channel_kind) : bool :=
  match k with VoiceChannel => true | _ => false end.

(** A channel: its name, kind, the category it is in (a position in the
    guild's list of categories) and the [connect] entry of the overwrite
    for the default role ([None]: no entry, [Some false]: denied). *)
Record channel : Type := {
  ch_name : string;
  ch_kind : channel_kind;
  ch_category : option nat;
  ch_connect : option bool
}.

(** A guild.  Categories and channels are kept in the order the client
    lists them; an object is referred to by its position, which never
    changes because nothing is ever removed and new objects go last. *)
Record guild : Type := {
  categories : list string;
  channels : list channel;
  member_count : option Z
}.

(** The calls made on the platform, reads and writes. *)
Inductive event : Type :=
| EvFindCategory (name : string)
| EvCreateCategory (name : string)
| EvVoiceChannels (category : nat)
| EvCreateVoiceChannel (category : nat) (name : string)
| EvEdit (ref : nat) (name : string)
| EvSetPermissions (ref : nat).

(** The state a cycle runs in: the guild, for each coming write call
    whether it fails ([true]; an exhausted list means success), and the log
    of calls so far, oldest first. *)
Record world : Type := {
  w_guild : guild;
  w_faults : list bool;
  w_log : list event
}.

(** State and exceptions. *)
Definition M (A : Type) : Type := world -> res A * world.

Definition ret {A} (a : A) : M A := fun w => (Ok a, w).

Definition bind {A B} (m : M A) (k : A -> M B) : M B :=
  fun w =>
    match m w with
    | (Ok a, w') => k a w'
    | (Raise e, w') => (Raise e, w')
    end.

Definition lift {A} (r : res A) : M A := fun w => (r, w).

(** [try: m except Exception: h]; the state changes made before the
    exception stay. *)
Definition m_try {A} (m : M A) (h : exn -> M A) : M A :=
  fun w =>
    match m w with
    | (Ok a, w') => (Ok a, w')
    | (Raise e, w') => h e w'
    end.

Declare Scope M_scope.
Delimit Scope M_scope with M.
Notation "x <- m ;; k" := (bind m (fun x => k))
  (at level 61, m at next level, right associativity) : M_scope.
Notation "m ;; k" := (bind m (fun _ => k))
  (at level 61, right associativity) : M_scope.

Fixpoint for_each {A} (l : list A) (body : A -> M unit) : M unit :=
  match l with
  | [] => ret tt
  | x :: rest => (body x ;; for_each rest body)%M
  end.

Definition record (e : event) : M unit :=
  fun w => (Ok tt, {| w_guild := w_guild w;
                      w_faults := w_faults w;
                      w_log := w_log w ++ [e] |}%list).

(** The next entry of the oracle and the entries after it; an exhausted
    oracle answers that the call succeeds. *)
Definition pop_fault (faults : list bool) : bool * list bool :=
  match faults with
  | [] => (false, [])
  | b :: rest => (b, rest)
  end.

(** Does this write call fail? *)
Definition next_fault : M bool :=
  fun w => (Ok (fst (pop_fault (w_faults w))),
            {| w_guild := w_guild w;
               w_faults := snd (pop_fault (w_faults w));
               w_log := w_log w |}).

Definition get_guild : M guild := fun w => (Ok (w_guild w), w).

Definition set_guild (g : guild) : M unit :=
  fun w => (Ok tt, {| w_guild := g; w_faults := w_faults w; w_log := w_log w |}).

(** A write call: logged, then refused or carried out. *)
Definition write_call {A} (e : event) (act : guild -> A * guild) : M A :=
  (record e ;;
   failed <- next_fault ;;
   if (failed : bool) then lift (Raise HTTPException)
   else
     g <- get_guild ;;
     let (a, g') := act g in
     set_guild g' ;;
     ret a)%M.

(** [asyncio.sleep(0.5)]: time is not modelled. *)
Definition sleep : M unit := ret tt.

(** [guild.member_count]. *)
Definition get_member_count : M (option Z) :=
  (g <- get_guild ;; ret (member_count g))%M.

Fixpoint find_index {A} (p : A -> bool) (l : list A) (i : nat) : option nat :=
  match l with
  | [] => None
  | x :: rest => if p x then Some i else find_index p rest (S i)
  end.

(** [discord.utils.get(guild.categories, name=name)]: the first category
    with exactly that name. *)
Definition find_category (name : string) : M (option nat) :=
  (record (EvFindCategory name) ;;
   g <- get_guild ;;
   ret (find_index (fun n => (n =? name)%string) (categories g) 0%nat))%M.

(** [guild.create_category(name)]. *)
Definition create_category (name : string) : M nat :=
  write_call (EvCreateCategory name)
    (fun g => (List.length (categories g),
               {| categories := (categories g ++ [name])%list;
                  channels := channels g;
                  member_count := member_count g |})).

Definition is_voice_in (category : nat) (ch : channel) : bool :=
  is_voice (ch_kind ch) &&
  match ch_category ch with
  | Some c => (c =? category)%nat
  | None => false
  end.

Fixpoint enumerate {A} (l : list A) (i : nat) : list (nat * A) :=
  match l with
  | [] => []
  | x :: rest => (i, x) :: enumerate rest (S i)
  end.

(** [category.voice_channels]: the voice channels of the category, each
    with its position in the guild. *)
Definition voice_channels (category : nat) : M (list (nat * channel)) :=
  (record (EvVoiceChannels category) ;;
   g <- get_guild ;;
   ret (filter (fun rc => is_voice_in category (snd rc))
          (enumerate (channels g) 0%nat)))%M.

(** [category.create_voice_channel(name)]. *)
Definition create_voice_channel (category : nat) (name : string) : M nat :=
  write_call (EvCreateVoiceChannel category name)
    (fun g => (List.length (channels g),
               {| categories := categories g;
                  channels := (channels g ++
                                 [{| ch_name := name;
                                     ch_kind := VoiceChannel;
                                     ch_category := Some category;
                                     ch_connect := None |}])%list;
                  member_count := member_count g |})).

Fixpoint update_nth {A} (i : nat) (f : A -> A) (l : list A) : list A :=
  match l, i with
  | [], _ => []
  | x :: rest, O => f x :: rest
  | x :: rest, S i' => x :: update_nth i' f rest
  end.

Definition modify_channel (ref : nat) (f : channel -> channel) (g : guild) : guild :=
  {| categories := categories g;
     channels := update_nth ref f (channels g);
     member_count := member_count g |}.

(** [channel.edit(name=name)]. *)
Definition channel_edit (ref : nat) (name : string) : M unit :=
  write_call (EvEdit ref name)
    (fun g => (tt, modify_channel ref
                     (fun ch => {| ch_name := name;
                                   ch_kind := ch_kind ch;
                                   ch_category := ch_category ch;
                                   ch_connect := ch_connect ch |}) g)).

(** [channel.set_permissions(channel.guild.default_role, connect=False)]. *)
Definition set_permissions (ref : nat) : M unit :=
  write_call (EvSetPermissions ref)
    (fun g => (tt, modify_channel ref
                     (fun ch => {| ch_name := ch_name ch;
                                   ch_kind := ch_kind ch;
                                   ch_category := ch_category ch;
                                   ch_connect := Some false |}) g)).

(** The channel object behind a reference. *)
Definition get_channel (ref : nat) : M channel :=
  (g <- get_guild ;;
   match nth_error (channels g) ref with
   | Some ch => ret ch
   | None => lift (Raise AttributeError)
   end)%M.

Section Cycle.

(** Three operations of the Python runtime are taken as they are: [repr]
    of a float, [str] of a list or dict, and [float] of a str ([None]
    when the text is not a number). *)
Variable float_repr : float -> string.
Variable container_str : pyval -> string.
Variable float_of_str : string -> option float.

(** The Unicode database of the interpreter is taken as it is too. *)
Context {u : unicode}.

(** [str(v)], which an f-string applies to a value without a format. *)
Definition py_str (v : pyval) : string :=
  match v with
  | PNone => "None"
  | PBool b => if b then "True" else "False"
  | PInt z => (if z <? 0 then "-" else "") ++ nat_digits (Z.abs z)
  | PFloat f => float_repr f
  | PStr s => s
  | PList _ | PDict _ => container_str v
  end.

(** [float(v)]. *)
Definition py_float (v : pyval) : res float :=
  match v with
  | PStr s =>
      match float_of_str s with
      | Some f => Ok f
      | None => Raise ValueError
      end
  | PBool _ | PInt _ | PFloat _ => as_float v
  | _ => Raise TypeError
  end.

(** *** RPC helper *)

Definition make_rpc_call (s : session) (method : string)
    (params : option (list pyval)) : res pyval :=
  let params := match params with None => [] | Some p => p end in
  try_except
    (response <- post_rpc s method params ;;
     if negb (status response =? 200) then Ok PNone
     else
       data <- json response ;;
       py_get data "result")%res
    (fun _ => Ok PNone).

(** *** Formatting of the fetched values *)

(** [v or "N/A"], the difficulty and the block count. *)
Definition or_na (v : pyval) : pyval := py_or v (PStr NA).

(** The hashrate: [f"{v/1e9:,.3f}"] for a number, the sentinel otherwise. *)
Definition format_hashrate (v : pyval) : res pyval :=
  if is_number v
  then (f <- as_float v ;; Ok (PStr (format_float_f true 3 (fdiv f f1e9))))%res
  else Ok (PStr NA).

(** The body of the supply block: one GET,
    [float(supply_data['coinsupply'])] divided by 1_000_000_000, two
    decimals with separators and the unit. *)
Definition supply_block (s : session) : res pyval :=
  (response <- get_supply s ;;
   supply_data <- json response ;;
   raw <- py_getitem supply_data "coinsupply" ;;
   f <- py_float raw ;;
   Ok (PStr (format_float_f true 2 (fdiv f f1e9) ++ "B SOTER")))%res.

(** The supply block under its handler: the sentinel on any exception. *)
Definition fetch_supply (s : session) : res pyval :=
  try_except (supply_block s) (fun _ => Ok (PStr NA)).

(** The price text: the price to six decimals after a dollar sign, then,
    when the change is a number, the direction and the change to two
    decimals. *)
Definition format_price (current_price change_24h : pyval) : res string :=
  (price_core <-
     (if is_number current_price
      then (p <- format_f false 6 current_price ;; Ok ("$" ++ p))
      else Ok NA) ;;
   if is_number change_24h
   then
     arrow <-
       (if ge_zero change_24h
        then (c <- format_f false 2 change_24h ;; Ok ("▲ +" ++ c ++ "%"))
        else (c <- format_f false 2 change_24h ;; Ok ("▼ " ++ c ++ "%"))) ;;
     Ok (price_core ++ " (" ++ arrow ++ " 24h)")
   else Ok price_core)%res.

(** Volume and market capitalisation: [f"{v:,.0f}"] or the sentinel. *)
Definition format_amount (v : pyval) : res string :=
  if is_number v then format_f true 0 v else Ok NA.

Record market : Type := {
  price_display : pyval;
  volume_display : pyval;
  market_cap_display : pyval
}.

Definition market_na : market :=
  {| price_display := PStr NA;
     volume_display := PStr NA;
     market_cap_display := PStr NA |}.

(** The body of the market-data block: one GET, four optional fields,
    three texts. *)
Definition market_block (s : session) : res market :=
  (response <- get_coingecko s ;;
   data <- json response ;;
   md <- py_get_default data "market_data" (PDict []) ;;
   cp <- py_get md "current_price" ;;
   current_price <- py_get (py_or cp (PDict [])) "usd" ;;
   tv <- py_get md "total_volume" ;;
   volume <- py_get (py_or tv (PDict [])) "usd" ;;
   mc <- py_get md "market_cap" ;;
   cap <- py_get (py_or mc (PDict [])) "usd" ;;
   change_24h <- py_get md "price_change_percentage_24h" ;;
   p <- format_price current_price change_24h ;;
   v <- format_amount volume ;;
   c <- format_amount cap ;;
   Ok {| price_display := PStr p;
         volume_display := PStr v;
         market_cap_display := PStr c |})%res.

(** The market-data block under its handler: any exception sets the three
    texts to the sentinel. *)
Definition fetch_market (s : session) : res market :=
  try_except (market_block s) (fun _ => Ok market_na).

(** The values of one cycle, as the body of the [async with] block leaves
    them. *)
Record stats : Type := {
  st_difficulty : pyval;
  st_hashrate : pyval;
  st_block_count : pyval;
  st_supply : pyval;
  st_market : market
}.

Definition fetch_stats (s : session) : res stats :=
  (d <- make_rpc_call s "getdifficulty" (Some [PInt 0]) ;;
   let difficulty := or_na d in
   h <- make_rpc_call s "getnetworkhashps"
          (Some [PInt 0; PInt (-1); PStr "soterg"]) ;;
   hashrate <- format_hashrate h ;;
   b <- make_rpc_call s "getblockcount" (Some []) ;;
   let block_count := or_na b in
   supply_display <- fetch_supply s ;;
   m <- fetch_market s ;;
   Ok {| st_difficulty := difficulty;
         st_hashrate := hashrate;
         st_block_count := block_count;
         st_supply := supply_display;
         st_market := m |})%res.

(** *** Channel helpers *)

(** [get_or_create_channel]: the first voice channel of the category whose
    normalised name starts with the normalised label prefix, or a new
    voice channel named as the prefix. *)
Definition get_or_create_channel (category : nat) (key : channel_key) : M nat :=
  let target := CHANNEL_KEYS key in
  let target_norm := norm target in
  (chs <- voice_channels category ;;
   match find (fun rc : nat * channel =>
                 prefix target_norm (norm (ch_name (snd rc)))) chs with
   | Some rc => ret (fst rc)
   | None => create_voice_channel category target
   end)%M.

(** [set_channel_private]: deny [connect] to the default role on a voice
    channel of the category; a failure of the call is logged only. *)
Definition set_channel_private (category : nat) (ref : nat) : M unit :=
  m_try
    (ch <- get_channel ref ;;
     if is_voice_in category ch
     then set_permissions ref
     else ret tt)%M
    (fun _ => ret tt).

(** [update_channel]: find or create the channel of the key and rename it
    to the prefix, a space and the value; a failure is logged only. *)
Definition update_channel (category : nat) (key : channel_key) (value : pyval) : M unit :=
  m_try
    (ch <- get_or_create_channel category key ;;
     channel_edit ch (CHANNEL_KEYS key ++ " " ++ py_str value))%M
    (fun _ => ret tt).

(** *** Stats updater *)

Definition category_name : string := "Soteria Server Stats".

(** [guild.member_count or "N/A"]. *)
Definition member_count_or_na (mc : option Z) : pyval :=
  py_or (match mc with Some n => PInt n | None => PNone end) (PStr NA).

(** [f"{member_count:,}"] on the value above, an int or the str: the
    [,] option groups an int and is refused for a str. *)
Definition format_member_count (v : pyval) : res string :=
  match v with
  | PInt z => Ok (format_int_grouped z)
  | _ => Raise ValueError
  end.

(** The category: looked up by its exact name, created when absent. *)
Definition resolve_category : M nat :=
  (c <- find_category category_name ;;
   match c with
   | Some category => ret category
   | None => create_category category_name
   end)%M.

Definition lock_channels (category : nat) : M unit :=
  (chs <- voice_channels category ;;
   for_each (map fst chs) (set_channel_private category))%M.

(** The part of the cycle after the fetches: member count, category, the
    eight updates in order, then the lock of every voice channel of the
    category. *)
Definition reconcile_all (st : stats) : M unit :=
  (mc <- get_member_count ;;
   let member_count := member_count_or_na mc in
   category <- resolve_category ;;
   sleep ;;
   m <- lift (format_member_count member_count) ;;
   update_channel category members (PStr m) ;;
   sleep ;;
   update_channel category difficulty_soterg (st_difficulty st) ;;
   sleep ;;
   update_channel category hashrate_soterg (st_hashrate st) ;;
   sleep ;;
   update_channel category block (st_block_count st) ;;
   sleep ;;
   update_channel category supply (st_supply st) ;;
   sleep ;;
   update_channel category price (price_display (st_market st)) ;;
   sleep ;;
   update_channel category volume_24h (volume_display (st_market st)) ;;
   sleep ;;
   update_channel category market_cap (market_cap_display (st_market st)) ;;
   lock_channels category)%M.

(** [update_stats_channels]: the whole cycle for one guild under its
    catch-all handler. *)
Definition update_stats_channels (s : session) : M unit :=
  m_try
    (st <- lift (fetch_stats s) ;;
     reconcile_all st)%M
    (fun _ => ret tt).

End Cycle.

(** ** The task over all guilds *)

(** The client: the guilds the bot is in, in the order it lists them, with
    the oracle and the log that all its platform calls share. *)
Record client : Type := {
  cl_guilds : list guild;
  cl_faults : list bool;
  cl_log : list event
}.

(** The body of the loop [for guild in client.guilds] from position [i]
    on: the cycle of each guild in turn; an exception out of a cycle
    would end the loop there. *)
Fixpoint update_guilds (cycle : nat -> M unit) (i : nat) (gs : list guild)
    (faults : list bool) (log : list event) : res unit * client :=
  match gs with
  | [] => (Ok tt, {| cl_guilds := []; cl_faults := faults; cl_log := log |})
  | g :: rest =>
      match cycle i {| w_guild := g; w_faults := faults; w_log := log |} with
      | (Ok _, w) =>
          let (r, c) := update_guilds cycle (S i) rest (w_faults w) (w_log w) in
          (r, {| cl_guilds := w_guild w :: cl_guilds c;
                 cl_faults := cl_faults c;
                 cl_log := cl_log c |})
      | (Raise e, w) =>
          (Raise e, {| cl_guilds := w_guild w :: rest;
                       cl_faults := w_faults w;
                       cl_log := w_log w |})
      end
  end.

(** [update_stats_task]: one firing of the loop.  [sessions i] is how the
    services answer during the cycle of the guild at position [i]. *)
Definition update_stats_task {u : unicode} (float_repr : float -> string)
    (container_str : pyval -> string) (float_of_str : string -> option float)
    (sessions : nat -> session) (c : client) : res unit * client :=
  update_guilds
    (fun i => update_stats_channels float_repr container_str float_of_str (sessions i))
    0%nat (cl_guilds c) (cl_faults c) (cl_log c).

(** A text without its commas. *)
Fixpoint remove_commas (s : string) : string :=
  match s with
  | "" => ""
  | String c r => if Ascii.eqb c "," then remove_commas r else String c (remove_commas r)
  end.

(** * Specification-level definitions and sample inputs *)

(** The contract of the RPC fetch in the words of the specification: the
    value of the [result] field of the envelope of a successful response,
    the missing value on any other status, on a transport error and on a
    malformed envelope. *)
Definition rpc_contract (o : http_outcome) : pyval :=
  match o with
  | Raise _ => PNone
  | Ok r =>
      if status r =? 200
      then match json r with
           | Ok (PDict d) =>
               match dict_get d "result" with
               | Some v => v
               | None => PNone
               end
           | _ => PNone
           end
      else PNone
  end.

(** The parameter list a call is made with. *)
Definition params_or_empty (params : option (list pyval)) : list pyval :=
  match params with
  | None => []
  | Some p => p
  end.

(** The results of the three RPC calls of a cycle. *)
Definition difficulty_result (s : session) : pyval :=
  rpc_contract (post_rpc s "getdifficulty" [PInt 0]).

Definition hashrate_result (s : session) : pyval :=
  rpc_contract (post_rpc s "getnetworkhashps" [PInt 0; PInt (-1); PStr "soterg"]).

Definition block_count_result (s : session) : pyval :=
  rpc_contract (post_rpc s "getblockcount" []).


(** A session in which the supply endpoint answers [o] and the other
    services answer as in [s]. *)
Definition with_supply (s : session) (o : http_outcome) : session :=
  {| post_rpc := post_rpc s;
     get_supply := o;
     get_coingecko := get_coingecko s |}.

(** A successful response carrying a JSON document. *)
Definition ok_json (v : pyval) : http_outcome :=
  Ok {| status := 200; json := Ok v |}.

(** The binary64 values of the literals 0.000123, -1.5, 2.0 and
    2500000000000.0. *)
Definition float_0_000123 : float := S754_finite false 4537899042132550 (-65).
Definition float_m1_5 : float := S754_finite true 6755399441055744 (-52).
Definition float_2_0 : float := S754_finite false 4503599627370496 (-51).
Definition float_25e11 : float := S754_finite false 5120000000000000 (-11).

(** A node that answers every method with the same result. *)
Definition rpc_always (v : pyval) : string -> list pyval -> http_outcome :=
  fun _ _ => ok_json (PDict [("result", v)]).

(** A market-data document with a price and a 24h change. *)
Definition market_doc (current_price change_24h : pyval) : pyval :=
  PDict [("market_data",
          PDict [("current_price", PDict [("usd", current_price)]);
                 ("price_change_percentage_24h", change_24h)])].

(** A session whose node answers [v] to every call, with a plain supply
    and market document. *)
Definition sample_session (v : pyval) : session :=
  {| post_rpc := rpc_always v;
     get_supply := ok_json (PDict [("coinsupply", PInt 2500000000000)]);
     get_coingecko := ok_json (market_doc (PFloat float_0_000123) (PFloat float_m1_5)) |}.


(** The smallest integer that no longer converts to a float. *)
Definition int_too_large : Z := 2 ^ 1024 - 2 ^ 970.

(** The values the two guarded blocks leave behind. *)
Definition supply_value (float_of_str : string -> option float) (s : session) : pyval :=
  match supply_block float_of_str s with
  | Ok v => v
  | Raise _ => PStr NA
  end.

Definition market_value (s : session) : market :=
  match market_block s with
  | Ok m => m
  | Raise _ => market_na
  end.

(** The market texts of a fetch, or the exception it raised. *)
Definition market_of (r : res stats) : res market := res_map st_market r.

(** A runtime in which no text converts to a float. *)
Definition no_float_of_str : string -> option float := fun _ => None.

(** A channel is the resource of a key in a category when it is a voice
    channel of the category whose normalised name starts with the
    normalised label prefix of the key. *)
Definition matches {u : unicode} (category : nat) (key : channel_key) (ch : channel) : bool :=
  is_voice_in category ch
  && prefix (norm (CHANNEL_KEYS key)) (norm (ch_name ch)).

(** The number of resources of a key in a category. *)
Definition count_matching {u : unicode} (category : nat) (key : channel_key)
    (chs : list channel) : nat :=
  List.length (filter (matches category key) chs).

Definition rename (name : string) (ch : channel) : channel :=
  {| ch_name := name;
     ch_kind := ch_kind ch;
     ch_category := ch_category ch;
     ch_connect := ch_connect ch |}.

Definition deny_connect (ch : channel) : channel :=
  {| ch_name := ch_name ch;
     ch_kind := ch_kind ch;
     ch_category := ch_category ch;
     ch_connect := Some false |}.

Definition new_voice_channel (category : nat) (name : string) : channel :=
  {| ch_name := name;
     ch_kind := VoiceChannel;
     ch_category := Some category;
     ch_connect := None |}.

Definition with_channels (g : guild) (chs : list channel) : guild :=
  {| categories := categories g;
     channels := chs;
     member_count := member_count g |}.

(** What one successful reconciliation does to the channels of the guild:
    the first resource of the key is renamed to the label, or a voice
    channel with the label is added at the end. *)
Definition reconcile_channels {u : unicode} (category : nat) (key : channel_key)
    (label : string) (chs : list channel) : list channel :=
  match find_index (matches category key) chs 0%nat with
  | Some i => update_nth i (rename label) chs
  | None => (chs ++ [new_voice_channel category label])%list
  end.

(** The label a key is given for a value. *)
Definition label_of (float_repr : float -> string)
    (container_str : pyval -> string) (key : channel_key) (value : pyval) : string :=
  CHANNEL_KEYS key ++ " " ++ py_str float_repr container_str value.

(** The category a cycle works in: the first one with the fixed name, or
    the one it creates after the existing ones. *)
Definition target_category (g : guild) : nat :=
  match find_index (fun n => (n =? category_name)%string) (categories g) 0%nat with
  | Some i => i
  | None => List.length (categories g)
  end.

(** Calls that concern channels, as opposed to the category. *)
Definition channel_event (e : event) : bool :=
  match e with
  | EvFindCategory _ | EvCreateCategory _ => false
  | _ => true
  end.

Definition category_creation (e : event) : bool :=
  match e with
  | EvCreateCategory _ => true
  | _ => false
  end.

(** A world with no failing call and an empty log. *)
Definition fresh_world (g : guild) : world :=
  {| w_guild := g; w_faults := []; w_log := [] |}.

(** A computation keeps a relation between the world it starts in and the
    world it leaves. *)
Definition keeps (R : world -> world -> Prop) {A} (m : M A) : Prop :=
  forall w, R w (snd (m w)).

(** A computation that never raises. *)
Definition returns {A} (m : M A) : Prop :=
  forall w, exists a, fst (m w) = Ok a.

(** What the work on the channels of a category can change, whatever
    calls fail: the categories and the member count stay; a channel keeps
    its position, kind and category, and is left exactly as it was unless
    it is a voice channel of the category; the log grows by calls on
    channels, and a permission call targets a voice channel of the
    category; an oracle without failures stays so. *)
Record steady (category : nat) (w w' : world) : Prop := {
  steady_categories :
    categories (w_guild w') = categories (w_guild w);
  steady_members :
    member_count (w_guild w') = member_count (w_guild w);
  steady_channels :
    forall i ch,
      nth_error (channels (w_guild w)) i = Some ch ->
      exists ch',
        nth_error (channels (w_guild w')) i = Some ch'
        /\ ch_kind ch' = ch_kind ch
        /\ ch_category ch' = ch_category ch
        /\ (is_voice_in category ch = false -> ch' = ch);
  steady_log :
    exists evs,
      w_log w' = (w_log w ++ evs)%list
      /\ Forall (fun e => channel_event e = true) evs
      /\ forall i,
           In (EvSetPermissions i) evs ->
           exists ch,
             nth_error (channels (w_guild w')) i = Some ch
             /\ is_voice_in category ch = true;
  steady_faults :
    w_faults w = [] -> w_faults w' = []
}.

(** What locking can change: a channel keeps its position and is either
    left as it was or denied [connect]; the log only grows; an oracle
    without failures stays so. *)
Record locking (w w' : world) : Prop := {
  locking_channels :
    forall i ch,
      nth_error (channels (w_guild w)) i = Some ch ->
      exists ch',
        nth_error (channels (w_guild w')) i = Some ch'
        /\ (ch' = ch \/ ch' = deny_connect ch);
  locking_length :
    List.length (channels (w_guild w')) = List.length (channels (w_guild w));
  locking_log :
    exists evs, w_log w' = (w_log w ++ evs)%list;
  locking_faults :
    w_faults w = [] -> w_faults w' = []
}.

(** The eight updates in order, the tail of [reconcile_all] before the
    lock. *)
Definition eight_updates {u : unicode} (float_repr : float -> string)
    (container_str : pyval -> string) (category : nat) (m : string)
    (st : stats) : M unit :=
  let update := update_channel float_repr container_str category in
  (update members (PStr m) ;;
   sleep ;;
   update difficulty_soterg (st_difficulty st) ;;
   sleep ;;
   update hashrate_soterg (st_hashrate st) ;;
   sleep ;;
   update block (st_block_count st) ;;
   sleep ;;
   update supply (st_supply st) ;;
   sleep ;;
   update price (price_display (st_market st)) ;;
   sleep ;;
   update volume_24h (volume_display (st_market st)) ;;
   sleep ;;
   update market_cap (market_cap_display (st_market st)))%M.

(** A float that is a number: a zero or a finite value. *)
Definition is_finite (f : float) : bool :=
  match f with
  | S754_zero _ | S754_finite _ _ _ => true
  | _ => false
  end.

(** The eight updates and the lock, the tail of [reconcile_all]. *)
Definition updates_then_lock {u : unicode} (float_repr : float -> string)
    (container_str : pyval -> string) (category : nat) (m : string)
    (st : stats) : M unit :=
  let update := update_channel float_repr container_str category in
  (update members (PStr m) ;;
   sleep ;;
   update difficulty_soterg (st_difficulty st) ;;
   sleep ;;
   update hashrate_soterg (st_hashrate st) ;;
   sleep ;;
   update block (st_block_count st) ;;
   sleep ;;
   update supply (st_supply st) ;;
   sleep ;;
   update price (price_display (st_market st)) ;;
   sleep ;;
   update volume_24h (volume_display (st_market st)) ;;
   sleep ;;
   update market_cap (market_cap_display (st_market st)) ;;
   lock_channels category)%M.

(** Sample runtime operations. *)
Definition sample_float_repr : float -> string := fun _ => "0.0".
Definition sample_container_str : pyval -> string := fun _ => "[]".

(** The stats of a fetch that returned. *)
Definition stats_of (r : res stats) : stats :=
  match r with
  | Ok st => st
  | Raise _ =>
      {| st_difficulty := PNone;
         st_hashrate := PNone;
         st_block_count := PNone;
         st_supply := PNone;
         st_market := market_na |}
  end.

(** A guild with a stats category that already holds a voice channel the
    bot did not create, next to a text channel and a voice channel
    elsewhere. *)
Definition sample_guild : guild :=
  {| categories := ["General"; "Soteria Server Stats"];
     channels :=
       [ {| ch_name := "chat"; ch_kind := TextChannel;
            ch_category := Some 0%nat; ch_connect := None |};
         {| ch_name := "Lounge"; ch_kind := VoiceChannel;
            ch_category := Some 1%nat; ch_connect := None |};
         {| ch_name := "Members: 7"; ch_kind := VoiceChannel;
            ch_category := Some 0%nat; ch_connect := None |} ];
     member_count := Some 1234 |}.

(** A guild whose member count is not available. *)
Definition guild_without_count : guild :=
  {| categories := []; channels := []; member_count := None |}.

(** A session whose supply request fails in the transport. *)
Definition supply_down : session :=
  with_supply (sample_session (PInt 1)) (Raise ClientError).

(** A session whose node cannot be reached. *)
Definition node_down : session :=
  {| post_rpc := fun _ _ => Raise ClientError;
     get_supply := Raise ClientError;
     get_coingecko := Raise ClientError |}.

(** A text made of decimal digits only. *)
Definition is_digit (c : ascii) : bool :=
  let n := nat_of_ascii c in ((48 <=? n) && (n <=? 57))%nat.

Fixpoint all_digits (s : string) : bool :=
  match s with
  | "" => true
  | String c r => is_digit c && all_digits r
  end.

(** For every key, the resources in a category do not decrease and do
    not exceed one unless they already did. *)
Definition one_per_key {u : unicode} (category : nat) (w w' : world) : Prop :=
  forall k,
    (count_matching category k (channels (w_guild w))
     <= count_matching category k (channels (w_guild w'))
     <= Nat.max 1 (count_matching category k (channels (w_guild w))))%nat.

(** What the lock does to one channel when its call succeeds. *)
Definition lock_one (category : nat) (ch : channel) : channel :=
  if is_voice_in category ch then deny_connect ch else ch.

(** The value a cycle shows for a key. *)
Definition value_of (m : string) (st : stats) (key : channel_key) : pyval :=
  match key with
  | members => PStr m
  | difficulty_soterg => st_difficulty st
  | hashrate_soterg => st_hashrate st
  | block => st_block_count st
  | supply => st_supply st
  | price => price_display (st_market st)
  | volume_24h => volume_display (st_market st)
  | market_cap => market_cap_display (st_market st)
  end.

(** Successful reconciliations of a list of keys, one after the other. *)
Definition reconcile_keys {u : unicode} (category : nat) (labels : channel_key -> string)
    (keys : list channel_key) (chs : list channel) : list channel :=
  fold_left (fun acc k => reconcile_channels category k (labels k) acc) keys chs.

(** The labels of a cycle with member count [n] and fetched values [st]. *)
Definition cycle_labels (float_repr : float -> string)
    (container_str : pyval -> string) (n : Z) (st : stats)
    (key : channel_key) : string :=
  label_of float_repr container_str key (value_of (format_int_grouped n) st key).

(** The categories after a cycle that resolved its category. *)
Definition categories_after (g : guild) : list string :=
  match find_index (fun n => (n =? category_name)%string) (categories g) 0%nat with
  | Some _ => categories g
  | None => (categories g ++ [category_name])%list
  end.

(** The guild a complete cycle leaves when no call fails. *)
Definition cycle_guild {u : unicode} (float_repr : float -> string)
    (container_str : pyval -> string) (n : Z) (st : stats) (g : guild) : guild :=
  {| categories := categories_after g;
     channels :=
       map (lock_one (target_category g))
         (reconcile_keys (target_category g)
            (cycle_labels float_repr container_str n st) all_keys (channels g));
     member_count := member_count g |}.

(** A step adds at most [n] channels, each a voice channel of the
    category. *)
Definition adds (category : nat) (n : nat) (w w' : world) : Prop :=
  (List.length (channels (w_guild w))
   <= List.length (channels (w_guild w'))
   <= List.length (channels (w_guild w)) + n)%nat
  /\ forall i ch,
       (List.length (channels (w_guild w)) <= i)%nat ->
       nth_error (channels (w_guild w')) i = Some ch ->
       is_voice_in category ch = true.

(** The key resolves to a channel that carries its label. *)
Definition settled {u : unicode} (category : nat) (labels : channel_key -> string)
    (chs : list channel) (k : channel_key) : Prop :=
  exists ch,
    find (matches category k) chs = Some ch /\ ch_name ch = labels k.

(** A session in which the market-data endpoint answers [o] and the other
    services answer as in [s]. *)
Definition with_coingecko (s : session) (o : http_outcome) : session :=
  {| post_rpc := post_rpc s;
     get_supply := get_supply s;
     get_coingecko := o |}.

(** A market-data document of the documented shape: the three amounts
    under [usd], the change directly under [market_data]. *)
Definition full_market_doc (current_price volume cap change_24h : pyval) : pyval :=
  PDict [("market_data",
          PDict [("current_price", PDict [("usd", current_price)]);
                 ("total_volume", PDict [("usd", volume)]);
                 ("market_cap", PDict [("usd", cap)]);
                 ("price_change_percentage_24h", change_24h)])].

(** The text of a formatting step that did not raise. *)
Definition text_of (r : res string) : pyval :=
  match r with
  | Ok t => PStr t
  | Raise _ => PStr NA
  end.

(** A value whose formatting as a float cannot raise: anything but an
    integer too large for a float. *)
Definition converts (v : pyval) : bool :=
  match v with
  | PInt z => match float_of_int z with Ok _ => true | Raise _ => false end
  | _ => true
  end.


(** An ASCII text: every byte is below 128. *)
Fixpoint ascii_text (s : string) : bool :=
  match s with
  | "" => true
  | String c r => is_ascii c && ascii_text r
  end.

(** What [str.lower] makes of an ASCII text. *)
Fixpoint lower_ascii (s : string) : string :=
  match s with
  | "" => ""
  | String c r => String (lower_char c) (lower_ascii r)
  end.

(** A text of visible ASCII characters only: no white space and nothing
    outside ASCII. *)
Fixpoint all_visible (s : string) : bool :=
  match s with
  | "" => true
  | String c r => is_ascii c && negb (is_space c) && all_visible r
  end.

(** Does [s] start with the bytes [p]? *)
Fixpoint starts_with (p : list nat) (s : string) : bool :=
  match p, s with
  | [], _ => true
  | n :: p', String c r => (nat_of_ascii c =? n)%nat && starts_with p' r
  | _ :: _, "" => false
  end.

(** A sample database: the Kelvin sign U+212A, bytes 226 132 170, becomes
    [k]; every other character outside ASCII has no lower case of its
    own. *)
Definition sample_unicode : unicode :=
  {| lower_high := fun before c after =>
       match nat_of_ascii c with
       | 226%nat => if starts_with [132; 170]%nat after then "k" else String c ""
       | 132%nat =>
           if starts_with [226]%nat before && starts_with [170]%nat after
           then "" else String c ""
       | 170%nat => if starts_with [132; 226]%nat before then "" else String c ""
       | _ => String c ""
       end |}.

(** A voice channel of category 0 whose name is BLOC, the Kelvin sign and
    a value. *)
Definition kelvin_channel : channel :=
  {| ch_name := String "B" (String "L" (String "O" (String "C"
                  (String (ascii_of_nat 226) (String (ascii_of_nat 132)
                     (String (ascii_of_nat 170) ": 5"))))));
     ch_kind := VoiceChannel;
     ch_category := Some 0%nat;
     ch_connect := None |}.

(** A guild whose category already has two channels for the members. *)
Definition duplicate_guild : guild :=
  {| categories := ["Soteria Server Stats"];
     channels :=
       [ {| ch_name := "Members: 5"; ch_kind := VoiceChannel;
            ch_category := Some 0%nat; ch_connect := None |};
         {| ch_name := "members : 2"; ch_kind := VoiceChannel;
            ch_category := Some 0%nat; ch_connect := None |} ];
     member_count := Some 7 |}.

(** A guild whose first block channel is spelled with the Kelvin sign. *)
Definition kelvin_guild : guild :=
  {| categories := ["Soteria Server Stats"];
     channels :=
       [ kelvin_channel;
         {| ch_name := "Block: 7"; ch_kind := VoiceChannel;
            ch_category := Some 0%nat; ch_connect := None |} ];
     member_count := Some 7 |}.

(** * Properties of the fetchers and the formatter *)

(** ** The decimal text *)

Lemma append_assoc (a b c : string) : (a ++ b) ++ c = a ++ (b ++ c).
Proof. induction a as [|x a IH]; simpl; [reflexivity|]. now rewrite IH. Qed.

Lemma append_nil_r (a : string) : a ++ "" = a.
Proof. induction a as [|x a IH]; simpl; [reflexivity|]. now rewrite IH. Qed.

Lemma length_append (a b : string) :
  String.length (a ++ b) = (String.length a + String.length b)%nat.
Proof. induction a as [|x a IH]; simpl; [reflexivity|]. now rewrite IH. Qed.

Lemma all_digits_append (a b : string) :
  all_digits (a ++ b) = all_digits a && all_digits b.
Proof.
  induction a as [|x a IH]; simpl; [reflexivity|].
  rewrite IH. apply andb_assoc.
Qed.

Lemma digit_char_is_digit (n : Z) :
  0 <= n < 10 -> is_digit (digit_char n) = true.
Proof.
  intros H. unfold digit_char.
  assert (Z.to_nat n < 10)%nat as B by lia.
  revert B. generalize (Z.to_nat n) as k. intros k B.
  do 10 (destruct k as [|k]; [reflexivity|]). lia.
Qed.

Lemma low_digits_length (k : nat) (n : Z) :
  String.length (low_digits k n) = k.
Proof.
  revert n. induction k as [|k IH]; intros n; [reflexivity|].
  cbn [low_digits]. rewrite length_append, IH. cbn [String.length]. lia.
Qed.

Lemma low_digits_digits (k : nat) (n : Z) :
  all_digits (low_digits k n) = true.
Proof.
  revert n. induction k as [|k IH]; intros n; [reflexivity|].
  cbn [low_digits]. rewrite all_digits_append, IH. cbn [all_digits andb].
  rewrite digit_char_is_digit; [reflexivity|].
  apply Z.mod_pos_bound. lia.
Qed.

(** The rounded quotient is a nearest integer, and the even one on a tie. *)
Lemma round_half_even_nearest (n d : Z) :
  0 < d -> 2 * Z.abs (n - round_half_even n d * d) <= d.
Proof.
  intros Hd. unfold round_half_even.
  pose proof (Z.div_mod n d ltac:(lia)) as E.
  pose proof (Z.mod_pos_bound n d Hd) as B.
  destruct (Z.compare_spec (2 * (n mod d)) d) as [H|H|H].
  - destruct (Z.even (n / d)); nia.
  - nia.
  - nia.
Qed.

Lemma round_half_even_tie (n d : Z) :
  2 * (n mod d) = d -> Z.even (round_half_even n d) = true.
Proof.
  intros H. unfold round_half_even. rewrite H, Z.compare_refl.
  destruct (Z.even (n / d)) eqn:E; [exact E|].
  rewrite Z.add_1_r, Z.even_succ, <- Z.negb_even, E. reflexivity.
Qed.

(** The digits printed for a finite float are those of its value times
    [10^digits], exactly when that is an integer and rounded to a nearest
    integer otherwise. *)
Lemma scaled_exact (digits : nat) (m : positive) (e : Z) :
  0 <= e -> scaled digits m e = Zpos m * 10 ^ Z.of_nat digits * 2 ^ e.
Proof.
  intros H. unfold scaled. apply Z.leb_le in H. rewrite H. reflexivity.
Qed.

Lemma scaled_nearest (digits : nat) (m : positive) (e : Z) :
  e < 0 ->
  2 * Z.abs (Zpos m * 10 ^ Z.of_nat digits - scaled digits m e * 2 ^ (- e))
  <= 2 ^ (- e).
Proof.
  intros H. unfold scaled.
  destruct (0 <=? e) eqn:E; [apply Z.leb_le in E; lia|].
  apply round_half_even_nearest. apply Z.pow_pos_nonneg; lia.
Qed.

(** A fixed-point text with decimals ends in a point and exactly that
    many digits. *)
Lemma fixed_text_shape (grouping : bool) (k : nat) (neg : bool) (n : Z) :
  exists head frac,
    fixed_text grouping (S k) neg n = head ++ "." ++ frac
    /\ String.length frac = S k
    /\ all_digits frac = true.
Proof.
  unfold fixed_text.
  eexists. exists (low_digits (S k) n).
  split; [rewrite <- append_assoc; reflexivity|].
  split; [apply low_digits_length|apply low_digits_digits].
Qed.

Lemma format_float_f_shape (grouping : bool) (k : nat) (f : float) :
  is_finite f = true ->
  exists head frac,
    format_float_f grouping (S k) f = head ++ "." ++ frac
    /\ String.length frac = S k
    /\ all_digits frac = true.
Proof.
  destruct f; try discriminate; intros _; apply fixed_text_shape.
Qed.

(** ** Thousands separators *)

Lemma remove_commas_app (a b : string) :
  remove_commas (a ++ b) = remove_commas a ++ remove_commas b.
Proof.
  induction a as [|x a IH]; simpl; [reflexivity|].
  destruct (Ascii.eqb x ","); simpl; now rewrite IH.
Qed.

Lemma string_rev_onto_app (s acc : string) :
  string_rev_onto s acc = string_rev s ++ acc.
Proof.
  unfold string_rev. revert acc.
  induction s as [|c s IH]; intros acc; simpl; [reflexivity|].
  rewrite IH, (IH (String c "")), append_assoc. reflexivity.
Qed.

Lemma string_rev_cons (c : ascii) (s : string) :
  string_rev (String c s) = string_rev s ++ String c "".
Proof. unfold string_rev at 1. simpl. apply string_rev_onto_app. Qed.

Lemma string_rev_app (a b : string) :
  string_rev (a ++ b) = string_rev b ++ string_rev a.
Proof.
  induction a as [|c a IH]; simpl.
  - now rewrite append_nil_r.
  - rewrite !string_rev_cons, IH, append_assoc. reflexivity.
Qed.

Lemma string_rev_involutive (s : string) : string_rev (string_rev s) = s.
Proof.
  induction s as [|c s IH]; [reflexivity|].
  rewrite string_rev_cons, string_rev_app, IH. reflexivity.
Qed.

Lemma remove_commas_rev (s : string) :
  remove_commas (string_rev s) = string_rev (remove_commas s).
Proof.
  induction s as [|c s IH]; [reflexivity|].
  rewrite string_rev_cons, remove_commas_app, IH. simpl.
  destruct (Ascii.eqb c ",").
  - now rewrite append_nil_r.
  - now rewrite string_rev_cons.
Qed.

Lemma remove_commas_group3_bounded (n : nat) (s : string) :
  (String.length s <= n)%nat -> remove_commas (group3 s) = remove_commas s.
Proof.
  revert s. induction n as [|n IH]; intros s H.
  - destruct s; [reflexivity|simpl in H; lia].
  - destruct s as [|a [|b [|c [|d r]]]]; try reflexivity.
    change (group3 (String a (String b (String c (String d r)))))
      with (String a (String b (String c (String "," (group3 (String d r)))))).
    cbn [remove_commas].
    rewrite (IH (String d r)) by (simpl in *; lia).
    destruct (Ascii.eqb a ","), (Ascii.eqb b ","), (Ascii.eqb c ",");
      reflexivity.
Qed.

Lemma remove_commas_group_thousands (digits : string) :
  remove_commas (group_thousands digits) = remove_commas digits.
Proof.
  unfold group_thousands.
  rewrite remove_commas_rev,
    (remove_commas_group3_bounded _ _ (Nat.le_refl _)),
    remove_commas_rev, string_rev_involutive.
  reflexivity.
Qed.

Lemma uint_digits_no_comma (d : Decimal.uint) :
  remove_commas (NilEmpty.string_of_uint d) = NilEmpty.string_of_uint d.
Proof. induction d; simpl; try reflexivity; now rewrite IHd. Qed.

Lemma nat_digits_no_comma (n : Z) : remove_commas (nat_digits n) = nat_digits n.
Proof.
  unfold nat_digits, NilZero.string_of_uint.
  destruct (N.to_uint (Z.to_N n)); try reflexivity;
    apply (uint_digits_no_comma (_ _)).
Qed.


Lemma get_digit (r : string) (i : nat) (c : ascii) :
  all_digits r = true -> String.get i r = Some c -> is_digit c = true.
Proof.
  revert i. induction r as [|a r IH]; intros i Hd Hg; [discriminate Hg|].
  cbn [all_digits] in Hd. apply andb_true_iff in Hd as [Ha Hr].
  destruct i as [|i]; simpl in Hg.
  - injection Hg as <-. exact Ha.
  - apply (IH i Hr Hg).
Qed.

Lemma group3_positions (k : nat) (r : string) :
  (String.length r <= k)%nat -> all_digits r = true ->
  forall i c,
    String.get i (group3 r) = Some c ->
    ((i mod 4 = 3)%nat -> c = ","%char)
    /\ ((i mod 4 <> 3)%nat -> is_digit c = true).
Proof.
  revert r. induction k as [|k IH]; intros r Hlen Hd i c Hg.
  - destruct r; [discriminate Hg|simpl in Hlen; lia].
  - destruct r as [|a [|b [|c0 [|d r]]]].
    + discriminate Hg.
    + cbn [group3] in Hg.
      destruct i as [|i]; [|destruct i; discriminate Hg].
      split; [intros M; discriminate M|intros _; apply (get_digit _ _ _ Hd Hg)].
    + cbn [group3] in Hg.
      destruct i as [|[|i]]; [| |destruct i; discriminate Hg];
        (split; [intros M; discriminate M|intros _; apply (get_digit _ _ _ Hd Hg)]).
    + cbn [group3] in Hg.
      destruct i as [|[|[|i]]]; [| | |destruct i; discriminate Hg];
        (split; [intros M; discriminate M|intros _; apply (get_digit _ _ _ Hd Hg)]).
    + change (group3 (String a (String b (String c0 (String d r)))))
        with (String a (String b (String c0 (String "," (group3 (String d r))))))
        in Hg.
      destruct i as [|[|[|[|i]]]].
      * split; [intros M; discriminate M|intros _].
        apply (get_digit _ 0 _ Hd). simpl. simpl in Hg. exact Hg.
      * split; [intros M; discriminate M|intros _].
        apply (get_digit _ 1 _ Hd). simpl. simpl in Hg. exact Hg.
      * split; [intros M; discriminate M|intros _].
        apply (get_digit _ 2 _ Hd). simpl. simpl in Hg. exact Hg.
      * simpl in Hg. injection Hg as <-.
        split; [reflexivity|intros M; exfalso; apply M; reflexivity].
      * assert (E : (S (S (S (S i))) mod 4 = i mod 4)%nat).
        { replace (S (S (S (S i)))) with (i + 1 * 4)%nat by lia.
          apply Nat.Div0.mod_add. }
        rewrite E.
        apply (IH (String d r)).
        -- simpl in Hlen |- *. lia.
        -- cbn [all_digits] in Hd |- *.
           apply andb_true_iff in Hd as [_ Hd]. apply andb_true_iff in Hd as [_ Hd].
           apply andb_true_iff in Hd as [_ Hd]. exact Hd.
        -- exact Hg.
Qed.

Lemma all_digits_rev_onto (s acc : string) :
  all_digits (string_rev_onto s acc) = all_digits s && all_digits acc.
Proof.
  revert acc. induction s as [|c s IH]; intros acc; [reflexivity|].
  cbn [string_rev_onto all_digits]. rewrite IH. cbn [all_digits].
  destruct (is_digit c), (all_digits s); reflexivity.
Qed.

Lemma uint_digits_digits (d : Decimal.uint) :
  all_digits (NilEmpty.string_of_uint d) = true.
Proof. induction d; simpl; try reflexivity; exact IHd. Qed.

Lemma nat_digits_digits (n : Z) : all_digits (nat_digits n) = true.
Proof.
  unfold nat_digits, NilZero.string_of_uint.
  destruct (N.to_uint (Z.to_N n)); try reflexivity;
    apply (uint_digits_digits (_ _)).
Qed.

Section FetchFacts.

Variable float_of_str : string -> option float.

Lemma make_rpc_call_contract (s : session) (method : string)
    (params : option (list pyval)) :
  make_rpc_call s method params
  = Ok (rpc_contract (post_rpc s method (params_or_empty params))).
Proof.
  unfold make_rpc_call, rpc_contract, params_or_empty.
  destruct params as [p|];
    (destruct (post_rpc s method _) as [r|e]; simpl; [|reflexivity];
     destruct (status r =? 200); simpl; [|reflexivity];
     destruct (json r) as [data|e]; simpl; [|reflexivity];
     destruct data; reflexivity).
Qed.

(** C6.  [make_rpc_call] is total: whatever the method, the parameters and
    the answer of the transport, it returns a value and never raises.  The
    value is the [result] field of the envelope when the status is 200 and
    the body decodes to an object that has the field; it is [None] on any
    other status, on a transport error, and on a malformed envelope (a
    body that does not decode, that is not an object, or that has no
    [result] field). *)
Theorem make_rpc_call_total (s : session) (method : string)
    (params : option (list pyval)) :
  let o := post_rpc s method (params_or_empty params) in
  make_rpc_call s method params = Ok (rpc_contract o)
  /\ (forall r d v,
        o = Ok r -> status r = 200 -> json r = Ok (PDict d) ->
        dict_get d "result" = Some v ->
        make_rpc_call s method params = Ok v)
  /\ (forall r,
        o = Ok r -> status r <> 200 ->
        make_rpc_call s method params = Ok PNone)
  /\ (forall e, o = Raise e -> make_rpc_call s method params = Ok PNone)
  /\ (forall r e,
        o = Ok r -> json r = Raise e ->
        make_rpc_call s method params = Ok PNone)
  /\ (forall r v,
        o = Ok r -> json r = Ok v -> (forall d, v <> PDict d) ->
        make_rpc_call s method params = Ok PNone)
  /\ (forall r d,
        o = Ok r -> json r = Ok (PDict d) -> dict_get d "result" = None ->
        make_rpc_call s method params = Ok PNone).
Proof.
  intros o. rewrite make_rpc_call_contract. fold o.
  split; [reflexivity|]. unfold rpc_contract.
  split; [|split; [|split; [|split; [|split]]]].
  - intros r d v -> Hs Hj Hd. rewrite Hs, Hj, Hd. reflexivity.
  - intros r -> Hs. apply Z.eqb_neq in Hs. rewrite Hs. reflexivity.
  - intros e ->. reflexivity.
  - intros r e -> Hj. rewrite Hj. destruct (status r =? 200); reflexivity.
  - intros r v -> Hj Hv. rewrite Hj.
    destruct (status r =? 200); [|reflexivity].
    destruct v; try reflexivity. destruct (Hv d eq_refl).
  - intros r d -> Hj Hd. rewrite Hj, Hd.
    destruct (status r =? 200); reflexivity.
Qed.

Lemma fetch_supply_value (s : session) :
  fetch_supply float_of_str s = Ok (supply_value float_of_str s).
Proof.
  unfold fetch_supply, supply_value.
  destruct (supply_block float_of_str s); reflexivity.
Qed.

Lemma fetch_market_value (s : session) :
  fetch_market s = Ok (market_value s).
Proof.
  unfold fetch_market, market_value.
  destruct (market_block s); reflexivity.
Qed.

(** The fetch phase raises only where the hashrate is formatted; every
    other field is decided by its own source. *)
Lemma fetch_stats_eq (s : session) :
  fetch_stats float_of_str s
  = res_bind (format_hashrate (hashrate_result s))
      (fun hashrate =>
         Ok {| st_difficulty := or_na (difficulty_result s);
               st_hashrate := hashrate;
               st_block_count := or_na (block_count_result s);
               st_supply := supply_value float_of_str s;
               st_market := market_value s |}).
Proof.
  unfold fetch_stats.
  rewrite !make_rpc_call_contract. simpl.
  fold (hashrate_result s) (difficulty_result s) (block_count_result s).
  destruct (format_hashrate (hashrate_result s)); simpl; [|reflexivity].
  rewrite fetch_supply_value, fetch_market_value. reflexivity.
Qed.

Lemma format_hashrate_not_number (v : pyval) :
  is_number v = false -> format_hashrate v = Ok (PStr NA).
Proof. unfold format_hashrate. intros ->. reflexivity. Qed.

Lemma or_na_cases (v : pyval) :
  or_na v = if truthy v then v else PStr NA.
Proof. reflexivity. Qed.

(** C1, as the code has it.  The hashrate shows the sentinel whenever the
    RPC result is missing or not a number.  The difficulty and the block
    count show the result itself when it is true as a truth value, a
    number or not, and the sentinel when it is missing or otherwise
    false as a truth value. *)
Theorem rpc_fields_fall_back (s : session) :
  (is_number (hashrate_result s) = false ->
   exists st, fetch_stats float_of_str s = Ok st /\ st_hashrate st = PStr NA)
  /\ (forall st, fetch_stats float_of_str s = Ok st ->
        st_difficulty st
        = (if truthy (difficulty_result s) then difficulty_result s else PStr NA)
        /\ st_block_count st
           = (if truthy (block_count_result s) then block_count_result s else PStr NA)).
Proof.
  rewrite fetch_stats_eq. split.
  - intros H. rewrite (format_hashrate_not_number _ H). simpl.
    eexists. split; reflexivity.
  - intros st H.
    destruct (format_hashrate (hashrate_result s)); simpl in H; [|discriminate].
    injection H as <-. simpl. split; apply or_na_cases.
Qed.

(** C7.  Two runs that differ only in the answer of the supply endpoint
    produce the same price, volume and market-cap texts (or raise the same
    exception before either is shown). *)
Theorem supply_does_not_touch_market (s : session) (o1 o2 : http_outcome) :
  market_of (fetch_stats float_of_str (with_supply s o1))
  = market_of (fetch_stats float_of_str (with_supply s o2)).
Proof.
  unfold market_of. rewrite !fetch_stats_eq.
  unfold hashrate_result, market_value, market_block. simpl.
  destruct (format_hashrate _); reflexivity.
Qed.

Lemma supply_block_number (s : session) (r : response)
    (d : list (string * pyval)) (v : pyval) :
  get_supply s = Ok r -> json r = Ok (PDict d) ->
  dict_get d "coinsupply" = Some v -> is_number v = true ->
  supply_block float_of_str s
  = res_bind (as_float v)
      (fun f => Ok (PStr (format_float_f true 2 (fdiv f f1e9) ++ "B SOTER"))).
Proof.
  intros Hr Hj Hd Hn. unfold supply_block.
  rewrite Hr. simpl. rewrite Hj. simpl. rewrite Hd. simpl.
  destruct v; try discriminate; reflexivity.
Qed.

(** The digits printed for a finite float with two decimals: the
    hundredths nearest to its value, the integer part with thousands
    separators, a point and the two low digits. *)
Lemma two_decimals_text (neg : bool) (m : positive) (e : Z) :
  let n := scaled 2 m e in
  format_float_f true 2 (S754_finite neg m e)
  = (if neg then "-" else "") ++ group_thousands (nat_digits (n / 100))
    ++ "." ++ low_digits 2 n
  /\ remove_commas (group_thousands (nat_digits (n / 100))) = nat_digits (n / 100)
  /\ (0 <= e -> n = Zpos m * 100 * 2 ^ e)
  /\ (e < 0 -> 2 * Z.abs (Zpos m * 100 - n * 2 ^ (- e)) <= 2 ^ (- e)).
Proof.
  intros n. split; [reflexivity|]. split.
  - rewrite remove_commas_group_thousands. apply nat_digits_no_comma.
  - split; intros H.
    + apply (scaled_exact 2 m e H).
    + apply (scaled_nearest 2 m e H).
Qed.

(** C5, as the code has it.  For a numeric raw supply that converts to a
    float the text is that float divided by 1e9 in the presentation
    [,.2f], followed by [B SOTER].  When the quotient is finite this is
    the quotient rounded to the nearest hundredth, the integer part with
    thousands separators, a point and exactly two digits;
    2,500,000,000,000 gives [2,500.00B SOTER].  An infinite quotient gives
    [infB SOTER], without decimals.  Whenever the block raises, an integer
    too large for a float included, the text is the sentinel. *)
Theorem supply_text (s : session) :
  (forall r d v f,
      get_supply s = Ok r -> json r = Ok (PDict d) ->
      dict_get d "coinsupply" = Some v -> is_number v = true ->
      as_float v = Ok f ->
      fetch_supply float_of_str s
      = Ok (PStr (format_float_f true 2 (fdiv f f1e9) ++ "B SOTER"))
      /\ (forall neg m e,
            fdiv f f1e9 = S754_finite neg m e ->
            let n := scaled 2 m e in
            fetch_supply float_of_str s
            = Ok (PStr ((if neg then "-" else "")
                        ++ group_thousands (nat_digits (n / 100))
                        ++ "." ++ low_digits 2 n ++ "B SOTER"))
            /\ remove_commas (group_thousands (nat_digits (n / 100)))
               = nat_digits (n / 100)
            /\ (0 <= e -> n = Zpos m * 100 * 2 ^ e)
            /\ (e < 0 -> 2 * Z.abs (Zpos m * 100 - n * 2 ^ (- e)) <= 2 ^ (- e)))
      /\ (is_finite (fdiv f f1e9) = true ->
          exists head frac,
            fetch_supply float_of_str s
            = Ok (PStr (head ++ "." ++ frac ++ "B SOTER"))
            /\ String.length frac = 2%nat
            /\ all_digits frac = true))
  /\ (forall e, supply_block float_of_str s = Raise e ->
                fetch_supply float_of_str s = Ok (PStr NA))
  /\ (let text := fun v =>
        fetch_supply float_of_str
          (with_supply s (ok_json (PDict [("coinsupply", v)]))) in
      text (PInt 2500000000000) = Ok (PStr "2,500.00B SOTER")
      /\ text (PFloat float_25e11) = Ok (PStr "2,500.00B SOTER")
      /\ text (PInt (-2500000000000)) = Ok (PStr "-2,500.00B SOTER")
      /\ text (PInt 1234567890123456789) = Ok (PStr "1,234,567,890.12B SOTER")
      /\ text (PInt 7) = Ok (PStr "0.00B SOTER")
      /\ text (PInt 5000000) = Ok (PStr "0.01B SOTER")
      /\ text (PInt 15000000) = Ok (PStr "0.01B SOTER")
      /\ text (PInt 999999999999) = Ok (PStr "1,000.00B SOTER")
      /\ text (PFloat (S754_infinity false)) = Ok (PStr "infB SOTER")
      /\ text (PInt int_too_large) = Ok (PStr NA)).
Proof.
  split; [|split].
  - intros r d v f Hr Hj Hd Hn Hf.
    assert (Htext : fetch_supply float_of_str s
                    = Ok (PStr (format_float_f true 2 (fdiv f f1e9) ++ "B SOTER"))).
    { unfold fetch_supply.
      rewrite (supply_block_number s r d v Hr Hj Hd Hn), Hf. reflexivity. }
    split; [exact Htext|]. split.
    + intros neg m e Hq n. rewrite Htext, Hq.
      destruct (two_decimals_text neg m e) as (E & Hc & Hpos & Hneg).
      fold n in E, Hc, Hpos, Hneg.
      split; [|auto]. rewrite E, !append_assoc. reflexivity.
    + intros Hfin.
      destruct (format_float_f_shape true 1 _ Hfin) as (head & frac & E & Hl & Hd2).
      exists head, frac. rewrite Htext, E, !append_assoc. auto.
  - intros e H. unfold fetch_supply. rewrite H. reflexivity.
  - cbv zeta. repeat split; vm_compute; reflexivity.
Qed.

End FetchFacts.

(** ** The price text *)

Lemma as_float_number (v : pyval) (f : float) :
  as_float v = Ok f -> is_number v = true.
Proof. destruct v; simpl; intros H; try discriminate; reflexivity. Qed.





(** * Properties of names *)

Lemma prefix_app_self (a b : string) : prefix a (a ++ b) = true.
Proof.
  induction a as [|x a IH]; simpl.
  - destruct b; reflexivity.
  - destruct (Ascii.ascii_dec x x) as [_|n]; [exact IH|now destruct n].
Qed.

Lemma prefix_split (a s : string) :
  prefix a s = true -> exists r, s = a ++ r.
Proof.
  revert s. induction a as [|x a IH]; intros s H.
  - exists s. reflexivity.
  - destruct s as [|y s]; simpl in H; [discriminate|].
    destruct (Ascii.ascii_dec x y) as [->|_]; [|discriminate].
    destruct (IH s H) as [r ->]. exists r. reflexivity.
Qed.

Lemma remove_spaces_app (a b : string) :
  remove_spaces (a ++ b) = remove_spaces a ++ remove_spaces b.
Proof.
  induction a as [|x a IH]; simpl; [reflexivity|].
  destruct (Ascii.eqb x " "); simpl; now rewrite IH.
Qed.

Lemma is_space2_ascii (c d : ascii) : is_ascii c = true -> is_space2 c d = false.
Proof.
  unfold is_ascii, is_space2. intros H. apply Nat.ltb_lt in H.
  destruct (Nat.eqb_spec (nat_of_ascii c) 194); [lia|reflexivity].
Qed.

Lemma is_space3_ascii (c d e : ascii) :
  is_ascii c = true -> is_space3 c d e = false.
Proof.
  unfold is_ascii, is_space3. intros H. apply Nat.ltb_lt in H.
  destruct (Nat.eqb_spec (nat_of_ascii c) 225); [lia|].
  destruct (Nat.eqb_spec (nat_of_ascii c) 226); [lia|].
  destruct (Nat.eqb_spec (nat_of_ascii c) 227); [lia|reflexivity].
Qed.

(** On an ASCII character [lstrip] decides by that character alone. *)
Lemma lstrip_ascii_cons (c : ascii) (r : string) :
  is_ascii c = true ->
  lstrip (String c r) = if is_space c then lstrip r else String c r.
Proof.
  intros H. cbn [lstrip]. destruct (is_space c); [reflexivity|].
  destruct r as [|d r2]; [reflexivity|].
  rewrite (is_space2_ascii c d H).
  destruct r2 as [|e r3]; [reflexivity|].
  rewrite (is_space3_ascii c d e H). reflexivity.
Qed.

Lemma all_space_visible (c : ascii) (r : string) :
  is_ascii c = true -> is_space c = false -> all_space (String c r) = false.
Proof.
  intros Ha Hs. unfold all_space. rewrite (lstrip_ascii_cons c r Ha), Hs.
  reflexivity.
Qed.

Lemma rstrip_cons (c : ascii) (r : string) :
  rstrip (String c r) = if all_space (String c r) then "" else String c (rstrip r).
Proof. reflexivity. Qed.

Lemma rstrip_visible_app (q t : string) :
  all_visible q = true -> rstrip (q ++ t) = q ++ rstrip t.
Proof.
  induction q as [|c q IH]; intros H; [reflexivity|].
  cbn [all_visible] in H.
  apply andb_true_iff in H as [H Hq]. apply andb_true_iff in H as [Ha Hs].
  apply negb_true_iff in Hs.
  cbn [append]. rewrite rstrip_cons, (all_space_visible c _ Ha Hs), (IH Hq).
  reflexivity.
Qed.

(** A text of visible ASCII characters survives [strip] as the head of
    anything appended to it. *)
Lemma strip_app_clean (q t : string) :
  all_visible q = true -> q <> "" -> strip (q ++ t) = q ++ rstrip t.
Proof.
  intros Hv Hq. unfold strip.
  assert (lstrip (q ++ t) = q ++ t) as ->.
  { destruct q as [|c q]; [congruence|].
    cbn [all_visible] in Hv.
    apply andb_true_iff in Hv as [H _]. apply andb_true_iff in H as [Ha Hs].
    apply negb_true_iff in Hs.
    cbn [append]. rewrite (lstrip_ascii_cons c _ Ha), Hs. reflexivity. }
  apply rstrip_visible_app, Hv.
Qed.

Section WithUnicode.

Context {u : unicode}.

(** [str.lower] leaves the ASCII beginning of a text to itself: what it
    makes of it does not depend on what comes before or after. *)
Lemma lower_from_ascii_app (a b before : string) :
  ascii_text a = true ->
  lower_from before (a ++ b)
  = lower_ascii a ++ lower_from (string_rev_onto a before) b.
Proof.
  revert before. induction a as [|c a IH]; intros before H; [reflexivity|].
  cbn [ascii_text] in H. apply andb_true_iff in H as [Hc Ha].
  cbn [append lower_from lower_ascii string_rev_onto].
  rewrite Hc, (IH _ Ha). reflexivity.
Qed.

Lemma lower_ascii_text (s : string) :
  ascii_text s = true -> lower s = lower_ascii s.
Proof.
  intros H. unfold lower.
  rewrite <- (append_nil_r s) at 1.
  rewrite (lower_from_ascii_app s "" "" H). apply append_nil_r.
Qed.

Lemma key_prefix_clean (key : channel_key) :
  let q := remove_spaces (lower_ascii (CHANNEL_KEYS key)) in
  ascii_text (CHANNEL_KEYS key) = true
  /\ all_visible q = true /\ q <> "" /\ norm (CHANNEL_KEYS key) = q.
Proof. destruct key; vm_compute; repeat split; discriminate. Qed.

(** The normalised name of a labelled channel starts with the normalised
    prefix of its key, whatever follows the prefix. *)
Lemma norm_label (key : channel_key) (text : string) :
  exists rest,
    norm (CHANNEL_KEYS key ++ text) = norm (CHANNEL_KEYS key) ++ rest.
Proof.
  destruct (key_prefix_clean key) as (Ha & Hv & Hq & Hn).
  unfold norm at 1, lower.
  rewrite (lower_from_ascii_app _ _ _ Ha), remove_spaces_app.
  rewrite (strip_app_clean _ _ Hv Hq), Hn. eexists. reflexivity.
Qed.

(** No normalised prefix is the beginning of a name that starts with the
    normalised prefix of another key. *)
Lemma key_prefixes_apart (k k' : channel_key) (rest : string) :
  channel_key_eqb k' k = false ->
  prefix (norm (CHANNEL_KEYS k')) (norm (CHANNEL_KEYS k) ++ rest) = false.
Proof. destruct k, k'; intros H; try discriminate H; reflexivity. Qed.

(** * Properties of the reconciliation of one key *)

Lemma find_index_shift {A} (p : A -> bool) (l : list A) (i : nat) :
  find_index p l (S i) = option_map S (find_index p l i).
Proof.
  revert i. induction l as [|x l IH]; intros i; simpl; [reflexivity|].
  destruct (p x); [reflexivity|]. apply IH.
Qed.

Section OneKey.

Variable category : nat.
Variable key : channel_key.
Variable text : string.

Variable label : string.
Hypothesis label_eq : label = CHANNEL_KEYS key ++ text.

Lemma reconcile_nil :
  reconcile_channels category key label [] = [new_voice_channel category label].
Proof. reflexivity. Qed.

Lemma reconcile_cons (x : channel) (r : list channel) :
  reconcile_channels category key label (x :: r)
  = if matches category key x
    then rename label x :: r
    else x :: reconcile_channels category key label r.
Proof.
  unfold reconcile_channels. simpl.
  destruct (matches category key x); [reflexivity|].
  rewrite find_index_shift.
  destruct (find_index (matches category key) r 0); reflexivity.
Qed.

Lemma label_matches : prefix (norm (CHANNEL_KEYS key)) (norm label) = true.
Proof.
  rewrite label_eq. destruct (norm_label key text) as [rest ->].
  apply prefix_app_self.
Qed.

Lemma matches_rename (ch : channel) :
  matches category key (rename label ch) = is_voice_in category ch.
Proof.
  unfold matches. simpl. rewrite label_matches.
  unfold is_voice_in. simpl. apply andb_true_r.
Qed.

Lemma matches_new : matches category key (new_voice_channel category label) = true.
Proof.
  unfold matches. simpl. rewrite label_matches.
  unfold is_voice_in. simpl. now rewrite Nat.eqb_refl.
Qed.

Lemma matches_voice (k : channel_key) (ch : channel) :
  matches category k ch = true -> is_voice_in category ch = true.
Proof. unfold matches. intros H. apply andb_true_iff in H. apply H. Qed.

Lemma other_key_label (k' : channel_key) (ch : channel) :
  channel_key_eqb k' key = false ->
  ch_name ch = label -> matches category k' ch = false.
Proof.
  intros Hk Hn. unfold matches. rewrite Hn, label_eq.
  destruct (norm_label key text) as [rest ->].
  rewrite (key_prefixes_apart key k' rest Hk). apply andb_false_r.
Qed.

Lemma other_key_resource (k' : channel_key) (ch : channel) :
  channel_key_eqb k' key = false ->
  matches category key ch = true -> matches category k' ch = false.
Proof.
  intros Hk H. unfold matches in *. apply andb_true_iff in H as [_ H].
  destruct (prefix_split _ _ H) as [rest ->].
  rewrite (key_prefixes_apart key k' rest Hk). apply andb_false_r.
Qed.

(** A second reconciliation of the same key with the same label changes
    nothing. *)
Lemma reconcile_twice (chs : list channel) :
  reconcile_channels category key label
    (reconcile_channels category key label chs)
  = reconcile_channels category key label chs.
Proof.
  induction chs as [|x r IH].
  - rewrite reconcile_nil, reconcile_cons, matches_new. reflexivity.
  - rewrite reconcile_cons. destruct (matches category key x) eqn:Hx.
    + rewrite reconcile_cons, matches_rename, (matches_voice _ _ Hx). reflexivity.
    + rewrite reconcile_cons, Hx, IH. reflexivity.
Qed.

(** The key has one resource more only when it had none. *)
Lemma reconcile_count (chs : list channel) :
  count_matching category key (reconcile_channels category key label chs)
  = Nat.max 1 (count_matching category key chs).
Proof.
  unfold count_matching. induction chs as [|x r IH].
  - rewrite reconcile_nil. simpl. rewrite matches_new. reflexivity.
  - rewrite reconcile_cons. destruct (matches category key x) eqn:Hx.
    + simpl. rewrite matches_rename, (matches_voice _ _ Hx), Hx. simpl.
      destruct (List.length _); reflexivity.
    + simpl. rewrite Hx. exact IH.
Qed.

(** The resources of every other key are left as they were. *)
Lemma reconcile_count_other (k' : channel_key) (chs : list channel) :
  channel_key_eqb k' key = false ->
  count_matching category k' (reconcile_channels category key label chs)
  = count_matching category k' chs.
Proof.
  intros Hk. unfold count_matching. induction chs as [|x r IH].
  - rewrite reconcile_nil. simpl.
    rewrite (other_key_label k' _ Hk); reflexivity.
  - rewrite reconcile_cons. destruct (matches category key x) eqn:Hx.
    + simpl. rewrite (other_key_label k' (rename label x) Hk eq_refl).
      rewrite (other_key_resource k' x Hk Hx). reflexivity.
    + simpl. destruct (matches category k' x); simpl; now rewrite IH.
Qed.

(** The resource the next lookup of the key finds carries the label. *)
Lemma reconcile_found (chs : list channel) :
  exists ch,
    find (matches category key) (reconcile_channels category key label chs) = Some ch
    /\ ch_name ch = label.
Proof.
  induction chs as [|x r IH].
  - rewrite reconcile_nil. simpl. rewrite matches_new. eexists. split; reflexivity.
  - rewrite reconcile_cons. destruct (matches category key x) eqn:Hx.
    + simpl. rewrite matches_rename, (matches_voice _ _ Hx).
      eexists. split; reflexivity.
    + simpl. rewrite Hx. exact IH.
Qed.

End OneKey.

(** * Properties of the platform operations *)

Lemma bind_ok {A B} (m : M A) (k : A -> M B) (w : world) (a : A) :
  fst (m w) = Ok a -> bind m k w = k a (snd (m w)).
Proof. unfold bind. destruct (m w) as [[x|e] w']; simpl; intros H; [|discriminate]. now injection H as ->. Qed.

Lemma bind_raise {A B} (m : M A) (k : A -> M B) (w : world) (e : exn) :
  fst (m w) = Raise e -> bind m k w = (Raise e, snd (m w)).
Proof. unfold bind. destruct (m w) as [[x|e'] w']; simpl; intros H; [discriminate|]. now injection H as ->. Qed.

(** A write call in closed form. *)
Lemma write_call_run {A} (e : event) (act : guild -> A * guild) (w : world) :
  write_call e act w
  = let f := pop_fault (w_faults w) in
    (if fst f then Raise HTTPException else Ok (fst (act (w_guild w))),
     {| w_guild := if fst f then w_guild w else snd (act (w_guild w));
        w_faults := snd f;
        w_log := (w_log w ++ [e])%list |}).
Proof.
  unfold write_call, bind, record, next_fault, get_guild, set_guild, lift, ret.
  simpl. destruct (pop_fault (w_faults w)) as [[|] r]; simpl; [reflexivity|].
  destruct (act (w_guild w)); reflexivity.
Qed.

Lemma find_enumerate (p q : channel -> bool) (chs : list channel) (i : nat) :
  option_map fst
    (find (fun rc : nat * channel => p (snd rc))
       (filter (fun rc : nat * channel => q (snd rc)) (enumerate chs i)))
  = find_index (fun ch => q ch && p ch) chs i.
Proof.
  revert i. induction chs as [|x r IH]; intros i; simpl; [reflexivity|].
  destruct (q x); simpl; [|apply IH].
  destruct (p x); simpl; [reflexivity|apply IH].
Qed.

Lemma update_nth_append {A} (f : A -> A) (l : list A) (x : A) :
  update_nth (List.length l) f (l ++ [x])%list = (l ++ [f x])%list.
Proof. induction l as [|y l IH]; simpl; [reflexivity|]. now rewrite IH. Qed.

Section ChannelRuns.

Variable float_repr : float -> string.
Variable container_str : pyval -> string.

(** [get_or_create_channel] in closed form. *)
Lemma get_or_create_channel_run (category : nat) (key : channel_key) (w : world) :
  get_or_create_channel category key w
  = let chs := channels (w_guild w) in
    let seen := (w_log w ++ [EvVoiceChannels category])%list in
    match find_index (matches category key) chs 0%nat with
    | Some i => (Ok i, {| w_guild := w_guild w; w_faults := w_faults w; w_log := seen |})
    | None =>
        let f := pop_fault (w_faults w) in
        (if fst f then Raise HTTPException else Ok (List.length chs),
         {| w_guild := if fst f then w_guild w
                       else with_channels (w_guild w)
                              (chs ++ [new_voice_channel category (CHANNEL_KEYS key)])%list;
            w_faults := snd f;
            w_log := (seen ++ [EvCreateVoiceChannel category (CHANNEL_KEYS key)])%list |})
    end.
Proof.
  unfold get_or_create_channel, voice_channels, bind, record, get_guild, ret.
  simpl.
  assert (find_index (matches category key) (channels (w_guild w)) 0
          = option_map fst
              (find (fun rc : nat * channel =>
                       prefix (norm (CHANNEL_KEYS key)) (norm (ch_name (snd rc))))
                 (filter (fun rc : nat * channel => is_voice_in category (snd rc))
                    (enumerate (channels (w_guild w)) 0)))) as ->.
  { symmetry.
    exact (find_enumerate
             (fun ch => prefix (norm (CHANNEL_KEYS key)) (norm (ch_name ch)))
             (is_voice_in category) (channels (w_guild w)) 0%nat). }
  destruct (find _ _) as [rc|]; simpl; [reflexivity|].
  unfold create_voice_channel. rewrite write_call_run. reflexivity.
Qed.

(** [update_channel] in closed form: it always returns; the channel found
    is renamed unless the call fails; a channel that had to be created is
    renamed unless either call fails. *)
Lemma update_channel_run (category : nat) (key : channel_key) (value : pyval)
    (w : world) :
  update_channel float_repr container_str category key value w
  = let chs := channels (w_guild w) in
    let label := label_of float_repr container_str key value in
    let seen := (w_log w ++ [EvVoiceChannels category])%list in
    let f1 := pop_fault (w_faults w) in
    match find_index (matches category key) chs 0%nat with
    | Some i =>
        (Ok tt,
         {| w_guild := if fst f1 then w_guild w
                       else with_channels (w_guild w) (update_nth i (rename label) chs);
            w_faults := snd f1;
            w_log := (seen ++ [EvEdit i label])%list |})
    | None =>
        if fst f1
        then (Ok tt,
              {| w_guild := w_guild w;
                 w_faults := snd f1;
                 w_log := (seen ++ [EvCreateVoiceChannel category (CHANNEL_KEYS key)])%list |})
        else
          let f2 := pop_fault (snd f1) in
          (Ok tt,
           {| w_guild := with_channels (w_guild w)
                           (chs ++ [new_voice_channel category
                                      (if fst f2 then CHANNEL_KEYS key else label)])%list;
              w_faults := snd f2;
              w_log := ((seen ++ [EvCreateVoiceChannel category (CHANNEL_KEYS key)])
                          ++ [EvEdit (List.length chs) label])%list |})
    end.
Proof.
  unfold update_channel, m_try, bind.
  rewrite get_or_create_channel_run. simpl.
  destruct (find_index (matches category key) (channels (w_guild w)) 0) as [i|];
    simpl.
  - unfold channel_edit. rewrite write_call_run. simpl.
    destruct (pop_fault (w_faults w)) as [[|] r]; reflexivity.
  - destruct (pop_fault (w_faults w)) as [[|] r]; simpl; [reflexivity|].
    unfold channel_edit. rewrite write_call_run. simpl.
    destruct (pop_fault r) as [[|] r']; simpl; [reflexivity|].
    unfold modify_channel, with_channels. simpl.
    rewrite update_nth_append. reflexivity.
Qed.

End ChannelRuns.

Lemma channel_key_eqb_eq (a b : channel_key) :
  channel_key_eqb a b = true -> a = b.
Proof. destruct a, b; simpl; intros H; try discriminate; reflexivity. Qed.

Section Reconcile.

Variable float_repr : float -> string.
Variable container_str : pyval -> string.

(** With no failing call, [update_channel] reconciles the channels of the
    guild and changes nothing else in it. *)
Lemma update_channel_no_faults (category : nat) (key : channel_key)
    (value : pyval) (g : guild) (log : list event) :
  exists log',
    update_channel float_repr container_str category key value
      {| w_guild := g; w_faults := []; w_log := log |}
    = (Ok tt,
       {| w_guild := with_channels g
                       (reconcile_channels category key
                          (label_of float_repr container_str key value)
                          (channels g));
          w_faults := [];
          w_log := log' |}).
Proof.
  rewrite update_channel_run. unfold reconcile_channels. simpl.
  destruct (find_index (matches category key) (channels g) 0);
    eexists; reflexivity.
Qed.

(** C3, as the code has it.  Reconciling a key twice in succession with
    the same value, with no failing call: the second run leaves the guild
    as the first left it and adds no channel; the key has as many
    resources as before (duplicates that exist are kept), or one if it
    had none, and exactly one if it had at most one; the resources
    of the other keys are not touched; and the resource the key resolves
    to is named with the label prefix, a space and the value. *)
Theorem reconcile_idempotent (category : nat) (key : channel_key)
    (value : pyval) (g : guild) (log : list event) :
  let w0 := {| w_guild := g; w_faults := []; w_log := log |} in
  let w1 := snd (update_channel float_repr container_str category key value w0) in
  let w2 := snd (update_channel float_repr container_str category key value w1) in
  w_guild w2 = w_guild w1
  /\ List.length (channels (w_guild w2)) = List.length (channels (w_guild w1))
  /\ (forall k,
        count_matching category k (channels (w_guild w2))
        = if channel_key_eqb k key
          then Nat.max 1 (count_matching category k (channels g))
          else count_matching category k (channels g))
  /\ ((count_matching category key (channels g) <= 1)%nat ->
      count_matching category key (channels (w_guild w2)) = 1%nat)
  /\ exists ch,
       find (matches category key) (channels (w_guild w2)) = Some ch
       /\ ch_name ch
          = CHANNEL_KEYS key ++ " " ++ py_str float_repr container_str value.
Proof.
  intros w0 w1 w2.
  destruct (update_channel_no_faults category key value g log) as [log1 H1].
  assert (E1 : w1 = snd (Ok tt,
                 {| w_guild := with_channels g
                      (reconcile_channels category key
                         (label_of float_repr container_str key value) (channels g));
                    w_faults := []; w_log := log1 |})).
  { unfold w1, w0. rewrite H1. reflexivity. }
  simpl in E1.
  destruct (update_channel_no_faults category key value (w_guild w1) log1)
    as [log2 H2].
  assert (E2 : w_guild w2 = w_guild w1).
  { unfold w2. rewrite E1 at 1. simpl. rewrite E1 in H2. simpl in H2.
    rewrite H2. simpl. rewrite E1. simpl. unfold with_channels. simpl.
    unfold label_of.
    rewrite (reconcile_twice category key (" " ++ py_str float_repr container_str value) _ eq_refl). reflexivity. }
  rewrite E2, E1. simpl. unfold label_of.
  assert (Hcount : forall k,
             count_matching category k
               (reconcile_channels category key
                  (CHANNEL_KEYS key ++ " " ++ py_str float_repr container_str value)
                  (channels g))
             = if channel_key_eqb k key
               then Nat.max 1 (count_matching category k (channels g))
               else count_matching category k (channels g)).
  { intros k. destruct (channel_key_eqb k key) eqn:Hk.
    - apply channel_key_eqb_eq in Hk. subst k.
      apply (reconcile_count category key (" " ++ py_str float_repr container_str value) _ eq_refl).
    - apply (reconcile_count_other category key (" " ++ py_str float_repr container_str value) _ eq_refl). exact Hk. }
  repeat split.
  - exact Hcount.
  - intros Hle. rewrite Hcount.
    replace (channel_key_eqb key key) with true by (destruct key; reflexivity).
    lia.
  - apply (reconcile_found category key (" " ++ py_str float_repr container_str value) _ eq_refl).
Qed.

End Reconcile.

(** * Invariants of the work on channels *)

Section Keeps.

Variable R : world -> world -> Prop.
Hypothesis R_refl : forall w, R w w.
Hypothesis R_trans : forall a b c, R a b -> R b c -> R a c.

Lemma keeps_ret {A} (a : A) : keeps R (ret a).
Proof. intros w. apply R_refl. Qed.

Lemma keeps_lift {A} (r : res A) : keeps R (lift r).
Proof. intros w. apply R_refl. Qed.

Lemma keeps_bind {A B} (m : M A) (k : A -> M B) :
  keeps R m -> (forall a, keeps R (k a)) -> keeps R (bind m k).
Proof.
  intros Hm Hk w. unfold bind. specialize (Hm w).
  destruct (m w) as [[a|e] w']; simpl in *; [|exact Hm].
  apply (R_trans _ _ _ Hm). apply Hk.
Qed.

Lemma keeps_try {A} (m : M A) (h : exn -> M A) :
  keeps R m -> (forall e, keeps R (h e)) -> keeps R (m_try m h).
Proof.
  intros Hm Hh w. unfold m_try. specialize (Hm w).
  destruct (m w) as [[a|e] w']; simpl in *; [exact Hm|].
  apply (R_trans _ _ _ Hm). apply Hh.
Qed.

Lemma keeps_for_each {A} (l : list A) (body : A -> M unit) :
  (forall x, keeps R (body x)) -> keeps R (for_each l body).
Proof.
  intros Hb. induction l as [|x l IH]; simpl.
  - apply keeps_ret.
  - apply keeps_bind; [apply Hb|intros _; exact IH].
Qed.

End Keeps.

Lemma returns_ret {A} (a : A) : returns (ret a).
Proof. intros w. exists a. reflexivity. Qed.

Lemma returns_bind {A B} (m : M A) (k : A -> M B) :
  returns m -> (forall a, returns (k a)) -> returns (bind m k).
Proof.
  intros Hm Hk w. destruct (Hm w) as [a Ha].
  rewrite (bind_ok m k w a Ha). apply Hk.
Qed.

Lemma returns_try {A} (m : M A) (h : exn -> M A) :
  (forall e, returns (h e)) -> returns (m_try m h).
Proof.
  intros Hh w. unfold m_try. destruct (m w) as [[a|e] w'].
  - exists a. reflexivity.
  - apply Hh.
Qed.

Lemma returns_for_each {A} (l : list A) (body : A -> M unit) :
  (forall x, returns (body x)) -> returns (for_each l body).
Proof.
  intros Hb. induction l as [|x l IH]; simpl.
  - apply returns_ret.
  - apply returns_bind; [apply Hb|intros _; exact IH].
Qed.

Lemma returns_unit (m : M unit) (w : world) : returns m -> fst (m w) = Ok tt.
Proof. intros H. destruct (H w) as [[] Ha]. exact Ha. Qed.

(** ** Lists and positions *)

Lemma nth_error_update_nth {A} (f : A -> A) (l : list A) (i j : nat) :
  nth_error (update_nth i f l) j
  = if (j =? i)%nat then option_map f (nth_error l j) else nth_error l j.
Proof.
  revert i j. induction l as [|x l IH]; intros i j; simpl.
  - destruct j, i; simpl; try reflexivity; destruct (j =? i)%nat; reflexivity.
  - destruct i, j; simpl; try reflexivity. apply IH.
Qed.

Lemma length_update_nth {A} (f : A -> A) (l : list A) (i : nat) :
  List.length (update_nth i f l) = List.length l.
Proof.
  revert i. induction l as [|x l IH]; intros [|i]; simpl; try reflexivity.
  now rewrite IH.
Qed.

Lemma find_index_found {A} (p : A -> bool) (l : list A) (k i : nat) :
  find_index p l k = Some i ->
  (k <= i)%nat /\ exists x, nth_error l (i - k) = Some x /\ p x = true.
Proof.
  revert k. induction l as [|x l IH]; intros k H; simpl in H; [discriminate|].
  destruct (p x) eqn:Hp.
  - injection H as <-. split; [lia|]. rewrite Nat.sub_diag. exists x. auto.
  - destruct (IH _ H) as [Hle (y & Hy & Hpy)]. split; [lia|].
    exists y. split; [|exact Hpy].
    replace (i - k)%nat with (S (i - S k)) by lia. exact Hy.
Qed.

Lemma is_voice_in_same (category : nat) (a b : channel) :
  ch_kind a = ch_kind b -> ch_category a = ch_category b ->
  is_voice_in category a = is_voice_in category b.
Proof. unfold is_voice_in. intros -> ->. reflexivity. Qed.

Lemma pop_fault_nil (faults : list bool) :
  faults = [] -> snd (pop_fault faults) = [] /\ fst (pop_fault faults) = false.
Proof. intros ->. split; reflexivity. Qed.

(** ** The relation [steady] *)

Lemma steady_refl (category : nat) (w : world) : steady category w w.
Proof.
  split; try reflexivity.
  - intros i ch H. exists ch. auto.
  - exists []. rewrite app_nil_r. split; [reflexivity|]. split; [constructor|].
    intros i [].
  - auto.
Qed.

Lemma steady_trans (category : nat) (a b c : world) :
  steady category a b -> steady category b c -> steady category a c.
Proof.
  intros [C1 M1 H1 (e1 & L1 & F1 & P1) Q1] [C2 M2 H2 (e2 & L2 & F2 & P2) Q2].
  split.
  - congruence.
  - congruence.
  - intros i ch Hi.
    destruct (H1 i ch Hi) as (ch1 & Hi1 & K1 & G1 & U1).
    destruct (H2 i ch1 Hi1) as (ch2 & Hi2 & K2 & G2 & U2).
    exists ch2. repeat split; try congruence.
    intros Hv. rewrite (U2 ltac:(rewrite (U1 Hv); exact Hv)). apply U1, Hv.
  - exists (e1 ++ e2)%list. split; [rewrite L2, L1, app_assoc; reflexivity|].
    split; [apply Forall_app; auto|].
    intros i Hin. apply in_app_or in Hin as [Hin|Hin]; [|apply P2, Hin].
    destruct (P1 i Hin) as (ch1 & Hi1 & Hv1).
    destruct (H2 i ch1 Hi1) as (ch2 & Hi2 & K2 & G2 & _).
    exists ch2. split; [exact Hi2|].
    rewrite (is_voice_in_same category ch2 ch1 K2 G2). exact Hv1.
  - auto.
Qed.

(** A world that differs by a rewrite of one voice channel of the
    category. *)
Lemma steady_update (category : nat) (w : world) (i : nat)
    (f : channel -> channel) (evs : list event) (faults' : list bool)
    (ch0 : channel) :
  nth_error (channels (w_guild w)) i = Some ch0 ->
  is_voice_in category ch0 = true ->
  (forall ch, ch_kind (f ch) = ch_kind ch /\ ch_category (f ch) = ch_category ch) ->
  Forall (fun e => channel_event e = true) evs ->
  (forall j, In (EvSetPermissions j) evs -> j = i) ->
  (w_faults w = [] -> faults' = []) ->
  steady category w
    {| w_guild := with_channels (w_guild w) (update_nth i f (channels (w_guild w)));
       w_faults := faults';
       w_log := (w_log w ++ evs)%list |}.
Proof.
  intros Hi Hv Hf Hevs Htarget Hfaults. split; simpl; try reflexivity.
  - intros j ch Hj. rewrite nth_error_update_nth.
    destruct (j =? i)%nat eqn:E.
    + apply Nat.eqb_eq in E. subst j. rewrite Hj. simpl.
      exists (f ch). destruct (Hf ch) as [K G]. repeat split; auto.
      intros Hn. congruence.
    + exists ch. auto.
  - exists evs. repeat split; auto.
    intros j Hin. rewrite (Htarget j Hin), nth_error_update_nth, Nat.eqb_refl, Hi.
    simpl. exists (f ch0). split; [reflexivity|].
    destruct (Hf ch0) as [K G].
    rewrite (is_voice_in_same category _ _ K G). exact Hv.
  - exact Hfaults.
Qed.

(** A world that differs by calls that changed no channel. *)
Lemma steady_log_only (category : nat) (w : world) (evs : list event)
    (faults' : list bool) :
  Forall (fun e => channel_event e = true) evs ->
  (forall j, In (EvSetPermissions j) evs ->
     exists ch, nth_error (channels (w_guild w)) j = Some ch
                /\ is_voice_in category ch = true) ->
  (w_faults w = [] -> faults' = []) ->
  steady category w
    {| w_guild := w_guild w; w_faults := faults'; w_log := (w_log w ++ evs)%list |}.
Proof.
  intros Hevs Htarget Hfaults. split; simpl; try reflexivity.
  - intros j ch Hj. exists ch. auto.
  - exists evs. auto.
  - exact Hfaults.
Qed.

(** A world that differs by a new voice channel of the category. *)
Lemma steady_append (category : nat) (w : world) (name : string)
    (evs : list event) (faults' : list bool) :
  Forall (fun e => channel_event e = true) evs ->
  (forall j, ~ In (EvSetPermissions j) evs) ->
  (w_faults w = [] -> faults' = []) ->
  steady category w
    {| w_guild := with_channels (w_guild w)
                    (channels (w_guild w) ++ [new_voice_channel category name])%list;
       w_faults := faults';
       w_log := (w_log w ++ evs)%list |}.
Proof.
  intros Hevs Hnone Hfaults. split; simpl; try reflexivity.
  - intros j ch Hj. exists ch. repeat split; auto.
    rewrite nth_error_app1; [exact Hj|].
    apply nth_error_Some. congruence.
  - exists evs. repeat split; auto. intros j Hin. destruct (Hnone j Hin).
  - exact Hfaults.
Qed.

Section ChannelInvariants.

Variable float_repr : float -> string.
Variable container_str : pyval -> string.
Variable category : nat.

Lemma rename_same_place (name : string) (ch : channel) :
  ch_kind (rename name ch) = ch_kind ch
  /\ ch_category (rename name ch) = ch_category ch.
Proof. split; reflexivity. Qed.

Lemma deny_same_place (ch : channel) :
  ch_kind (deny_connect ch) = ch_kind ch
  /\ ch_category (deny_connect ch) = ch_category ch.
Proof. split; reflexivity. Qed.

Lemma update_channel_steady (key : channel_key) (value : pyval) :
  keeps (steady category)
    (update_channel float_repr container_str category key value).
Proof.
  intros w. rewrite update_channel_run. simpl.
  destruct (find_index (matches category key) (channels (w_guild w)) 0) as [i|] eqn:Hf.
  - destruct (find_index_found _ _ _ _ Hf) as [_ (ch0 & Hi & Hm)].
    rewrite Nat.sub_0_r in Hi. apply matches_voice in Hm.
    simpl. rewrite <- app_assoc. simpl.
    destruct (pop_fault (w_faults w)) as [[|] r] eqn:Hp; simpl.
    + apply steady_log_only.
      * repeat constructor.
      * intros j [H|[H|[]]]; discriminate H.
      * intros H. apply pop_fault_nil in H. rewrite Hp in H. apply H.
    + apply (steady_update category w i _ _ r ch0 Hi Hm).
      * intros ch. apply rename_same_place.
      * repeat constructor.
      * intros j [H|[H|[]]]; discriminate H.
      * intros H. apply pop_fault_nil in H. rewrite Hp in H. apply H.
  - destruct (pop_fault (w_faults w)) as [[|] r] eqn:Hp; simpl.
    + rewrite <- app_assoc. simpl. apply steady_log_only.
      * repeat constructor.
      * intros j [H|[H|[]]]; discriminate H.
      * intros H. apply pop_fault_nil in H. rewrite Hp in H. apply H.
    + rewrite <- !app_assoc. simpl. apply steady_append.
      * repeat constructor.
      * intros j [H|[H|[H|[]]]]; discriminate H.
      * intros H. apply pop_fault_nil in H. rewrite Hp in H. simpl in H.
        destruct H as [-> _]. reflexivity.
Qed.

Lemma update_channel_returns (key : channel_key) (value : pyval) :
  returns (update_channel float_repr container_str category key value).
Proof. apply returns_try. intros e. apply returns_ret. Qed.

(** [set_channel_private] in closed form. *)
Lemma set_channel_private_run (ref : nat) (w : world) :
  set_channel_private category ref w
  = match nth_error (channels (w_guild w)) ref with
    | Some ch =>
        if is_voice_in category ch
        then
          let f := pop_fault (w_faults w) in
          (Ok tt,
           {| w_guild := if fst f then w_guild w
                         else with_channels (w_guild w)
                                (update_nth ref deny_connect (channels (w_guild w)));
              w_faults := snd f;
              w_log := (w_log w ++ [EvSetPermissions ref])%list |})
        else (Ok tt, w)
    | None => (Ok tt, w)
    end.
Proof.
  unfold set_channel_private, get_channel.
  unfold m_try, bind, get_guild, lift, ret.
  simpl. destruct (nth_error (channels (w_guild w)) ref) as [ch|]; simpl;
    [|reflexivity].
  destruct (is_voice_in category ch); simpl; [|reflexivity].
  unfold set_permissions. rewrite write_call_run. simpl.
  destruct (pop_fault (w_faults w)) as [[|] r]; reflexivity.
Qed.

Lemma set_channel_private_steady (ref : nat) :
  keeps (steady category) (set_channel_private category ref).
Proof.
  intros w. rewrite set_channel_private_run.
  destruct (nth_error (channels (w_guild w)) ref) as [ch|] eqn:Hi; simpl;
    [|apply steady_refl].
  destruct (is_voice_in category ch) eqn:Hv; simpl; [|apply steady_refl].
  destruct (pop_fault (w_faults w)) as [[|] r] eqn:Hp; simpl.
  - apply steady_log_only.
    + repeat constructor.
    + intros j [H|[]]. injection H as <-. exists ch. auto.
    + intros H. apply pop_fault_nil in H. rewrite Hp in H. apply H.
  - apply (steady_update category w ref _ _ r ch Hi Hv).
    + apply deny_same_place.
    + repeat constructor.
    + intros j [H|[]]. now injection H.
    + intros H. apply pop_fault_nil in H. rewrite Hp in H. apply H.
Qed.

Lemma set_channel_private_returns (ref : nat) :
  returns (set_channel_private category ref).
Proof. apply returns_try. intros e. apply returns_ret. Qed.

Lemma voice_channels_run (w : world) :
  voice_channels category w
  = (Ok (filter (fun rc : nat * channel => is_voice_in category (snd rc))
           (enumerate (channels (w_guild w)) 0)),
     {| w_guild := w_guild w;
        w_faults := w_faults w;
        w_log := (w_log w ++ [EvVoiceChannels category])%list |}).
Proof. reflexivity. Qed.

Lemma voice_channels_steady : keeps (steady category) (voice_channels category).
Proof.
  intros w. rewrite voice_channels_run. simpl. apply steady_log_only.
  - repeat constructor.
  - intros j [H|[]]. discriminate H.
  - auto.
Qed.

Lemma lock_channels_steady : keeps (steady category) (lock_channels category).
Proof.
  apply (keeps_bind _ (steady_trans category)).
  - apply voice_channels_steady.
  - intros chs.
    apply (keeps_for_each _ (steady_refl category) (steady_trans category)).
    apply set_channel_private_steady.
Qed.

Lemma lock_channels_returns : returns (lock_channels category).
Proof.
  apply returns_bind.
  - intros w. eexists. rewrite voice_channels_run. reflexivity.
  - intros chs. apply returns_for_each. apply set_channel_private_returns.
Qed.

Lemma sleep_steady : keeps (steady category) sleep.
Proof. apply (keeps_ret _ (steady_refl category)). Qed.

Lemma updates_then_lock_steady (m : string) (st : stats) :
  keeps (steady category)
    (updates_then_lock float_repr container_str category m st).
Proof.
  unfold updates_then_lock.
  repeat (apply (keeps_bind _ (steady_trans category));
          [first [apply update_channel_steady | apply sleep_steady]|intros _]).
  apply lock_channels_steady.
Qed.

Lemma updates_then_lock_returns (m : string) (st : stats) :
  returns (updates_then_lock float_repr container_str category m st).
Proof.
  unfold updates_then_lock.
  repeat (apply returns_bind;
          [first [apply update_channel_returns | apply returns_ret]|intros _]).
  apply lock_channels_returns.
Qed.

Lemma eight_updates_steady (m : string) (st : stats) :
  keeps (steady category)
    (eight_updates float_repr container_str category m st).
Proof.
  unfold eight_updates.
  repeat (apply (keeps_bind _ (steady_trans category));
          [first [apply update_channel_steady | apply sleep_steady]|intros _]).
  apply update_channel_steady.
Qed.

(** The tail of the cycle is the eight updates, then the lock. *)
Lemma updates_then_lock_run (m : string) (st : stats) (w : world) :
  updates_then_lock float_repr container_str category m st w
  = lock_channels category
      (snd (eight_updates float_repr container_str category m st w)).
Proof.
  unfold updates_then_lock, eight_updates.
  repeat (rewrite (bind_ok _ _ _ tt);
          [|first [apply returns_unit, update_channel_returns
                  |reflexivity]]).
  reflexivity.
Qed.

End ChannelInvariants.

(** * The lock of the category *)

Lemma locking_refl (w : world) : locking w w.
Proof.
  split; auto.
  - intros i ch H. exists ch. auto.
  - exists []. now rewrite app_nil_r.
Qed.

Lemma locking_trans (a b c : world) : locking a b -> locking b c -> locking a c.
Proof.
  intros [H1 L1 [e1 G1] F1] [H2 L2 [e2 G2] F2]. split.
  - intros i ch Hi.
    destruct (H1 i ch Hi) as (ch1 & Hi1 & D1).
    destruct (H2 i ch1 Hi1) as (ch2 & Hi2 & D2).
    exists ch2. split; [exact Hi2|].
    destruct D1 as [->| ->], D2 as [->| ->]; auto.
  - congruence.
  - exists (e1 ++ e2)%list. rewrite G2, G1, app_assoc. reflexivity.
  - auto.
Qed.

Lemma in_voice_refs (q : channel -> bool) (chs : list channel) (k i : nat)
    (ch : channel) :
  nth_error chs i = Some ch -> q ch = true ->
  In (k + i)%nat
    (map fst (filter (fun rc : nat * channel => q (snd rc)) (enumerate chs k))).
Proof.
  revert k i. induction chs as [|x r IH]; intros k i Hi Hq.
  - destruct i; discriminate.
  - destruct i as [|i]; simpl in Hi.
    + injection Hi as ->. simpl. rewrite Hq. simpl. left. lia.
    + pose proof (IH (S k) i Hi Hq) as H.
      replace (S k + i)%nat with (k + S i)%nat in H by lia.
      simpl. destruct (q x); simpl; [right|]; exact H.
Qed.

Section Lock.

Variable category : nat.

Lemma set_channel_private_locking (ref : nat) :
  keeps locking (set_channel_private category ref).
Proof.
  intros w. rewrite set_channel_private_run.
  destruct (nth_error (channels (w_guild w)) ref) as [ch|] eqn:Hi; simpl;
    [|apply locking_refl].
  destruct (is_voice_in category ch); simpl; [|apply locking_refl].
  destruct (pop_fault (w_faults w)) as [[|] r] eqn:Hp; simpl.
  - split; simpl; auto.
    + intros i c H. exists c. auto.
    + eexists. reflexivity.
    + intros H. apply pop_fault_nil in H. rewrite Hp in H. apply H.
  - split; simpl.
    + intros i c H. rewrite nth_error_update_nth.
      destruct (i =? ref)%nat; rewrite H; simpl; eexists; eauto.
    + apply length_update_nth.
    + eexists. reflexivity.
    + intros H. apply pop_fault_nil in H. rewrite Hp in H. apply H.
Qed.

(** Whether the call fails or not, one step on a voice channel of the
    category logs the permission call for it. *)
Lemma set_channel_private_calls (ref : nat) (w : world) (ch : channel) :
  nth_error (channels (w_guild w)) ref = Some ch ->
  is_voice_in category ch = true ->
  w_log (snd (set_channel_private category ref w))
  = (w_log w ++ [EvSetPermissions ref])%list.
Proof.
  intros Hi Hv. rewrite set_channel_private_run, Hi, Hv. reflexivity.
Qed.

(** With no failing call, one step denies [connect] on the voice channel
    of the category it is given. *)
Lemma set_channel_private_denies (ref : nat) (w : world) (ch : channel) :
  w_faults w = [] ->
  nth_error (channels (w_guild w)) ref = Some ch ->
  is_voice_in category ch = true ->
  nth_error (channels (w_guild (snd (set_channel_private category ref w)))) ref
  = Some (deny_connect ch).
Proof.
  intros Hf Hi Hv. rewrite set_channel_private_run, Hi, Hv, Hf. simpl.
  rewrite nth_error_update_nth, Nat.eqb_refl, Hi. reflexivity.
Qed.

Lemma for_each_locks (refs : list nat) (w : world) (i : nat) (ch : channel) :
  w_faults w = [] ->
  In i refs ->
  nth_error (channels (w_guild w)) i = Some ch ->
  is_voice_in category ch = true ->
  nth_error
    (channels (w_guild (snd (for_each refs (set_channel_private category) w)))) i
  = Some (deny_connect ch).
Proof.
  revert w ch. induction refs as [|x refs IH]; intros w ch Hf Hin Hi Hv;
    [destruct Hin|].
  simpl.
  rewrite (bind_ok _ _ w tt
             (returns_unit _ w (set_channel_private_returns category x))).
  pose proof (set_channel_private_locking x w) as [Hch _ _ Hfaults].
  set (w1 := snd (set_channel_private category x w)) in *.
  destruct (Nat.eq_dec x i) as [->|Hne].
  - pose proof (set_channel_private_denies i w ch Hf Hi Hv) as Hd.
    fold w1 in Hd.
    pose proof (keeps_for_each locking locking_refl locking_trans refs
                  (set_channel_private category)
                  (set_channel_private_locking) w1) as [Hrest _ _ _].
    destruct (Hrest i _ Hd) as (ch2 & Hi2 & [->| ->]); exact Hi2.
  - destruct Hin as [Heq|Hin]; [congruence|].
    destruct (Hch i ch Hi) as (ch1 & Hi1 & D).
    destruct D as [->| ->].
    + apply (IH w1 ch (Hfaults Hf) Hin Hi1 Hv).
    + rewrite (IH w1 (deny_connect ch) (Hfaults Hf) Hin Hi1 Hv). reflexivity.
Qed.

(** Every reference of the loop that is a voice channel of the category
    has its permission call in the log, whatever fails. *)
Lemma for_each_calls (refs : list nat) (w : world) (i : nat) (ch : channel) :
  In i refs ->
  nth_error (channels (w_guild w)) i = Some ch ->
  is_voice_in category ch = true ->
  exists evs,
    w_log (snd (for_each refs (set_channel_private category) w))
    = (w_log w ++ evs)%list
    /\ In (EvSetPermissions i) evs.
Proof.
  revert w ch. induction refs as [|x refs IH]; intros w ch Hin Hi Hv;
    [destruct Hin|].
  simpl.
  rewrite (bind_ok _ _ w tt
             (returns_unit _ w (set_channel_private_returns category x))).
  pose proof (set_channel_private_locking x w) as [Hch _ [e1 Hlog1] _].
  destruct (Nat.eq_dec x i) as [->|Hne].
  - pose proof (set_channel_private_calls i w ch Hi Hv) as Hc.
    pose proof (keeps_for_each locking locking_refl locking_trans refs
                  (set_channel_private category)
                  (set_channel_private_locking)
                  (snd (set_channel_private category i w))) as [_ _ [e2 Hlog2] _].
    exists ([EvSetPermissions i] ++ e2)%list.
    split; [rewrite Hlog2, Hc, app_assoc; reflexivity|].
    left. reflexivity.
  - destruct Hin as [Heq|Hin]; [congruence|].
    destruct (Hch i ch Hi) as (ch1 & Hi1 & D).
    assert (Hv1 : is_voice_in category ch1 = true).
    { destruct D as [->| ->]; [exact Hv|].
      rewrite <- Hv. apply is_voice_in_same; reflexivity. }
    destruct (IH _ ch1 Hin Hi1 Hv1) as (e2 & Hlog2 & Hin2).
    exists (e1 ++ e2)%list.
    split; [rewrite Hlog2, Hlog1, app_assoc; reflexivity|].
    apply in_or_app. right. exact Hin2.
Qed.

Lemma lock_channels_locking : keeps locking (lock_channels category).
Proof.
  apply (keeps_bind _ locking_trans).
  - intros w. rewrite voice_channels_run. simpl. split; simpl; auto.
    + intros i ch H. exists ch. auto.
    + eexists. reflexivity.
  - intros chs. apply (keeps_for_each _ locking_refl locking_trans).
    apply set_channel_private_locking.
Qed.

(** With no failing call, after the lock every voice channel of the
    category denies [connect]. *)
Lemma lock_channels_denies (w : world) (i : nat) (ch' : channel) :
  w_faults w = [] ->
  nth_error (channels (w_guild (snd (lock_channels category w)))) i = Some ch' ->
  is_voice_in category ch' = true ->
  ch_connect ch' = Some false.
Proof.
  intros Hf Hi' Hv'.
  pose proof (lock_channels_locking w) as [Hch Hlen _ _].
  assert (exists ch, nth_error (channels (w_guild w)) i = Some ch) as [ch Hi].
  { destruct (nth_error (channels (w_guild w)) i) eqn:E; [eauto|].
    apply nth_error_None in E.
    assert (nth_error (channels (w_guild (snd (lock_channels category w)))) i
            <> None) as N by congruence.
    apply nth_error_Some in N. lia. }
  destruct (Hch i ch Hi) as (ch1 & Hi1 & D).
  assert (ch1 = ch') by congruence. subst ch1.
  assert (Hv : is_voice_in category ch = true).
  { destruct D as [->| ->]; [exact Hv'|].
    rewrite <- Hv'. symmetry. apply is_voice_in_same; reflexivity. }
  unfold lock_channels, bind in Hi'. rewrite voice_channels_run in Hi'.
  simpl in Hi'.
  rewrite (for_each_locks _ _ i ch) in Hi'; simpl; auto.
  - injection Hi' as <-. reflexivity.
  - apply (in_voice_refs (is_voice_in category) _ 0 i ch Hi Hv).
Qed.

(** Whatever fails, the lock makes the permission call for every voice
    channel that is in the category when it ends. *)
Lemma lock_channels_calls (w : world) (i : nat) (ch' : channel) :
  nth_error (channels (w_guild (snd (lock_channels category w)))) i = Some ch' ->
  is_voice_in category ch' = true ->
  exists evs,
    w_log (snd (lock_channels category w)) = (w_log w ++ evs)%list
    /\ In (EvSetPermissions i) evs.
Proof.
  intros Hi' Hv'.
  pose proof (lock_channels_locking w) as [Hch Hlen _ _].
  assert (exists ch, nth_error (channels (w_guild w)) i = Some ch) as [ch Hi].
  { destruct (nth_error (channels (w_guild w)) i) eqn:E; [eauto|].
    apply nth_error_None in E.
    assert (nth_error (channels (w_guild (snd (lock_channels category w)))) i
            <> None) as N by congruence.
    apply nth_error_Some in N. lia. }
  destruct (Hch i ch Hi) as (ch1 & Hi1 & D).
  assert (ch1 = ch') by congruence. subst ch1.
  assert (Hv : is_voice_in category ch = true).
  { destruct D as [->| ->]; [exact Hv'|].
    rewrite <- Hv'. symmetry. apply is_voice_in_same; reflexivity. }
  unfold lock_channels, bind. rewrite voice_channels_run. simpl.
  destruct (for_each_calls
              (map fst (filter (fun rc : nat * channel => is_voice_in category (snd rc))
                          (enumerate (channels (w_guild w)) 0)))
              {| w_guild := w_guild w; w_faults := w_faults w;
                 w_log := (w_log w ++ [EvVoiceChannels category])%list |}
              i ch) as (evs & Hlog & Hin); simpl; auto.
  - apply (in_voice_refs (is_voice_in category) _ 0 i ch Hi Hv).
  - exists ([EvVoiceChannels category] ++ evs)%list.
    split; [rewrite Hlog; simpl; rewrite <- app_assoc; reflexivity|].
    right. exact Hin.
Qed.

End Lock.

(** * The whole cycle *)

Lemma find_index_none {A} (p : A -> bool) (l : list A) (k : nat) :
  find_index p l k = None -> forall x, In x l -> p x = false.
Proof.
  revert k. induction l as [|y l IH]; intros k H x Hin; [destruct Hin|].
  simpl in H. destruct (p y) eqn:Hy; [discriminate|].
  destruct Hin as [->|Hin]; [exact Hy|]. apply (IH _ H x Hin).
Qed.

Lemma find_index_in {A} (p : A -> bool) (l : list A) (k i : nat) :
  find_index p l k = Some i -> exists x, In x l /\ p x = true.
Proof.
  intros H. destruct (find_index_found p l k i H) as [_ (x & Hx & Hp)].
  exists x. split; [|exact Hp]. apply (nth_error_In _ _ Hx).
Qed.

Lemma category_found (cats : list string) (i : nat) :
  find_index (fun n => (n =? category_name)%string) cats 0 = Some i ->
  In category_name cats.
Proof.
  intros H. destruct (find_index_in _ _ _ _ H) as (x & Hin & Hx).
  apply String.eqb_eq in Hx. now subst x.
Qed.

Lemma category_missing (cats : list string) :
  find_index (fun n => (n =? category_name)%string) cats 0 = None ->
  ~ In category_name cats.
Proof.
  intros H Hin. pose proof (find_index_none _ _ _ H _ Hin) as E.
  cbv beta in E. rewrite String.eqb_refl in E. discriminate.
Qed.

Section WholeCycle.

Variable float_repr : float -> string.
Variable container_str : pyval -> string.
Variable float_of_str : string -> option float.

(** [resolve_category] in closed form. *)
Lemma resolve_category_run (w : world) :
  resolve_category w
  = let g := w_guild w in
    let looked := (w_log w ++ [EvFindCategory category_name])%list in
    match find_index (fun n => (n =? category_name)%string) (categories g) 0 with
    | Some i =>
        (Ok i, {| w_guild := g; w_faults := w_faults w; w_log := looked |})
    | None =>
        let f := pop_fault (w_faults w) in
        (if fst f then Raise HTTPException else Ok (List.length (categories g)),
         {| w_guild := if fst f then g
                       else {| categories := (categories g ++ [category_name])%list;
                               channels := channels g;
                               member_count := member_count g |};
            w_faults := snd f;
            w_log := (looked ++ [EvCreateCategory category_name])%list |})
    end.
Proof.
  unfold resolve_category, find_category.
  unfold bind, record, get_guild, ret. simpl.
  destruct (find_index _ (categories (w_guild w)) 0); [reflexivity|].
  unfold create_category. rewrite write_call_run. reflexivity.
Qed.

(** [reconcile_all] in three steps: the category, the member text, the
    updates and the lock. *)
Lemma reconcile_all_run (st : stats) (w : world) :
  reconcile_all float_repr container_str st w
  = match resolve_category w with
    | (Raise e, w1) => (Raise e, w1)
    | (Ok category, w1) =>
        match format_member_count
                (member_count_or_na (member_count (w_guild w))) with
        | Raise e => (Raise e, w1)
        | Ok m =>
            updates_then_lock float_repr container_str category m st w1
        end
    end.
Proof.
  unfold reconcile_all, updates_then_lock, get_member_count, sleep, lift.
  unfold bind, get_guild, ret. simpl.
  destruct (resolve_category w) as [[category|e] w1]; [|reflexivity].
  destruct (format_member_count _) as [m|e]; reflexivity.
Qed.

(** The catch-all handler: the cycle always returns, and leaves the world
    where the fetch phase or the reconciliation left it. *)
Lemma update_stats_channels_run (s : session) (w : world) :
  update_stats_channels float_repr container_str float_of_str s w
  = (Ok tt,
     match fetch_stats float_of_str s with
     | Ok st => snd (reconcile_all float_repr container_str st w)
     | Raise _ => w
     end).
Proof.
  unfold update_stats_channels, m_try, bind, lift.
  destruct (fetch_stats float_of_str s) as [st|e]; [|reflexivity].
  destruct (reconcile_all float_repr container_str st w) as [[[]|e] w']; reflexivity.
Qed.

Lemma channel_event_not_creation (evs : list event) :
  Forall (fun e => channel_event e = true) evs ->
  filter category_creation evs = [].
Proof.
  induction 1 as [|e evs He _ IH]; [reflexivity|].
  simpl. rewrite IH. destruct e; try discriminate He; reflexivity.
Qed.

(** C10.  When the RPC result for the difficulty or the block count is a
    number that is false as a truth value (the integer 0, a float zero),
    the value shown is the sentinel and the label reads [N/A], not the
    number. *)
Theorem falsy_number_shows_sentinel (s : session) (st : stats) :
  fetch_stats float_of_str s = Ok st ->
  (is_number (difficulty_result s) = true ->
   truthy (difficulty_result s) = false ->
   st_difficulty st = PStr NA
   /\ label_of float_repr container_str difficulty_soterg (st_difficulty st)
      = "Difficulty (SoterG): N/A")
  /\ (is_number (block_count_result s) = true ->
      truthy (block_count_result s) = false ->
      st_block_count st = PStr NA
      /\ label_of float_repr container_str block (st_block_count st)
         = "Block: N/A")
  /\ or_na (PInt 0) = PStr NA
  /\ or_na (PFloat (S754_zero false)) = PStr NA
  /\ or_na (PFloat (S754_zero true)) = PStr NA.
Proof.
  intros H. rewrite fetch_stats_eq in H.
  destruct (format_hashrate (hashrate_result s)); simpl in H; [|discriminate].
  injection H as <-. simpl.
  split; [|split; [|repeat split]].
  - intros _ Ht. rewrite or_na_cases, Ht. split; reflexivity.
  - intros _ Ht. rewrite or_na_cases, Ht. split; reflexivity.
Qed.

(** C2, the code at the failing input.  When the member count is missing
    (or zero), the value becomes the sentinel text, formatting that text
    with the thousands option raises, and the cycle ends under its
    catch-all handler before any channel is looked up, created, renamed
    or locked: the channels are exactly as before. *)
Theorem missing_member_count_blocks_updates (s : session) (w : world) :
  member_count (w_guild w) = None \/ member_count (w_guild w) = Some 0 ->
  let w' := snd (update_stats_channels float_repr container_str float_of_str s w) in
  member_count_or_na (member_count (w_guild w)) = PStr NA
  /\ format_member_count (PStr NA) = Raise ValueError
  /\ channels (w_guild w') = channels (w_guild w)
  /\ exists pre,
       w_log w' = (w_log w ++ pre)%list
       /\ Forall (fun e => channel_event e = false) pre.
Proof.
  intros Hmc w'.
  assert (Hna : member_count_or_na (member_count (w_guild w)) = PStr NA).
  { destruct Hmc as [-> | ->]; reflexivity. }
  split; [exact Hna|]. split; [reflexivity|].
  unfold w'. rewrite update_stats_channels_run. simpl.
  destruct (fetch_stats float_of_str s) as [st|e].
  - rewrite reconcile_all_run, resolve_category_run, Hna. simpl.
    destruct (find_index _ (categories (w_guild w)) 0); simpl.
    + split; [reflexivity|]. eexists. split; [reflexivity|]. repeat constructor.
    + destruct (pop_fault (w_faults w)) as [[|] r]; simpl;
        (split; [reflexivity|]; rewrite <- app_assoc; eexists;
         split; [reflexivity|]; repeat constructor).
  - split; [reflexivity|]. exists []. rewrite app_nil_r. split; constructor.
Qed.

(** The world after the category is resolved, and the rest of the cycle
    from there. *)
Lemma cycle_from_category (s : session) (w : world) :
  let w' := snd (update_stats_channels float_repr container_str float_of_str s w) in
  let category := target_category (w_guild w) in
  w' = w
  \/ exists w1,
       w1 = snd (resolve_category w)
       /\ (w' = w1
           \/ (fst (resolve_category w) = Ok category
               /\ exists m st,
                    fetch_stats float_of_str s = Ok st
                    /\ format_member_count
                         (member_count_or_na (member_count (w_guild w))) = Ok m
                    /\ w' = snd (updates_then_lock float_repr container_str
                                   category m st w1))).
Proof.
  intros w' category. unfold w'. rewrite update_stats_channels_run. simpl.
  destruct (fetch_stats float_of_str s) as [st|e]; [|left; reflexivity].
  right. exists (snd (resolve_category w)). split; [reflexivity|].
  rewrite reconcile_all_run.
  destruct (resolve_category w) as [[c|e] w1] eqn:Hr; simpl; [|left; reflexivity].
  destruct (format_member_count _) as [m|e] eqn:Hm; [|left; reflexivity].
  right.
  assert (c = category) as ->.
  { rewrite resolve_category_run in Hr. unfold category, target_category.
    simpl in Hr.
    destruct (find_index _ (categories (w_guild w)) 0).
    - now injection Hr as <- _.
    - destruct (pop_fault (w_faults w)) as [[|] r]; simpl in Hr;
        [discriminate|now injection Hr as <- _]. }
  split; [reflexivity|]. exists m, st. auto.
Qed.

(** Resolving the category touches neither the channels nor the member
    count, and logs no call on a channel. *)
Lemma resolve_category_effect (w : world) :
  let w1 := snd (resolve_category w) in
  channels (w_guild w1) = channels (w_guild w)
  /\ (w_faults w = [] ->
      w_faults w1 = []
      /\ fst (resolve_category w) = Ok (target_category (w_guild w)))
  /\ exists pre,
       w_log w1 = (w_log w ++ pre)%list
       /\ Forall (fun e => channel_event e = false) pre
       /\ ((pre = [EvFindCategory category_name]
            /\ In category_name (categories (w_guild w))
            /\ categories (w_guild w1) = categories (w_guild w))
           \/ (pre = [EvFindCategory category_name; EvCreateCategory category_name]
               /\ ~ In category_name (categories (w_guild w))
               /\ ((fst (resolve_category w) = Ok (target_category (w_guild w))
                    /\ categories (w_guild w1)
                       = (categories (w_guild w) ++ [category_name])%list)
                   \/ (fst (resolve_category w) = Raise HTTPException
                       /\ categories (w_guild w1) = categories (w_guild w))))).
Proof.
  rewrite resolve_category_run. unfold target_category. simpl.
  destruct (find_index _ (categories (w_guild w)) 0) as [i|] eqn:Hf; simpl.
  - split; [reflexivity|]. split; [auto|].
    eexists. split; [reflexivity|]. split; [repeat constructor|].
    left. repeat split. apply (category_found _ _ Hf).
  - pose proof (category_missing _ Hf) as Hnot.
    destruct (pop_fault (w_faults w)) as [[|] r] eqn:Hp; simpl.
    + split; [reflexivity|]. split.
      { intros H. apply pop_fault_nil in H. rewrite Hp in H.
        destruct H as [_ H]. discriminate H. }
      rewrite <- app_assoc. eexists. split; [reflexivity|].
      split; [repeat constructor|]. right. repeat split; auto.
    + split; [reflexivity|]. split.
      { intros H. apply pop_fault_nil in H. rewrite Hp in H.
        destruct H as [H _]. simpl in H. auto. }
      rewrite <- app_assoc. eexists. split; [reflexivity|].
      split; [repeat constructor|]. right. repeat split; auto.
Qed.

(** The cycle gets to the lock when the fetch phase returns, the member
    count is a number other than zero and the category is resolved. *)
Lemma cycle_reaches_lock (s : session) (w : world) (st : stats) (n : Z) :
  fetch_stats float_of_str s = Ok st ->
  member_count (w_guild w) = Some n -> n <> 0 ->
  fst (resolve_category w) = Ok (target_category (w_guild w)) ->
  snd (update_stats_channels float_repr container_str float_of_str s w)
  = snd (lock_channels (target_category (w_guild w))
           (snd (eight_updates float_repr container_str
                   (target_category (w_guild w)) (format_int_grouped n) st
                   (snd (resolve_category w))))).
Proof.
  intros Hst Hmc Hn Hres.
  rewrite update_stats_channels_run, Hst. simpl.
  rewrite reconcile_all_run.
  destruct (resolve_category w) as [r w1]. simpl in Hres. rewrite Hres, Hmc.
  assert (format_member_count (member_count_or_na (Some n))
          = Ok (format_int_grouped n)) as ->.
  { unfold member_count_or_na, py_or. simpl.
    destruct (n =? 0) eqn:E; [apply Z.eqb_eq in E; contradiction|reflexivity]. }
  rewrite updates_then_lock_run. reflexivity.
Qed.

(** Whatever fails, a cycle that gets to the lock makes the permission
    call for every voice channel that is in the category at its end. *)
Lemma cycle_lock_calls (s : session) (w : world) (st : stats) (n : Z)
    (i : nat) (ch : channel) :
  let w' := snd (update_stats_channels float_repr container_str float_of_str s w) in
  fetch_stats float_of_str s = Ok st ->
  member_count (w_guild w) = Some n -> n <> 0 ->
  fst (resolve_category w) = Ok (target_category (w_guild w)) ->
  nth_error (channels (w_guild w')) i = Some ch ->
  is_voice_in (target_category (w_guild w)) ch = true ->
  exists evs,
    w_log w' = (w_log w ++ evs)%list /\ In (EvSetPermissions i) evs.
Proof.
  intros w' Hst Hmc Hn Hres Hi Hv. unfold w' in *.
  rewrite (cycle_reaches_lock s w st n Hst Hmc Hn Hres) in *.
  destruct (lock_channels_calls _ _ i ch Hi Hv) as (el & Hl & Hin).
  destruct (steady_log _ _ _
              (eight_updates_steady float_repr container_str
                 (target_category (w_guild w)) (format_int_grouped n) st
                 (snd (resolve_category w)))) as (eu & Hu & _).
  destruct (resolve_category_effect w) as (_ & _ & pre & Hp & _).
  exists (pre ++ eu ++ el)%list. split.
  - rewrite Hl, Hu, Hp, !app_assoc. reflexivity.
  - apply in_or_app. right. apply in_or_app. right. exact Hin.
Qed.

(** C8.  The permission call is made only on voice channels of the
    category: a channel outside the category or of another kind comes out
    of the cycle exactly as it went in, whatever calls fail.  When the
    cycle gets to the lock (the fetch phase returned, the member count is
    a number other than zero, the category is resolved), the call is made
    for every voice channel then in the category, created by this cycle
    or not; and when no call fails, every one of them denies [connect] to
    the default role. *)
Theorem lock_covers_category (s : session) (w : world) :
  let w' := snd (update_stats_channels float_repr container_str float_of_str s w) in
  let category := target_category (w_guild w) in
  (forall i ch,
      nth_error (channels (w_guild w)) i = Some ch ->
      is_voice_in category ch = false ->
      nth_error (channels (w_guild w')) i = Some ch)
  /\ (exists evs,
        w_log w' = (w_log w ++ evs)%list
        /\ (forall i,
              In (EvSetPermissions i) evs ->
              exists ch,
                nth_error (channels (w_guild w')) i = Some ch
                /\ is_voice_in category ch = true)
        /\ (forall st n,
              fetch_stats float_of_str s = Ok st ->
              member_count (w_guild w) = Some n -> n <> 0 ->
              fst (resolve_category w) = Ok category ->
              forall i ch,
                nth_error (channels (w_guild w')) i = Some ch ->
                is_voice_in category ch = true ->
                In (EvSetPermissions i) evs))
  /\ (w_faults w = [] ->
      forall st n,
        fetch_stats float_of_str s = Ok st ->
        member_count (w_guild w) = Some n -> n <> 0 ->
        forall i ch,
          nth_error (channels (w_guild w')) i = Some ch ->
          is_voice_in category ch = true ->
          ch_connect ch = Some false).
Proof.
  intros w' category.
  pose proof (cycle_from_category s w) as Hshape.
  pose proof (resolve_category_effect w) as (Hch1 & Hok1 & pre & Hlog1 & Hpre & _).
  fold w' category in Hshape. simpl in Hshape.
  assert (Hnone : forall i, ~ In (EvSetPermissions i) pre).
  { intros i Hin. rewrite Forall_forall in Hpre.
    specialize (Hpre _ Hin). discriminate Hpre. }
  assert (Hcover : forall evs,
             w_log w' = (w_log w ++ evs)%list ->
             forall st n,
               fetch_stats float_of_str s = Ok st ->
               member_count (w_guild w) = Some n -> n <> 0 ->
               fst (resolve_category w) = Ok category ->
               forall i ch,
                 nth_error (channels (w_guild w')) i = Some ch ->
                 is_voice_in category ch = true ->
                 In (EvSetPermissions i) evs).
  { intros evs Hlog st n Hst Hmc Hn Hres i ch Hi Hv.
    destruct (cycle_lock_calls s w st n i ch Hst Hmc Hn Hres Hi Hv)
      as (evs' & Hlog' & Hin).
    fold w' in Hlog'. rewrite Hlog in Hlog'.
    apply app_inv_head in Hlog'. subst evs'. exact Hin. }
  split; [|split].
  - intros i ch Hi Hv.
    destruct Hshape as [->|(w1 & -> & [->|(_ & m & st & _ & _ & ->)])].
    + exact Hi.
    + rewrite Hch1. exact Hi.
    + rewrite <- Hch1 in Hi.
      destruct (steady_channels _ _ _
                  (updates_then_lock_steady float_repr container_str category m st _)
                  i ch Hi) as (ch' & Hi' & _ & _ & Hsame).
      rewrite Hi', (Hsame Hv). reflexivity.
  - destruct Hshape as [E|(w1 & -> & [E|(_ & m & st & _ & _ & E)])].
    + exists []. split; [rewrite E, app_nil_r; reflexivity|].
      split; [intros i []|].
      apply Hcover. rewrite E, app_nil_r. reflexivity.
    + exists pre. split; [rewrite E; exact Hlog1|].
      split; [intros i Hin; destruct (Hnone i Hin)|].
      apply Hcover. rewrite E. exact Hlog1.
    + destruct (steady_log _ _ _
                  (updates_then_lock_steady float_repr container_str category m st
                     (snd (resolve_category w))))
        as (evs & Hlog & _ & Htarget).
      rewrite <- E in Hlog, Htarget.
      assert (Hl : w_log w' = (w_log w ++ pre ++ evs)%list).
      { rewrite Hlog, Hlog1, app_assoc. reflexivity. }
      exists (pre ++ evs)%list. split; [exact Hl|].
      split; [|apply Hcover; exact Hl].
      intros i Hin. apply in_app_or in Hin as [Hin|Hin];
        [destruct (Hnone i Hin)|apply Htarget, Hin].
  - intros Hf st n Hst Hmc Hn i ch Hi Hv.
    destruct (Hok1 Hf) as [Hf1 Hres].
    unfold w' in Hi.
    rewrite (cycle_reaches_lock s w st n Hst Hmc Hn Hres) in Hi.
    refine (lock_channels_denies category _ i ch _ Hi Hv).
    apply (steady_faults _ _ _
             (eight_updates_steady float_repr container_str category
                (format_int_grouped n) st (snd (resolve_category w)))).
    exact Hf1.
Qed.

(** C9.  In one cycle the category is looked up by its exact name before
    any call on a channel and created at most once: the calls of the
    cycle are the lookup and, only when no category has that name, one
    creation, followed by calls on channels alone; the categories of the
    guild are as before or have the one new category at the end. *)
Theorem category_created_at_most_once (s : session) (w : world) :
  let w' := snd (update_stats_channels float_repr container_str float_of_str s w) in
  exists pre evs,
    w_log w' = (w_log w ++ pre ++ evs)%list
    /\ Forall (fun e => channel_event e = true) evs
    /\ (List.length (filter category_creation (pre ++ evs)) <= 1)%nat
    /\ ((pre = [] /\ evs = []
         /\ categories (w_guild w') = categories (w_guild w))
        \/ (pre = [EvFindCategory category_name]
            /\ In category_name (categories (w_guild w))
            /\ categories (w_guild w') = categories (w_guild w))
        \/ (pre = [EvFindCategory category_name; EvCreateCategory category_name]
            /\ ~ In category_name (categories (w_guild w))
            /\ (categories (w_guild w')
                = (categories (w_guild w) ++ [category_name])%list
                \/ (categories (w_guild w') = categories (w_guild w)
                    /\ evs = [])))).
Proof.
  intros w'.
  pose proof (cycle_from_category s w) as Hshape.
  pose proof (resolve_category_effect w) as (_ & _ & pre & Hlog1 & _ & Hcases).
  fold w' in Hshape. simpl in Hshape.
  assert (Hcount : forall evs,
             Forall (fun e => channel_event e = true) evs ->
             (List.length (filter category_creation (pre ++ evs)) <= 1)%nat).
  { intros evs Hevs. rewrite filter_app, (channel_event_not_creation evs Hevs).
    rewrite app_nil_r.
    destruct Hcases as [(-> & _)|(-> & _)]; simpl; lia. }
  destruct Hshape as [E|(w1 & -> & [E|(Hres & m & st & _ & _ & E)])].
  - exists [], []. rewrite E. simpl. rewrite app_nil_r.
    repeat split; [constructor|lia|]. left. auto.
  - exists pre, []. rewrite E, app_nil_r.
    split; [exact Hlog1|]. split; [constructor|].
    split; [specialize (Hcount [] (Forall_nil _)); now rewrite app_nil_r in Hcount|].
    right. destruct Hcases as [(Hp & Hin & Hc)|(Hp & Hnot & Hc)].
    + left. auto.
    + right. split; [exact Hp|]. split; [exact Hnot|].
      destruct Hc as [[_ Hc]|[_ Hc]]; auto.
  - pose proof (updates_then_lock_steady float_repr container_str
                  (target_category (w_guild w)) m st (snd (resolve_category w)))
      as [Hcat _ _ (evs & Hlog & Hevs & _) _].
    rewrite <- E in Hcat, Hlog.
    exists pre, evs. split; [rewrite Hlog, Hlog1, app_assoc; reflexivity|].
    split; [exact Hevs|]. split; [apply Hcount, Hevs|].
    right. rewrite Hcat.
    destruct Hcases as [(Hp & Hin & Hc)|(Hp & Hnot & Hc)].
    + left. auto.
    + right. split; [exact Hp|]. split; [exact Hnot|].
      destruct Hc as [[_ Hc]|[Hbad _]]; [left; exact Hc|].
      rewrite Hbad in Hres. discriminate Hres.
Qed.

End WholeCycle.

End WithUnicode.

(** * The properties at sample inputs *)

Section Samples.

#[local] Existing Instance sample_unicode.

Lemma rpc_fields_fall_back_witness :
  (exists st,
      fetch_stats no_float_of_str (sample_session PNone) = Ok st
      /\ st_hashrate st = PStr NA)
  /\ st_difficulty (stats_of (fetch_stats no_float_of_str (sample_session (PStr "abc"))))
     = PStr "abc".
Proof.
  split.
  - apply (proj1 (rpc_fields_fall_back no_float_of_str (sample_session PNone))).
    reflexivity.
  - apply (proj2 (rpc_fields_fall_back no_float_of_str (sample_session (PStr "abc")))).
    vm_compute. reflexivity.
Defined.

(** C1 as stated fails: a result that is a non-empty text is not a number,
    yet the difficulty and the block count show that text, not the
    sentinel. *)
Lemma text_result_passes_through :
  ~ (forall s st,
        fetch_stats no_float_of_str s = Ok st ->
        (is_number (difficulty_result s) = false -> st_difficulty st = PStr NA)
        /\ (is_number (block_count_result s) = false ->
            st_block_count st = PStr NA)).
Proof.
  intros H.
  destruct (H (sample_session (PStr "abc"))
              (stats_of (fetch_stats no_float_of_str (sample_session (PStr "abc")))))
    as [Hd _]; [vm_compute; reflexivity|].
  specialize (Hd eq_refl). vm_compute in Hd. discriminate Hd.
Qed.

Lemma falsy_number_shows_sentinel_witness :
  (st_difficulty (stats_of (fetch_stats no_float_of_str (sample_session (PInt 0))))
   = PStr NA
   /\ label_of sample_float_repr sample_container_str difficulty_soterg
        (st_difficulty (stats_of (fetch_stats no_float_of_str (sample_session (PInt 0)))))
      = "Difficulty (SoterG): N/A")
  /\ (st_block_count (stats_of (fetch_stats no_float_of_str (sample_session (PInt 0))))
      = PStr NA
      /\ label_of sample_float_repr sample_container_str block
           (st_block_count (stats_of (fetch_stats no_float_of_str (sample_session (PInt 0)))))
         = "Block: N/A").
Proof.
  destruct (falsy_number_shows_sentinel sample_float_repr sample_container_str
              no_float_of_str (sample_session (PInt 0))
              (stats_of (fetch_stats no_float_of_str (sample_session (PInt 0)))))
    as (Hd & Hb & _); [vm_compute; reflexivity|].
  split; [apply Hd|apply Hb]; reflexivity.
Defined.

Lemma supply_text_witness :
  fetch_supply no_float_of_str (sample_session (PInt 1))
  = Ok (PStr (format_float_f true 2 (fdiv float_25e11 f1e9) ++ "B SOTER"))
  /\ fetch_supply no_float_of_str supply_down = Ok (PStr NA)
  /\ exists head frac,
       fetch_supply no_float_of_str (sample_session (PInt 1))
       = Ok (PStr (head ++ "." ++ frac ++ "B SOTER"))
       /\ String.length frac = 2%nat
       /\ all_digits frac = true.
Proof.
  split; [|split].
  - apply (proj1 (supply_text no_float_of_str (sample_session (PInt 1)))
             {| status := 200;
                json := Ok (PDict [("coinsupply", PInt 2500000000000)]) |}
             [("coinsupply", PInt 2500000000000)]
             (PInt 2500000000000) float_25e11);
      reflexivity.
  - apply (proj1 (proj2 (supply_text no_float_of_str supply_down)) ClientError).
    reflexivity.
  - apply (proj1 (supply_text no_float_of_str (sample_session (PInt 1)))
             {| status := 200;
                json := Ok (PDict [("coinsupply", PInt 2500000000000)]) |}
             [("coinsupply", PInt 2500000000000)]
             (PInt 2500000000000) float_25e11);
      reflexivity.
Defined.

(** C5 as stated fails: an infinite supply is a number, yet its text has
    no decimals. *)
Lemma infinite_supply_has_no_decimals :
  fetch_supply no_float_of_str
    (with_supply node_down
       (ok_json (PDict [("coinsupply", PFloat (S754_infinity false))])))
  = Ok (PStr "infB SOTER")
  /\ ~ (forall s r d v,
          get_supply s = Ok r -> json r = Ok (PDict d) ->
          dict_get d "coinsupply" = Some v -> is_number v = true ->
          exists head frac,
            fetch_supply no_float_of_str s
            = Ok (PStr (head ++ "." ++ frac ++ "B SOTER"))
            /\ String.length frac = 2%nat
            /\ all_digits frac = true).
Proof.
  split; [reflexivity|].
  intros H.
  destruct (H (with_supply node_down
                 (ok_json (PDict [("coinsupply", PFloat (S754_infinity false))])))
              {| status := 200;
                 json := Ok (PDict [("coinsupply", PFloat (S754_infinity false))]) |}
              [("coinsupply", PFloat (S754_infinity false))]
              (PFloat (S754_infinity false)) eq_refl eq_refl eq_refl eq_refl)
    as (head & frac & E & _).
  vm_compute in E. injection E as E.
  repeat (destruct head as [|? head]; [discriminate E|injection E as _ E]).
  destruct head; discriminate E.
Qed.



Lemma reconcile_idempotent_witness :
  count_matching 0 members
    (channels
       (w_guild
          (snd (update_channel sample_float_repr sample_container_str 0 members
                  (PStr "1,234")
                  (snd (update_channel sample_float_repr sample_container_str 0
                          members (PStr "1,234")
                          (fresh_world guild_without_count)))))))
  = 1%nat.
Proof.
  apply (proj1 (proj2 (proj2 (proj2
           (reconcile_idempotent sample_float_repr sample_container_str 0 members
              (PStr "1,234") guild_without_count []))))).
  vm_compute. lia.
Defined.

(** C3 as stated fails: a key that already has two resources keeps both,
    the reconciliation renames the first and removes none. *)
Lemma duplicate_resources_remain :
  count_matching 0 members
    (channels
       (w_guild
          (snd (update_channel sample_float_repr sample_container_str 0 members
                  (PStr "7")
                  (snd (update_channel sample_float_repr sample_container_str 0
                          members (PStr "7") (fresh_world duplicate_guild)))))))
  = 2%nat
  /\ ~ (forall category key value g log,
          let update :=
            update_channel sample_float_repr sample_container_str category key
              value in
          count_matching category key
            (channels
               (w_guild
                  (snd (update
                          (snd (update {| w_guild := g;
                                          w_faults := [];
                                          w_log := log |}))))))
          = 1%nat).
Proof.
  split; [vm_compute; reflexivity|].
  intros H. specialize (H 0%nat members (PStr "7") duplicate_guild []).
  vm_compute in H. discriminate H.
Qed.

Lemma missing_member_count_blocks_updates_witness :
  channels
    (w_guild
       (snd (update_stats_channels sample_float_repr sample_container_str
               no_float_of_str (sample_session (PInt 1))
               (fresh_world guild_without_count))))
  = [].
Proof.
  apply (proj1 (proj2 (proj2
           (missing_member_count_blocks_updates sample_float_repr
              sample_container_str no_float_of_str (sample_session (PInt 1))
              (fresh_world guild_without_count) (or_introl eq_refl))))).
Defined.

Lemma lock_covers_category_witness :
  ch_connect
    {| ch_name := "Lounge"; ch_kind := VoiceChannel;
       ch_category := Some 1%nat; ch_connect := Some false |}
  = Some false.
Proof.
  apply (proj2 (proj2
           (lock_covers_category sample_float_repr sample_container_str
              no_float_of_str (sample_session (PInt 1)) (fresh_world sample_guild)))
           eq_refl
           (stats_of (fetch_stats no_float_of_str (sample_session (PInt 1))))
           1234)
    with (i := 1%nat).
  - vm_compute. reflexivity.
  - reflexivity.
  - discriminate.
  - vm_compute. reflexivity.
  - reflexivity.
Defined.

Lemma make_rpc_call_total_witness :
  make_rpc_call (sample_session (PInt 7)) "getblockcount" None = Ok (PInt 7)
  /\ make_rpc_call
       {| post_rpc := fun _ _ => Ok {| status := 503; json := Ok (PDict []) |};
          get_supply := Raise ClientError;
          get_coingecko := Raise ClientError |} "getblockcount" None
     = Ok PNone
  /\ make_rpc_call node_down "getblockcount" None = Ok PNone
  /\ make_rpc_call
       {| post_rpc := fun _ _ => Ok {| status := 200; json := Raise DecodeError |};
          get_supply := Raise ClientError;
          get_coingecko := Raise ClientError |} "getblockcount" None
     = Ok PNone
  /\ make_rpc_call
       {| post_rpc := fun _ _ => ok_json (PList []);
          get_supply := Raise ClientError;
          get_coingecko := Raise ClientError |} "getblockcount" None
     = Ok PNone
  /\ make_rpc_call
       {| post_rpc := fun _ _ => ok_json (PDict [("error", PStr "busy")]);
          get_supply := Raise ClientError;
          get_coingecko := Raise ClientError |} "getblockcount" None
     = Ok PNone.
Proof.
  split; [|split; [|split; [|split; [|split]]]].
  - apply (proj1 (proj2 (make_rpc_call_total (sample_session (PInt 7))
                           "getblockcount" None))
             {| status := 200; json := Ok (PDict [("result", PInt 7)]) |}
             [("result", PInt 7)] (PInt 7)); reflexivity.
  - apply (proj1 (proj2 (proj2 (make_rpc_call_total _ "getblockcount" None)))
             {| status := 503; json := Ok (PDict []) |}); [reflexivity|].
    simpl. discriminate.
  - apply (proj1 (proj2 (proj2 (proj2
             (make_rpc_call_total node_down "getblockcount" None))))
             ClientError). reflexivity.
  - apply (proj1 (proj2 (proj2 (proj2 (proj2
             (make_rpc_call_total _ "getblockcount" None)))))
             {| status := 200; json := Raise DecodeError |} DecodeError);
      reflexivity.
  - apply (proj1 (proj2 (proj2 (proj2 (proj2 (proj2
             (make_rpc_call_total _ "getblockcount" None))))))
             {| status := 200; json := Ok (PList []) |} (PList []));
      try reflexivity. intros d. discriminate.
  - apply (proj2 (proj2 (proj2 (proj2 (proj2 (proj2
             (make_rpc_call_total _ "getblockcount" None))))))
             {| status := 200; json := Ok (PDict [("error", PStr "busy")]) |}
             [("error", PStr "busy")]); reflexivity.
Defined.


End Samples.

(** * Further properties: normalised names *)

Lemma lower_char_idem (c : ascii) : lower_char (lower_char c) = lower_char c.
Proof. destruct c as [[] [] [] [] [] [] [] []]; reflexivity. Qed.

Lemma is_space_lower_char (c : ascii) : is_space (lower_char c) = is_space c.
Proof. destruct c as [[] [] [] [] [] [] [] []]; reflexivity. Qed.

Lemma space_lower_char (c : ascii) :
  Ascii.eqb (lower_char c) " " = Ascii.eqb c " ".
Proof. destruct c as [[] [] [] [] [] [] [] []]; reflexivity. Qed.

Lemma is_ascii_lower_char (c : ascii) : is_ascii (lower_char c) = is_ascii c.
Proof. destruct c as [[] [] [] [] [] [] [] []]; reflexivity. Qed.

Lemma lower_ascii_idem (s : string) : lower_ascii (lower_ascii s) = lower_ascii s.
Proof.
  induction s as [|c s IH]; simpl; [reflexivity|].
  now rewrite lower_char_idem, IH.
Qed.

Lemma lower_ascii_remove_spaces (s : string) :
  lower_ascii (remove_spaces s) = remove_spaces (lower_ascii s).
Proof.
  induction s as [|c s IH]; simpl; [reflexivity|].
  rewrite space_lower_char. destruct (Ascii.eqb c " "); simpl; now rewrite IH.
Qed.

Lemma lower_ascii_app (a b : string) :
  lower_ascii (a ++ b) = lower_ascii a ++ lower_ascii b.
Proof. induction a as [|x a IH]; simpl; [reflexivity|]. now rewrite IH. Qed.

(** ASCII texts stay ASCII. *)
Lemma ascii_text_cons (c : ascii) (s : string) :
  ascii_text (String c s) = true -> is_ascii c = true /\ ascii_text s = true.
Proof. cbn [ascii_text]. intros H. apply andb_true_iff in H. exact H. Qed.

Lemma ascii_text_app (a b : string) :
  ascii_text (a ++ b) = ascii_text a && ascii_text b.
Proof.
  induction a as [|x a IH]; [reflexivity|].
  cbn [append ascii_text]. rewrite IH. apply andb_assoc.
Qed.

Lemma ascii_text_lower_ascii (s : string) :
  ascii_text (lower_ascii s) = ascii_text s.
Proof.
  induction s as [|c s IH]; [reflexivity|].
  cbn [lower_ascii ascii_text]. now rewrite is_ascii_lower_char, IH.
Qed.

Lemma ascii_text_remove_spaces (s : string) :
  ascii_text s = true -> ascii_text (remove_spaces s) = true.
Proof.
  induction s as [|c s IH]; intros H; [reflexivity|].
  destruct (ascii_text_cons c s H) as [Hc Hs]. cbn [remove_spaces].
  destruct (Ascii.eqb c " "); [apply IH, Hs|].
  cbn [ascii_text]. now rewrite Hc, (IH Hs).
Qed.

Lemma ascii_text_lstrip (s : string) :
  ascii_text s = true -> ascii_text (lstrip s) = true.
Proof.
  induction s as [|c s IH]; intros H; [reflexivity|].
  destruct (ascii_text_cons c s H) as [Hc Hs].
  rewrite (lstrip_ascii_cons c s Hc).
  destruct (is_space c); [apply IH, Hs|exact H].
Qed.

(** [rstrip] on an ASCII character decides by that character and by what
    is left of the rest. *)
Lemma all_space_ascii_cons (c : ascii) (r : string) :
  is_ascii c = true -> all_space (String c r) = is_space c && all_space r.
Proof.
  intros H. unfold all_space. rewrite (lstrip_ascii_cons c r H).
  destruct (is_space c); reflexivity.
Qed.

Lemma rstrip_empty (r : string) :
  all_space r = match rstrip r with "" => true | _ => false end.
Proof.
  destruct r as [|c r]; [reflexivity|].
  rewrite rstrip_cons. destruct (all_space (String c r)); reflexivity.
Qed.

Lemma rstrip_ascii_cons (c : ascii) (r : string) :
  is_ascii c = true ->
  rstrip (String c r)
  = match rstrip r with
    | "" => if is_space c then "" else String c ""
    | r' => String c r'
    end.
Proof.
  intros H. rewrite rstrip_cons, (all_space_ascii_cons c r H), rstrip_empty.
  destruct (rstrip r); destruct (is_space c); reflexivity.
Qed.

Lemma ascii_text_rstrip (s : string) :
  ascii_text s = true -> ascii_text (rstrip s) = true.
Proof.
  induction s as [|c s IH]; intros H; [reflexivity|].
  destruct (ascii_text_cons c s H) as [Hc Hs].
  rewrite (rstrip_ascii_cons c s Hc). specialize (IH Hs).
  destruct (rstrip s) as [|d r].
  - destruct (is_space c); [reflexivity|]. cbn [ascii_text]. now rewrite Hc.
  - cbn [ascii_text] in *. now rewrite Hc, IH.
Qed.

Lemma lower_ascii_lstrip (s : string) :
  ascii_text s = true -> lower_ascii (lstrip s) = lstrip (lower_ascii s).
Proof.
  induction s as [|c s IH]; intros H; [reflexivity|].
  destruct (ascii_text_cons c s H) as [Hc Hs].
  cbn [lower_ascii].
  rewrite (lstrip_ascii_cons c s Hc), lstrip_ascii_cons, is_space_lower_char
    by (now rewrite is_ascii_lower_char).
  destruct (is_space c); [apply IH, Hs|reflexivity].
Qed.

Lemma lower_ascii_rstrip (s : string) :
  ascii_text s = true -> lower_ascii (rstrip s) = rstrip (lower_ascii s).
Proof.
  induction s as [|c s IH]; intros H; [reflexivity|].
  destruct (ascii_text_cons c s H) as [Hc Hs].
  cbn [lower_ascii].
  rewrite (rstrip_ascii_cons c s Hc), rstrip_ascii_cons, is_space_lower_char
    by (now rewrite is_ascii_lower_char).
  rewrite <- (IH Hs).
  destruct (rstrip s); simpl; [destruct (is_space c)|]; reflexivity.
Qed.

Lemma remove_spaces_length (s : string) :
  (String.length (remove_spaces s) <= String.length s)%nat.
Proof.
  induction s as [|c s IH]; simpl; [lia|].
  destruct (Ascii.eqb c " "); simpl; lia.
Qed.

(** A text without spaces, as [replace] leaves it. *)
Lemma remove_spaces_fixed_cons (c : ascii) (s : string) :
  remove_spaces (String c s) = String c s ->
  Ascii.eqb c " " = false /\ remove_spaces s = s.
Proof.
  simpl. destruct (Ascii.eqb c " ") eqn:E; intros H.
  - exfalso. pose proof (remove_spaces_length s) as L.
    rewrite H in L. simpl in L. lia.
  - split; [reflexivity|]. now injection H.
Qed.

Lemma remove_spaces_idem (s : string) :
  remove_spaces (remove_spaces s) = remove_spaces s.
Proof.
  induction s as [|c s IH]; simpl; [reflexivity|].
  destruct (Ascii.eqb c " ") eqn:E; simpl; [exact IH|].
  now rewrite E, IH.
Qed.

Lemma remove_spaces_lstrip (s : string) :
  ascii_text s = true ->
  remove_spaces s = s -> remove_spaces (lstrip s) = lstrip s.
Proof.
  induction s as [|c s IH]; intros Ha H; [reflexivity|].
  destruct (ascii_text_cons c s Ha) as [Hc Hs].
  destruct (remove_spaces_fixed_cons c s H) as [E Hr].
  rewrite (lstrip_ascii_cons c s Hc).
  destruct (is_space c); [apply IH; assumption|exact H].
Qed.

Lemma remove_spaces_rstrip (s : string) :
  ascii_text s = true ->
  remove_spaces s = s -> remove_spaces (rstrip s) = rstrip s.
Proof.
  induction s as [|c s IH]; intros Ha H; [reflexivity|].
  destruct (ascii_text_cons c s Ha) as [Hc Hs].
  destruct (remove_spaces_fixed_cons c s H) as [E Hr].
  rewrite (rstrip_ascii_cons c s Hc). specialize (IH Hs Hr).
  destruct (rstrip s) as [|d r].
  - destruct (is_space c); [reflexivity|]. simpl. now rewrite E.
  - change (remove_spaces (String c (String d r)))
      with (if Ascii.eqb c " " then remove_spaces (String d r)
            else String c (remove_spaces (String d r))).
    now rewrite E, IH.
Qed.

Lemma lstrip_idem (s : string) :
  ascii_text s = true -> lstrip (lstrip s) = lstrip s.
Proof.
  induction s as [|c s IH]; intros Ha; [reflexivity|].
  destruct (ascii_text_cons c s Ha) as [Hc Hs].
  rewrite (lstrip_ascii_cons c s Hc).
  destruct (is_space c) eqn:E; [apply IH, Hs|].
  now rewrite (lstrip_ascii_cons c s Hc), E.
Qed.

Lemma rstrip_idem (s : string) :
  ascii_text s = true -> rstrip (rstrip s) = rstrip s.
Proof.
  induction s as [|c s IH]; intros Ha; [reflexivity|].
  destruct (ascii_text_cons c s Ha) as [Hc Hs].
  rewrite (rstrip_ascii_cons c s Hc). specialize (IH Hs).
  destruct (rstrip s) as [|d r] eqn:E.
  - destruct (is_space c) eqn:Ec; [reflexivity|].
    rewrite (rstrip_ascii_cons c "" Hc). simpl. now rewrite Ec.
  - rewrite (rstrip_ascii_cons c _ Hc), IH. reflexivity.
Qed.

Lemma lstrip_rstrip (s : string) :
  ascii_text s = true -> lstrip s = s -> lstrip (rstrip s) = rstrip s.
Proof.
  destruct s as [|c s]; [reflexivity|]. intros Ha.
  destruct (ascii_text_cons c s Ha) as [Hc Hs].
  rewrite (lstrip_ascii_cons c s Hc), (rstrip_ascii_cons c s Hc).
  destruct (is_space c) eqn:E.
  - intros H. exfalso.
    assert (forall t, ascii_text t = true ->
                      String.length (lstrip t) <= String.length t)%nat as L.
    { induction t as [|y t IH]; intros Ht; [simpl; lia|].
      destruct (ascii_text_cons y t Ht) as [Hy Ht'].
      rewrite (lstrip_ascii_cons y t Hy).
      specialize (IH Ht'). destruct (is_space y); simpl; lia. }
    specialize (L s Hs). rewrite H in L. simpl in L. lia.
  - intros _.
    destruct (rstrip s); rewrite (lstrip_ascii_cons c _ Hc), E; reflexivity.
Qed.

Lemma strip_idem (s : string) :
  ascii_text s = true -> strip (strip s) = strip s.
Proof.
  intros Ha. unfold strip.
  pose proof (ascii_text_lstrip s Ha) as Hl.
  rewrite (lstrip_rstrip (lstrip s) Hl (lstrip_idem s Ha)).
  apply rstrip_idem, Hl.
Qed.

(** What [strip] returns is a piece of the text, so it has no space when
    the text has none, whatever the characters are. *)
Lemma lstrip_suffix (k : nat) (t : string) :
  (String.length t <= k)%nat -> exists p, t = p ++ lstrip t.
Proof.
  revert t. induction k as [|k IH]; intros t Hk.
  - destruct t; [exists ""; reflexivity|simpl in Hk; lia].
  - destruct t as [|c r]; [exists ""; reflexivity|].
    cbn [lstrip]. simpl in Hk. destruct (is_space c).
    + destruct (IH r ltac:(lia)) as [p Hp].
      exists (String c p). cbn [append]. now rewrite <- Hp.
    + destruct r as [|d r2]; [exists ""; reflexivity|].
      simpl in Hk. destruct (is_space2 c d).
      * destruct (IH r2 ltac:(lia)) as [p Hp].
        exists (String c (String d p)). cbn [append]. now rewrite <- Hp.
      * destruct r2 as [|e r3]; [exists ""; reflexivity|].
        simpl in Hk. destruct (is_space3 c d e); [|exists ""; reflexivity].
        destruct (IH r3 ltac:(lia)) as [p Hp].
        exists (String c (String d (String e p))). cbn [append].
        now rewrite <- Hp.
Qed.

Lemma rstrip_prefix (t : string) : exists q, t = rstrip t ++ q.
Proof.
  induction t as [|c r IH]; [exists ""; reflexivity|].
  rewrite rstrip_cons. destruct (all_space (String c r)).
  - exists (String c r). reflexivity.
  - destruct IH as [q Hq]. exists q. cbn [append]. now rewrite <- Hq.
Qed.

Lemma remove_spaces_fixed_app (a b : string) :
  remove_spaces (a ++ b) = a ++ b ->
  remove_spaces a = a /\ remove_spaces b = b.
Proof.
  induction a as [|c a IH]; intros H; [split; [reflexivity|exact H]|].
  cbn [append] in H.
  destruct (remove_spaces_fixed_cons c (a ++ b) H) as [E Hr].
  destruct (IH Hr) as [Ha Hb]. split; [|exact Hb].
  cbn [remove_spaces]. now rewrite E, Ha.
Qed.

Lemma remove_spaces_strip (t : string) :
  remove_spaces t = t -> remove_spaces (strip t) = strip t.
Proof.
  intros H. unfold strip.
  destruct (lstrip_suffix _ t (Nat.le_refl _)) as [p Hp].
  rewrite Hp in H. apply remove_spaces_fixed_app in H as [_ Hl].
  destruct (rstrip_prefix (lstrip t)) as [q Hq].
  rewrite Hq in Hl. apply remove_spaces_fixed_app in Hl as [Hr _].
  exact Hr.
Qed.

Section NormalForms.

Context {u : unicode}.

(** On an ASCII name [norm] needs nothing of the database. *)
Lemma norm_ascii_text (s : string) :
  ascii_text s = true -> norm s = strip (remove_spaces (lower_ascii s)).
Proof. intros H. unfold norm. now rewrite (lower_ascii_text s H). Qed.

Lemma ascii_text_norm (s : string) :
  ascii_text s = true -> ascii_text (norm s) = true.
Proof.
  intros H. rewrite (norm_ascii_text s H). unfold strip.
  apply ascii_text_rstrip, ascii_text_lstrip, ascii_text_remove_spaces.
  now rewrite ascii_text_lower_ascii.
Qed.

(** X1.  [norm] gives a normal form.  Its result has no space, whatever
    the name is.  On an ASCII name it has no upper-case letter A to Z and
    no white space at either end as well, so normalising again changes
    nothing. *)
Theorem norm_idempotent (s : string) :
  remove_spaces (norm s) = norm s
  /\ (ascii_text s = true ->
      lower (norm s) = norm s
      /\ strip (norm s) = norm s
      /\ norm (norm s) = norm s).
Proof.
  assert (Hr : remove_spaces (norm s) = norm s).
  { unfold norm. apply remove_spaces_strip, remove_spaces_idem. }
  split; [exact Hr|]. intros Ha.
  pose proof (ascii_text_norm s Ha) as Hn.
  assert (Hq : ascii_text (remove_spaces (lower_ascii s)) = true).
  { apply ascii_text_remove_spaces. now rewrite ascii_text_lower_ascii. }
  assert (Hl : lower_ascii (norm s) = norm s).
  { rewrite (norm_ascii_text s Ha). unfold strip.
    rewrite lower_ascii_rstrip by (apply ascii_text_lstrip, Hq).
    rewrite lower_ascii_lstrip by exact Hq.
    rewrite lower_ascii_remove_spaces, lower_ascii_idem. reflexivity. }
  assert (Hs : strip (norm s) = norm s).
  { rewrite (norm_ascii_text s Ha). apply strip_idem, Hq. }
  split; [rewrite (lower_ascii_text _ Hn); exact Hl|].
  split; [exact Hs|].
  rewrite (norm_ascii_text _ Hn), Hl, Hr. exact Hs.
Qed.

(** X2.  On ASCII names [norm] ignores the case of the letters A to Z and
    every space: lowering a name or removing its spaces first gives the
    same normal form, and the spaces may sit anywhere, between any two
    parts. *)
Theorem norm_ignores_case_and_spaces (a b : string) :
  ascii_text a = true -> ascii_text b = true ->
  norm (lower a) = norm a
  /\ norm (remove_spaces a) = norm a
  /\ norm (a ++ " " ++ b) = norm (a ++ b).
Proof.
  intros Ha Hb.
  rewrite (lower_ascii_text a Ha).
  rewrite !norm_ascii_text;
    rewrite ?ascii_text_app, ?ascii_text_lower_ascii, ?Ha, ?Hb;
    try reflexivity; try (apply ascii_text_remove_spaces, Ha).
  repeat split.
  - now rewrite lower_ascii_idem.
  - now rewrite lower_ascii_remove_spaces, remove_spaces_idem.
  - rewrite !lower_ascii_app, !remove_spaces_app. reflexivity.
Qed.

End NormalForms.

Section MoreWithUnicode.

Context {u : unicode}.

(** * Further properties: finding or creating the channel of a key *)

Lemma find_index_none_existsb {A} (p : A -> bool) (l : list A) (k : nat) :
  find_index p l k = None <-> existsb p l = false.
Proof.
  revert k. induction l as [|x l IH]; intros k; simpl; [tauto|].
  destruct (p x); simpl; [split; discriminate|apply IH].
Qed.

Lemma find_index_least {A} (p : A -> bool) (l : list A) (k i : nat) :
  find_index p l k = Some i ->
  forall j x, (j < i - k)%nat -> nth_error l j = Some x -> p x = false.
Proof.
  revert k. induction l as [|y l IH]; intros k H j x Hj Hx; [destruct j; discriminate|].
  simpl in H. destruct (p y) eqn:Hy.
  - injection H as <-. lia.
  - destruct j as [|j]; simpl in Hx; [now injection Hx as <-|].
    apply (IH (S k) H j x); [lia|exact Hx].
Qed.

Lemma find_index_app_new {A} (p : A -> bool) (l : list A) (x : A) (k : nat) :
  find_index p l k = None -> p x = true ->
  find_index p (l ++ [x])%list k = Some (k + List.length l)%nat.
Proof.
  revert k. induction l as [|y l IH]; intros k H Hx; simpl in *.
  - rewrite Hx. f_equal. lia.
  - destruct (p y); [discriminate|]. rewrite (IH _ H Hx). f_equal. lia.
Qed.

Lemma prefix_matches_key (category : nat) (key : channel_key) :
  matches category key (new_voice_channel category (CHANNEL_KEYS key)) = true.
Proof.
  apply (matches_new category key "" (CHANNEL_KEYS key)).
  symmetry. apply append_nil_r.
Qed.

(** X3.  [get_or_create_channel] looks before it creates.  When the
    category has a voice channel whose normalised name starts with the
    normalised prefix, it returns the first such channel and makes no
    write call: guild and oracle are as before.  When it has none, it
    creates one voice channel named exactly as the prefix, last in the
    guild; if that call is refused it raises and the guild is as before;
    and the channel it created is the one the next lookup returns. *)
Theorem get_or_create_channel_finds_first (category : nat) (key : channel_key)
    (w : world) :
  let chs := channels (w_guild w) in
  let r := get_or_create_channel category key w in
  (existsb (matches category key) chs = true ->
   exists i ch,
     fst r = Ok i
     /\ nth_error chs i = Some ch
     /\ matches category key ch = true
     /\ (forall j ch', (j < i)%nat -> nth_error chs j = Some ch' ->
                       matches category key ch' = false)
     /\ w_guild (snd r) = w_guild w
     /\ w_faults (snd r) = w_faults w
     /\ w_log (snd r) = (w_log w ++ [EvVoiceChannels category])%list)
  /\ (existsb (matches category key) chs = false ->
      (fst (pop_fault (w_faults w)) = false ->
       fst r = Ok (List.length chs)
       /\ channels (w_guild (snd r))
          = (chs ++ [new_voice_channel category (CHANNEL_KEYS key)])%list
       /\ fst (get_or_create_channel category key (snd r)) = Ok (List.length chs)
       /\ w_guild (snd (get_or_create_channel category key (snd r)))
          = w_guild (snd r))
      /\ (fst (pop_fault (w_faults w)) = true ->
          fst r = Raise HTTPException /\ w_guild (snd r) = w_guild w)).
Proof.
  intros chs r. unfold r. rewrite get_or_create_channel_run. fold chs. simpl.
  split.
  - intros Hex.
    destruct (find_index (matches category key) chs 0) as [i|] eqn:Hf.
    + destruct (find_index_found _ _ _ _ Hf) as [_ (ch & Hi & Hm)].
      rewrite Nat.sub_0_r in Hi.
      exists i, ch. simpl. repeat split; auto.
      intros j ch' Hj Hn.
      apply (find_index_least _ _ _ _ Hf j ch'); [lia|exact Hn].
    + apply find_index_none_existsb in Hf. congruence.
  - intros Hex. apply (find_index_none_existsb _ _ 0) in Hex. rewrite Hex.
    split.
    + intros Hp. rewrite Hp. simpl. split; [reflexivity|]. split; [reflexivity|].
      rewrite get_or_create_channel_run. simpl.
      rewrite (find_index_app_new _ _ _ 0 Hex (prefix_matches_key category key)).
      simpl. auto.
    + intros Hp. rewrite Hp. simpl. auto.
Qed.

(** * Further properties: one update, whatever fails *)

Lemma reconcile_counts (category : nat) (key : channel_key) (text : string)
    (chs : list channel) (k : channel_key) :
  count_matching category k
    (reconcile_channels category key (CHANNEL_KEYS key ++ text) chs)
  = if channel_key_eqb k key
    then Nat.max 1 (count_matching category k chs)
    else count_matching category k chs.
Proof.
  destruct (channel_key_eqb k key) eqn:Hk.
  - apply channel_key_eqb_eq in Hk. subst k.
    apply (reconcile_count category key text _ eq_refl).
  - apply (reconcile_count_other category key text _ eq_refl). exact Hk.
Qed.

Lemma reconcile_channels_length (category : nat) (key : channel_key)
    (label : string) (chs : list channel) :
  (List.length chs
   <= List.length (reconcile_channels category key label chs)
   <= List.length chs + 1)%nat.
Proof.
  unfold reconcile_channels.
  destruct (find_index (matches category key) chs 0).
  - rewrite length_update_nth. lia.
  - rewrite length_app. simpl. lia.
Qed.

Section OneUpdate.

Variable float_repr : float -> string.
Variable container_str : pyval -> string.
Variable category : nat.

(** Whatever fails, the channels after [update_channel] are those before
    or a reconciliation of them, with the label or with the bare prefix. *)
Lemma update_channel_outcome (key : channel_key) (value : pyval) (w : world) :
  let chs := channels (w_guild w) in
  let chs' := channels (w_guild (snd (update_channel float_repr container_str
                                        category key value w))) in
  chs' = chs
  \/ chs' = reconcile_channels category key
              (CHANNEL_KEYS key ++ " " ++ py_str float_repr container_str value) chs
  \/ chs' = reconcile_channels category key (CHANNEL_KEYS key ++ "") chs.
Proof.
  intros chs chs'. unfold chs'. rewrite update_channel_run. fold chs.
  unfold reconcile_channels, label_of. simpl.
  destruct (find_index (matches category key) chs 0) as [i|]; simpl.
  - destruct (pop_fault (w_faults w)) as [[|] r]; simpl; auto.
  - destruct (pop_fault (w_faults w)) as [[|] r]; simpl; [auto|].
    destruct (pop_fault r) as [[|] r']; simpl.
    + right. right. rewrite append_nil_r. reflexivity.
    + right. left. reflexivity.
Qed.

Lemma update_channel_one_per_key (key : channel_key) (value : pyval) :
  keeps (one_per_key category)
    (update_channel float_repr container_str category key value).
Proof.
  intros w k.
  destruct (update_channel_outcome key value w) as [E|[E|E]]; rewrite E.
  - lia.
  - rewrite reconcile_counts. destruct (channel_key_eqb k key); lia.
  - rewrite reconcile_counts. destruct (channel_key_eqb k key); lia.
Qed.

(** X4.  Whatever platform calls fail, [update_channel] returns without
    raising and never makes a duplicate: the key has as many resources as
    before, or one if it had none and the creation went through; no other
    key gains or loses a resource; at most one channel is added. *)
Theorem update_channel_never_duplicates (key : channel_key) (value : pyval)
    (w : world) :
  let chs := channels (w_guild w) in
  let r := update_channel float_repr container_str category key value w in
  let chs' := channels (w_guild (snd r)) in
  fst r = Ok tt
  /\ (count_matching category key chs
      <= count_matching category key chs'
      <= Nat.max 1 (count_matching category key chs))%nat
  /\ (forall k, channel_key_eqb k key = false ->
                count_matching category k chs' = count_matching category k chs)
  /\ (List.length chs <= List.length chs' <= List.length chs + 1)%nat.
Proof.
  intros chs r chs'.
  split; [apply returns_unit, update_channel_returns|].
  split; [apply (update_channel_one_per_key key value w key)|].
  unfold chs', r.
  destruct (update_channel_outcome key value w) as [E|[E|E]]; rewrite E; fold chs.
  - split; [reflexivity|lia].
  - split; [|apply reconcile_channels_length].
    intros k Hk. rewrite reconcile_counts, Hk. reflexivity.
  - split; [|apply reconcile_channels_length].
    intros k Hk. rewrite reconcile_counts, Hk. reflexivity.
Qed.

(** X5.  A rename that fails right after a successful creation leaves a
    channel named exactly as the prefix; the next [update_channel] finds
    that channel and renames it, so the guild ends as if nothing had
    failed. *)
Theorem failed_rename_is_repaired (key : channel_key) (value : pyval)
    (g : guild) (log : list event) :
  existsb (matches category key) (channels g) = false ->
  let update := update_channel float_repr container_str category key value in
  let w1 := snd (update {| w_guild := g; w_faults := [false; true]; w_log := log |}) in
  channels (w_guild w1)
  = (channels g ++ [new_voice_channel category (CHANNEL_KEYS key)])%list
  /\ w_guild (snd (update w1))
     = w_guild (snd (update {| w_guild := g; w_faults := []; w_log := log |})).
Proof.
  intros Hex update w1.
  apply (find_index_none_existsb _ _ 0) in Hex.
  assert (E1 : w1 = {| w_guild := with_channels g
                         (channels g ++ [new_voice_channel category (CHANNEL_KEYS key)]);
                       w_faults := [];
                       w_log := ((log ++ [EvVoiceChannels category])
                                   ++ [EvCreateVoiceChannel category (CHANNEL_KEYS key)])
                                  ++ [EvEdit (List.length (channels g))
                                        (label_of float_repr container_str key value)] |}%list).
  { unfold w1, update. rewrite update_channel_run. simpl. rewrite Hex. reflexivity. }
  split; [rewrite E1; reflexivity|].
  rewrite E1. unfold update. rewrite !update_channel_run. simpl.
  rewrite Hex.
  rewrite (find_index_app_new _ _ _ 0 Hex (prefix_matches_key category key)).
  simpl. unfold with_channels. simpl. rewrite update_nth_append. reflexivity.
Qed.

End OneUpdate.

(** * Further properties: a cycle in which no call fails *)

Section NoFaults.

Variable float_repr : float -> string.
Variable container_str : pyval -> string.
Variable float_of_str : string -> option float.

Lemma update_channel_step (category : nat) (key : channel_key) (value : pyval)
    (w : world) :
  w_faults w = [] ->
  w_guild (snd (update_channel float_repr container_str category key value w))
  = with_channels (w_guild w)
      (reconcile_channels category key
         (label_of float_repr container_str key value) (channels (w_guild w)))
  /\ w_faults (snd (update_channel float_repr container_str category key value w))
     = [].
Proof.
  destruct w as [g f l]. simpl. intros ->.
  destruct (update_channel_no_faults float_repr container_str category key value g l)
    as [log' ->].
  split; reflexivity.
Qed.

Lemma eight_updates_no_faults (category : nat) (m : string) (st : stats)
    (w : world) :
  w_faults w = [] ->
  w_guild (snd (eight_updates float_repr container_str category m st w))
  = with_channels (w_guild w)
      (reconcile_keys category
         (fun k => label_of float_repr container_str k (value_of m st k))
         all_keys (channels (w_guild w)))
  /\ w_faults (snd (eight_updates float_repr container_str category m st w)) = [].
Proof.
  intros Hf. unfold eight_updates.
  repeat (rewrite (bind_ok _ _ _ tt);
          [|first [apply returns_unit, update_channel_returns
                  |reflexivity]]).
  repeat match goal with
  | |- context [snd (sleep ?x)] => change (snd (sleep x)) with x
  end.
  destruct (update_channel_step category members (PStr m) w Hf) as [G1 F1].
  set (w1 := snd (update_channel _ _ category members _ w)) in *.
  destruct (update_channel_step category difficulty_soterg (st_difficulty st) w1 F1)
    as [G2 F2].
  set (w2 := snd (update_channel _ _ category difficulty_soterg _ w1)) in *.
  destruct (update_channel_step category hashrate_soterg (st_hashrate st) w2 F2)
    as [G3 F3].
  set (w3 := snd (update_channel _ _ category hashrate_soterg _ w2)) in *.
  destruct (update_channel_step category block (st_block_count st) w3 F3)
    as [G4 F4].
  set (w4 := snd (update_channel _ _ category block _ w3)) in *.
  destruct (update_channel_step category supply (st_supply st) w4 F4)
    as [G5 F5].
  set (w5 := snd (update_channel _ _ category supply _ w4)) in *.
  destruct (update_channel_step category price (price_display (st_market st)) w5 F5)
    as [G6 F6].
  set (w6 := snd (update_channel _ _ category price _ w5)) in *.
  destruct (update_channel_step category volume_24h
              (volume_display (st_market st)) w6 F6) as [G7 F7].
  set (w7 := snd (update_channel _ _ category volume_24h _ w6)) in *.
  destruct (update_channel_step category market_cap
              (market_cap_display (st_market st)) w7 F7) as [G8 F8].
  split; [|exact F8].
  rewrite G8, G7, G6, G5, G4, G3, G2, G1. reflexivity.
Qed.

(** With no failing call, the lock denies [connect] on every voice
    channel of the category and changes nothing else. *)
Lemma lock_channels_no_faults (category : nat) (w : world) :
  w_faults w = [] ->
  w_guild (snd (lock_channels category w))
  = with_channels (w_guild w) (map (lock_one category) (channels (w_guild w)))
  /\ w_faults (snd (lock_channels category w)) = [].
Proof.
  intros Hf.
  pose proof (lock_channels_steady category w) as [Hc Hm Hch _ Hfa].
  pose proof (lock_channels_locking category w) as [_ Hlen _ _].
  split; [|exact (Hfa Hf)].
  assert (E : channels (w_guild (snd (lock_channels category w)))
              = map (lock_one category) (channels (w_guild w))).
  { apply nth_error_ext. intros i. rewrite nth_error_map.
    destruct (nth_error (channels (w_guild w)) i) as [ch|] eqn:Hi; simpl.
    - unfold lock_one. destruct (is_voice_in category ch) eqn:Hv.
      + unfold lock_channels, bind. rewrite voice_channels_run. simpl.
        apply for_each_locks; simpl; auto.
        apply (in_voice_refs (is_voice_in category) _ 0 i ch Hi Hv).
      + destruct (Hch i ch Hi) as (ch' & Hi' & _ & _ & Hsame).
        rewrite Hi', (Hsame Hv). reflexivity.
    - apply nth_error_None. rewrite Hlen. apply nth_error_None. exact Hi. }
  destruct (w_guild (snd (lock_channels category w))) as [c chs mc].
  unfold with_channels. simpl in *. congruence.
Qed.

Lemma categories_after_resolve (w : world) :
  fst (resolve_category w) = Ok (target_category (w_guild w)) ->
  categories (w_guild (snd (resolve_category w))) = categories_after (w_guild w).
Proof.
  rewrite resolve_category_run. unfold categories_after, target_category. simpl.
  destruct (find_index _ (categories (w_guild w)) 0); simpl; [reflexivity|].
  destruct (pop_fault (w_faults w)) as [[|] r]; simpl; [discriminate|reflexivity].
Qed.

(** The guild after a complete cycle in which no call fails. *)
Lemma cycle_no_faults (s : session) (w : world) (st : stats) (n : Z) :
  w_faults w = [] ->
  fetch_stats float_of_str s = Ok st ->
  member_count (w_guild w) = Some n -> n <> 0 ->
  w_guild (snd (update_stats_channels float_repr container_str float_of_str s w))
  = cycle_guild float_repr container_str n st (w_guild w).
Proof.
  intros Hf Hst Hmc Hn.
  destruct (resolve_category_effect w) as (Hch & Hok & _).
  destruct (Hok Hf) as [Hf1 Hres].
  rewrite (cycle_reaches_lock float_repr container_str float_of_str s w st n
             Hst Hmc Hn Hres).
  destruct (eight_updates_no_faults (target_category (w_guild w))
              (format_int_grouped n) st (snd (resolve_category w)) Hf1)
    as [G8 F8].
  destruct (lock_channels_no_faults (target_category (w_guild w)) _ F8) as [GL _].
  rewrite GL, G8. unfold cycle_guild, with_channels, cycle_labels. simpl.
  rewrite Hch, (categories_after_resolve w Hres).
  pose proof (resolve_category_effect w) as (_ & _ & pre & _ & _ & Hcases).
  f_equal.
  rewrite resolve_category_run. simpl.
  destruct (find_index _ (categories (w_guild w)) 0); simpl; [reflexivity|].
  destruct (pop_fault (w_faults w)); simpl. destruct b; reflexivity.
Qed.

End NoFaults.

(** * Further properties: the channels after a complete cycle *)

Lemma reconcile_keys_cons (category : nat) (labels : channel_key -> string)
    (k0 : channel_key) (keys : list channel_key) (chs : list channel) :
  reconcile_keys category labels (k0 :: keys) chs
  = reconcile_keys category labels keys
      (reconcile_channels category k0 (labels k0) chs).
Proof. reflexivity. Qed.

Section CycleChannels.

Variable category : nat.
Variable labels : channel_key -> string.
Variable texts : channel_key -> string.
Hypothesis labels_eq : forall k, labels k = CHANNEL_KEYS k ++ texts k.

Lemma reconcile_find_other (key k : channel_key) (chs : list channel) :
  channel_key_eqb k key = false ->
  find (matches category k) (reconcile_channels category key (labels key) chs)
  = find (matches category k) chs.
Proof.
  intros Hk. induction chs as [|x r IH].
  - rewrite (reconcile_nil category key (labels key)). simpl.
    rewrite (other_key_label category key (texts key) (labels key)
               (labels_eq key) k (new_voice_channel category (labels key))
               Hk eq_refl).
    reflexivity.
  - rewrite (reconcile_cons category key (labels key)).
    destruct (matches category key x) eqn:Hx; simpl.
    + rewrite (other_key_label category key (texts key) (labels key)
                 (labels_eq key) k (rename (labels key) x) Hk eq_refl).
      rewrite (other_key_resource category key k x Hk Hx). reflexivity.
    + destruct (matches category k x); [reflexivity|exact IH].
Qed.

Lemma reconcile_settles (key : channel_key) (chs : list channel) :
  settled category labels (reconcile_channels category key (labels key) chs) key.
Proof.
  apply (reconcile_found category key (texts key) (labels key) (labels_eq key)).
Qed.

Lemma reconcile_keeps_settled (key k : channel_key) (chs : list channel) :
  settled category labels chs k ->
  settled category labels (reconcile_channels category key (labels key) chs) k.
Proof.
  intros H. destruct (channel_key_eqb k key) eqn:Hk.
  - apply channel_key_eqb_eq in Hk. subst k. apply reconcile_settles.
  - unfold settled. rewrite (reconcile_find_other key k chs Hk). exact H.
Qed.

Lemma reconcile_keys_settles (keys : list channel_key) (chs : list channel)
    (k : channel_key) :
  existsb (channel_key_eqb k) keys = true \/ settled category labels chs k ->
  settled category labels (reconcile_keys category labels keys chs) k.
Proof.
  revert chs. induction keys as [|k0 keys IH]; intros chs H.
  - destruct H as [H|H]; [discriminate|exact H].
  - rewrite reconcile_keys_cons. apply IH.
    destruct H as [H|H].
    + simpl in H. apply orb_true_iff in H as [H|H].
      * right. apply channel_key_eqb_eq in H. subst k0. apply reconcile_settles.
      * left. exact H.
    + right. apply reconcile_keeps_settled. exact H.
Qed.

Lemma rename_same_name (ch : channel) : rename (ch_name ch) ch = ch.
Proof. destruct ch. reflexivity. Qed.

(** A key that is settled is left alone by its reconciliation. *)
Lemma settled_fixed (key : channel_key) (chs : list channel) :
  settled category labels chs key ->
  reconcile_channels category key (labels key) chs = chs.
Proof.
  intros (ch & Hf & Hn). induction chs as [|x r IH]; [discriminate|].
  rewrite reconcile_cons. simpl in Hf.
  destruct (matches category key x).
  - injection Hf as ->. rewrite <- Hn, rename_same_name. reflexivity.
  - rewrite (IH Hf). reflexivity.
Qed.

Lemma settled_keys_fixed (keys : list channel_key) (chs : list channel) :
  (forall k, settled category labels chs k) ->
  reconcile_keys category labels keys chs = chs.
Proof.
  intros H. induction keys as [|k0 keys IH]; [reflexivity|].
  rewrite reconcile_keys_cons, (settled_fixed k0 chs (H k0)). exact IH.
Qed.

Lemma reconcile_keys_counts (keys : list channel_key) (chs : list channel)
    (k : channel_key) :
  count_matching category k (reconcile_keys category labels keys chs)
  = if existsb (channel_key_eqb k) keys
    then Nat.max 1 (count_matching category k chs)
    else count_matching category k chs.
Proof.
  revert chs. induction keys as [|k0 keys IH]; intros chs; [reflexivity|].
  rewrite reconcile_keys_cons, IH, labels_eq, reconcile_counts. cbn [existsb].
  destruct (channel_key_eqb k k0), (existsb (channel_key_eqb k) keys);
    cbn [orb]; lia.
Qed.

(** From channels in which no key of the list has a resource, the
    reconciliations add one channel per key, in order. *)
Lemma reconcile_keys_fresh (keys : list channel_key) (chs : list channel) :
  NoDup keys ->
  (forall k, In k keys -> existsb (matches category k) chs = false) ->
  reconcile_keys category labels keys chs
  = (chs ++ map (fun k => new_voice_channel category (labels k)) keys)%list.
Proof.
  revert chs. induction keys as [|k0 keys IH]; intros chs Hnd Hno.
  - simpl. now rewrite app_nil_r.
  - rewrite reconcile_keys_cons.
    assert (E : reconcile_channels category k0 (labels k0) chs
                = (chs ++ [new_voice_channel category (labels k0)])%list).
    { unfold reconcile_channels.
      rewrite (proj2 (find_index_none_existsb _ _ 0) (Hno k0 (or_introl eq_refl))).
      reflexivity. }
    rewrite E, IH.
    + rewrite <- app_assoc. reflexivity.
    + now inversion Hnd.
    + intros k Hin. rewrite existsb_app, (Hno k (or_intror Hin)). simpl.
      rewrite orb_false_r.
      apply (other_key_label category k0 (texts k0) (labels k0) (labels_eq k0)
               k (new_voice_channel category (labels k0))); [|reflexivity].
      destruct (channel_key_eqb k k0) eqn:Hk; [|reflexivity].
      apply channel_key_eqb_eq in Hk. subst k0. inversion Hnd. contradiction.
Qed.

End CycleChannels.

Lemma matches_lock_one (category c : nat) (k : channel_key) (ch : channel) :
  matches category k (lock_one c ch) = matches category k ch.
Proof. unfold lock_one. destruct (is_voice_in c ch); reflexivity. Qed.

Lemma lock_one_idem (c : nat) (ch : channel) :
  lock_one c (lock_one c ch) = lock_one c ch.
Proof.
  unfold lock_one. destruct (is_voice_in c ch) eqn:E.
  - replace (is_voice_in c (deny_connect ch)) with true; reflexivity.
  - now rewrite E.
Qed.

Lemma find_lock_one (category c : nat) (k : channel_key) (chs : list channel) :
  find (matches category k) (map (lock_one c) chs)
  = option_map (lock_one c) (find (matches category k) chs).
Proof.
  induction chs as [|x r IH]; simpl; [reflexivity|].
  rewrite matches_lock_one. destruct (matches category k x); [reflexivity|exact IH].
Qed.

Lemma count_lock_one (category c : nat) (k : channel_key) (chs : list channel) :
  count_matching category k (map (lock_one c) chs) = count_matching category k chs.
Proof.
  unfold count_matching. induction chs as [|x r IH]; simpl; [reflexivity|].
  rewrite matches_lock_one. destruct (matches category k x); simpl; now rewrite IH.
Qed.

Lemma settled_lock_one (category c : nat) (labels : channel_key -> string)
    (chs : list channel) (k : channel_key) :
  settled category labels chs k ->
  settled category labels (map (lock_one c) chs) k.
Proof.
  intros (ch & Hf & Hn). exists (lock_one c ch).
  rewrite find_lock_one, Hf. split; [reflexivity|].
  rewrite <- Hn. unfold lock_one. destruct (is_voice_in c ch); reflexivity.
Qed.

Lemma every_key_listed (k : channel_key) :
  existsb (channel_key_eqb k) all_keys = true.
Proof. destruct k; reflexivity. Qed.

Lemma all_keys_distinct : NoDup all_keys.
Proof.
  unfold all_keys.
  repeat (apply NoDup_cons;
          [simpl; intros H;
           repeat (destruct H as [H|H]; [discriminate H|]); destruct H|]).
  apply NoDup_nil.
Qed.

Lemma target_category_after (g : guild) :
  find_index (fun n => (n =? category_name)%string) (categories_after g) 0
  = Some (target_category g).
Proof.
  unfold categories_after, target_category.
  destruct (find_index _ (categories g) 0) as [i|] eqn:E; [exact E|].
  rewrite (find_index_app_new _ _ _ 0 E); [reflexivity|].
  apply String.eqb_refl.
Qed.

Section CycleGuild.

Variable float_repr : float -> string.
Variable container_str : pyval -> string.

Lemma cycle_labels_eq (n : Z) (st : stats) (k : channel_key) :
  cycle_labels float_repr container_str n st k
  = CHANNEL_KEYS k
    ++ (" " ++ py_str float_repr container_str (value_of (format_int_grouped n) st k)).
Proof. reflexivity. Qed.

(** The guild of a complete cycle is a fixed point of that cycle. *)
Lemma cycle_guild_idem (n : Z) (st : stats) (g : guild) :
  cycle_guild float_repr container_str n st
    (cycle_guild float_repr container_str n st g)
  = cycle_guild float_repr container_str n st g.
Proof.
  unfold cycle_guild at 1.
  assert (Ht : target_category (cycle_guild float_repr container_str n st g)
               = target_category g).
  { unfold target_category at 1. simpl. rewrite target_category_after. reflexivity. }
  assert (Hc : categories_after (cycle_guild float_repr container_str n st g)
               = categories_after g).
  { unfold categories_after at 1. simpl. rewrite target_category_after. reflexivity. }
  rewrite Ht, Hc.
  change (channels (cycle_guild float_repr container_str n st g))
    with (map (lock_one (target_category g))
            (reconcile_keys (target_category g)
               (cycle_labels float_repr container_str n st) all_keys (channels g))).
  change (member_count (cycle_guild float_repr container_str n st g))
    with (member_count g).
  unfold cycle_guild. f_equal.
  set (L := cycle_labels float_repr container_str n st).
  set (c := target_category g).
  assert (Hs : forall k,
             settled c L (map (lock_one c) (reconcile_keys c L all_keys (channels g))) k).
  { intros k. apply settled_lock_one.
    apply (reconcile_keys_settles c L _ (cycle_labels_eq n st)).
    left. apply every_key_listed. }
  rewrite (settled_keys_fixed c L all_keys _ Hs).
  rewrite map_map. apply map_ext. intros ch. apply lock_one_idem.
Qed.

End CycleGuild.


(** * Further properties: what a cycle keeps *)

Lemma one_per_key_refl (category : nat) (w : world) : one_per_key category w w.
Proof. intros k. lia. Qed.

Lemma one_per_key_trans (category : nat) (a b c : world) :
  one_per_key category a b -> one_per_key category b c -> one_per_key category a c.
Proof. intros H1 H2 k. specialize (H1 k). specialize (H2 k). lia. Qed.

Lemma count_update_nth (category : nat) (k : channel_key)
    (f : channel -> channel) (i : nat) (chs : list channel) :
  (forall ch, matches category k (f ch) = matches category k ch) ->
  count_matching category k (update_nth i f chs) = count_matching category k chs.
Proof.
  intros Hf. unfold count_matching. revert i.
  induction chs as [|x r IH]; intros [|i]; simpl; try reflexivity.
  - rewrite Hf. destruct (matches category k x); reflexivity.
  - destruct (matches category k x); simpl; now rewrite IH.
Qed.

Lemma reconcile_adds (category : nat) (key : channel_key) (label : string)
    (chs : list channel) (i : nat) (ch : channel) :
  (List.length chs <= i)%nat ->
  nth_error (reconcile_channels category key label chs) i = Some ch ->
  is_voice_in category ch = true.
Proof.
  unfold reconcile_channels.
  destruct (find_index (matches category key) chs 0) as [j|]; intros Hi Hn.
  - assert (nth_error (update_nth j (rename label) chs) i <> None) as N by congruence.
    apply nth_error_Some in N. rewrite length_update_nth in N. lia.
  - assert (i = List.length chs) as ->.
    { assert (nth_error (chs ++ [new_voice_channel category label]) i <> None)
        as N by congruence.
      apply nth_error_Some in N. rewrite length_app in N. simpl in N. lia. }
    rewrite nth_error_app2, Nat.sub_diag in Hn by lia. injection Hn as <-.
    unfold is_voice_in. simpl. now rewrite Nat.eqb_refl.
Qed.

Section CycleKeeps.

Variable float_repr : float -> string.
Variable container_str : pyval -> string.
Variable float_of_str : string -> option float.
Variable category : nat.

Lemma adds_same_channels (w w' : world) :
  channels (w_guild w') = channels (w_guild w) -> adds category 0 w w'.
Proof.
  intros E. unfold adds. rewrite E. split; [lia|].
  intros i ch Hi Hn.
  assert (nth_error (channels (w_guild w)) i <> None) as N by congruence.
  apply nth_error_Some in N. lia.
Qed.

Lemma adds_same_length (w w' : world) :
  List.length (channels (w_guild w')) = List.length (channels (w_guild w)) ->
  adds category 0 w w'.
Proof.
  intros E. unfold adds. rewrite E. split; [lia|].
  intros i ch Hi Hn.
  assert (nth_error (channels (w_guild w')) i <> None) as N by congruence.
  apply nth_error_Some in N. lia.
Qed.

Lemma adds_trans (n1 n2 : nat) (a b c : world) :
  steady category b c -> adds category n1 a b -> adds category n2 b c ->
  adds category (n1 + n2) a c.
Proof.
  intros [_ _ Hkeep _ _] [L1 N1] [L2 N2]. split; [lia|].
  intros i ch Hi Hn.
  destruct (Nat.lt_ge_cases i (List.length (channels (w_guild b)))) as [Hlt|Hge].
  - destruct (nth_error (channels (w_guild b)) i) as [chb|] eqn:Hb.
    + destruct (Hkeep i chb Hb) as (ch' & Hi' & K & G & _).
      assert (ch' = ch) by congruence. subst ch'.
      rewrite (is_voice_in_same category ch chb K G). apply (N1 i chb Hi Hb).
    + apply nth_error_None in Hb. lia.
  - apply (N2 i ch Hge Hn).
Qed.

Lemma adds_seq (m k : M unit) (n1 n2 : nat) :
  returns m ->
  (forall w, adds category n1 w (snd (m w))) ->
  (forall w, steady category w (snd (k w))) ->
  (forall w, adds category n2 w (snd (k w))) ->
  forall w, adds category (n1 + n2) w (snd (bind m (fun _ => k) w)).
Proof.
  intros Hr H1 Hs H2 w.
  rewrite (bind_ok m _ w tt (returns_unit m w Hr)).
  apply (adds_trans n1 n2 w (snd (m w))); auto.
Qed.

Lemma update_channel_adds (key : channel_key) (value : pyval) (w : world) :
  adds category 1 w
    (snd (update_channel float_repr container_str category key value w)).
Proof.
  destruct (update_channel_outcome float_repr container_str category key value w)
    as [E|[E|E]].
  - destruct (adds_same_channels w _ E) as [L N]. split; [lia|exact N].
  - unfold adds. rewrite E. split; [apply reconcile_channels_length|].
    intros i ch. apply reconcile_adds.
  - unfold adds. rewrite E. split; [apply reconcile_channels_length|].
    intros i ch. apply reconcile_adds.
Qed.

Lemma lock_channels_adds (w : world) :
  adds category 0 w (snd (lock_channels category w)).
Proof.
  apply adds_same_length.
  apply (locking_length _ _ (lock_channels_locking category w)).
Qed.

Lemma seq_steady (m k : M unit) :
  keeps (steady category) m -> keeps (steady category) k ->
  keeps (steady category) (bind m (fun _ => k)).
Proof.
  intros Hm Hk. apply (keeps_bind _ (steady_trans category)); auto.
Qed.

Lemma updates_then_lock_adds (m : string) (st : stats) (w : world) :
  adds category 8 w
    (snd (updates_then_lock float_repr container_str category m st w)).
Proof.
  unfold updates_then_lock.
  pose proof (update_channel_steady float_repr container_str category) as US.
  pose proof (update_channel_returns float_repr container_str category) as UR.
  pose proof update_channel_adds as UA.
  pose proof (sleep_steady category) as SS.
  pose proof (lock_channels_steady category) as LS.
  assert (SA : forall w, adds category 0 w (snd (sleep w))).
  { intros x. apply adds_same_channels. reflexivity. }
  assert (SR : returns sleep) by apply returns_ret.
  change 8%nat with (1 + (0 + (1 + (0 + (1 + (0 + (1 + (0 + (1 + (0 + (1 + (0
                      + (1 + (0 + (1 + 0)))))))))))))))%nat.
  repeat (apply adds_seq;
          [first [apply UR|exact SR]
          |first [apply UA|exact SA]
          |repeat (apply seq_steady; [first [apply US|exact SS]|]); exact LS
          |]).
  apply lock_channels_adds.
Qed.

Lemma set_channel_private_one_per_key (ref : nat) :
  keeps (one_per_key category) (set_channel_private category ref).
Proof.
  intros w k. rewrite set_channel_private_run.
  destruct (nth_error (channels (w_guild w)) ref) as [ch|]; [|cbn [snd]; lia].
  destruct (is_voice_in category ch); [|cbn [snd]; lia].
  destruct (pop_fault (w_faults w)) as [[|] r];
    unfold with_channels; cbn [snd fst w_guild channels]; [lia|].
  rewrite count_update_nth; [lia|]. intros c. reflexivity.
Qed.

Lemma lock_channels_one_per_key :
  keeps (one_per_key category) (lock_channels category).
Proof.
  apply (keeps_bind _ (one_per_key_trans category)).
  - intros w k. rewrite voice_channels_run. cbn [snd w_guild]. lia.
  - intros chs.
    apply (keeps_for_each _ (one_per_key_refl category) (one_per_key_trans category)).
    apply set_channel_private_one_per_key.
Qed.

Lemma updates_then_lock_one_per_key (m : string) (st : stats) :
  keeps (one_per_key category)
    (updates_then_lock float_repr container_str category m st).
Proof.
  unfold updates_then_lock.
  repeat (apply (keeps_bind _ (one_per_key_trans category));
          [first [apply update_channel_one_per_key
                 |apply (keeps_ret _ (one_per_key_refl category))]
          |intros _]).
  apply lock_channels_one_per_key.
Qed.

End CycleKeeps.

Section MoreCycle.

Variable float_repr : float -> string.
Variable container_str : pyval -> string.
Variable float_of_str : string -> option float.

(** X6.  A complete cycle is idempotent: when no call fails, the fetch
    phase returns and the member count is a number other than zero, a
    second cycle with the same fetched values leaves the guild exactly as
    the first one left it; no category and no channel is added, no name
    and no permission changes. *)
Theorem cycle_idempotent (s : session) (g : guild) (st : stats) (n : Z) :
  fetch_stats float_of_str s = Ok st ->
  member_count g = Some n -> n <> 0 ->
  let cycle := update_stats_channels float_repr container_str float_of_str s in
  let g1 := w_guild (snd (cycle (fresh_world g))) in
  w_guild (snd (cycle (fresh_world g1))) = g1.
Proof.
  intros Hst Hmc Hn cycle g1.
  assert (E1 : g1 = cycle_guild float_repr container_str n st g).
  { apply (cycle_no_faults float_repr container_str float_of_str s
             (fresh_world g) st n); auto. }
  unfold cycle.
  rewrite (cycle_no_faults float_repr container_str float_of_str s
             (fresh_world g1) st n); auto.
  - simpl. rewrite E1. apply cycle_guild_idem.
  - simpl. rewrite E1. exact Hmc.
Qed.

(** X7.  One resource per key.  Whatever the services answer and whatever
    platform calls fail, a cycle never lowers the number of resources of
    a key in its category and never raises it above one unless it already
    was.  A complete cycle in which no call fails leaves every key with
    at least one resource, so exactly one when it had at most one. *)
Theorem cycle_keeps_one_per_key (s : session) (w : world) :
  let w' := snd (update_stats_channels float_repr container_str float_of_str s w) in
  let category := target_category (w_guild w) in
  (forall k,
      (count_matching category k (channels (w_guild w))
       <= count_matching category k (channels (w_guild w'))
       <= Nat.max 1 (count_matching category k (channels (w_guild w))))%nat)
  /\ (w_faults w = [] ->
      forall st n,
        fetch_stats float_of_str s = Ok st ->
        member_count (w_guild w) = Some n -> n <> 0 ->
        forall k,
          count_matching category k (channels (w_guild w'))
          = Nat.max 1 (count_matching category k (channels (w_guild w)))).
Proof.
  intros w' category. split.
  - intros k.
    pose proof (cycle_from_category float_repr container_str float_of_str s w)
      as Hshape.
    destruct (resolve_category_effect w) as (Hch & _).
    fold w' category in Hshape. simpl in Hshape.
    destruct Hshape as [->|(w1 & -> & [->|(_ & m & st & _ & _ & ->)])].
    + lia.
    + rewrite Hch. lia.
    + pose proof (updates_then_lock_one_per_key float_repr container_str
                    category m st (snd (resolve_category w)) k) as H.
      rewrite Hch in H. exact H.
  - intros Hf st n Hst Hmc Hn k. unfold w'.
    rewrite (cycle_no_faults float_repr container_str float_of_str s w st n
               Hf Hst Hmc Hn).
    unfold cycle_guild. cbn [channels]. fold category.
    rewrite count_lock_one.
    rewrite (reconcile_keys_counts category _ _
               (cycle_labels_eq float_repr container_str n st)).
    rewrite every_key_listed. reflexivity.
Qed.

(** X8.  The first complete cycle on a category without resources: when no
    call fails and no key has a resource yet, the cycle adds exactly
    eight voice channels after the existing ones, in the order members,
    difficulty, hashrate, block, supply, price, volume, market cap, each
    named with its label and denied [connect]; the other channels keep
    their order. *)
Theorem first_cycle_creates_eight (s : session) (g : guild) (st : stats) (n : Z) :
  fetch_stats float_of_str s = Ok st ->
  member_count g = Some n -> n <> 0 ->
  (forall k, existsb (matches (target_category g) k) (channels g) = false) ->
  channels
    (w_guild (snd (update_stats_channels float_repr container_str float_of_str s
                     (fresh_world g))))
  = (map (lock_one (target_category g)) (channels g)
     ++ map (fun k =>
               deny_connect
                 (new_voice_channel (target_category g)
                    (label_of float_repr container_str k
                       (value_of (format_int_grouped n) st k))))
          all_keys)%list.
Proof.
  intros Hst Hmc Hn Hno.
  rewrite (cycle_no_faults float_repr container_str float_of_str s
             (fresh_world g) st n); auto.
  unfold cycle_guild. cbn [channels fresh_world w_guild].
  rewrite (reconcile_keys_fresh (target_category g) _ _
             (cycle_labels_eq float_repr container_str n st) all_keys (channels g)
             all_keys_distinct (fun k _ => Hno k)).
  rewrite map_app, map_map. f_equal.
  apply map_ext. intros k. unfold lock_one, cycle_labels.
  replace (is_voice_in (target_category g) (new_voice_channel _ _)) with true;
    [reflexivity|].
  unfold is_voice_in. simpl. now rewrite Nat.eqb_refl.
Qed.

(** X9.  A cycle never deletes or moves a channel: whatever fails, every
    channel keeps its position, kind and category; at most eight channels
    are added, each a voice channel of the category of the cycle; and the
    member count is not touched. *)
Theorem cycle_never_deletes (s : session) (w : world) :
  let w' := snd (update_stats_channels float_repr container_str float_of_str s w) in
  let category := target_category (w_guild w) in
  (forall i ch,
      nth_error (channels (w_guild w)) i = Some ch ->
      exists ch',
        nth_error (channels (w_guild w')) i = Some ch'
        /\ ch_kind ch' = ch_kind ch /\ ch_category ch' = ch_category ch)
  /\ (List.length (channels (w_guild w))
      <= List.length (channels (w_guild w'))
      <= List.length (channels (w_guild w)) + 8)%nat
  /\ (forall i ch,
        (List.length (channels (w_guild w)) <= i)%nat ->
        nth_error (channels (w_guild w')) i = Some ch ->
        is_voice_in category ch = true)
  /\ member_count (w_guild w') = member_count (w_guild w).
Proof.
  intros w' category.
  pose proof (cycle_from_category float_repr container_str float_of_str s w)
    as Hshape.
  fold w' category in Hshape. simpl in Hshape.
  assert (Hres : channels (w_guild (snd (resolve_category w))) = channels (w_guild w)
                 /\ member_count (w_guild (snd (resolve_category w)))
                    = member_count (w_guild w)).
  { rewrite resolve_category_run. simpl.
    destruct (find_index _ (categories (w_guild w)) 0); simpl; [auto|].
    destruct (pop_fault (w_faults w)) as [[|] r]; simpl; auto. }
  destruct Hres as [Hch Hmc].
  assert (Hsame : channels (w_guild w') = channels (w_guild w) ->
                  member_count (w_guild w') = member_count (w_guild w) ->
                  (forall i ch,
                      nth_error (channels (w_guild w)) i = Some ch ->
                      exists ch',
                        nth_error (channels (w_guild w')) i = Some ch'
                        /\ ch_kind ch' = ch_kind ch
                        /\ ch_category ch' = ch_category ch)
                  /\ (List.length (channels (w_guild w))
                      <= List.length (channels (w_guild w'))
                      <= List.length (channels (w_guild w)) + 8)%nat
                  /\ (forall i ch,
                        (List.length (channels (w_guild w)) <= i)%nat ->
                        nth_error (channels (w_guild w')) i = Some ch ->
                        is_voice_in category ch = true)
                  /\ member_count (w_guild w') = member_count (w_guild w)).
  { intros E Em. rewrite E. repeat split; try lia; [eauto| |exact Em].
    intros i ch Hi Hn.
    assert (nth_error (channels (w_guild w)) i <> None) as N by congruence.
    apply nth_error_Some in N. lia. }
  destruct Hshape as [E|(w1 & -> & [E|(_ & m & st & _ & _ & E)])].
  - apply Hsame; rewrite E; reflexivity.
  - apply Hsame; rewrite E; assumption.
  - pose proof (updates_then_lock_steady float_repr container_str category m st
                  (snd (resolve_category w))) as [_ Hm Hkeep _ _].
    pose proof (updates_then_lock_adds float_repr container_str category m st
                  (snd (resolve_category w))) as [Hlen Hnew].
    rewrite <- E in Hm, Hkeep, Hlen, Hnew. rewrite Hch in Hkeep, Hlen, Hnew.
    split; [|split; [exact Hlen|split; [exact Hnew|congruence]]].
    intros i ch Hi. destruct (Hkeep i ch Hi) as (ch' & Hi' & K & G & _).
    exists ch'. auto.
Qed.

(** X10.  A hashrate that is a number but does not convert to a float (an
    integer too large) ends the cycle at once: the division raises
    outside every inner handler, the catch-all handler returns, and the
    world is untouched: no call is made, no category or channel is
    created or renamed.  It is the only way the fetch phase raises. *)
Theorem unconvertible_hashrate_stops_cycle (s : session) (w : world) :
  (forall e,
      is_number (hashrate_result s) = true ->
      as_float (hashrate_result s) = Raise e ->
      update_stats_channels float_repr container_str float_of_str s w = (Ok tt, w))
  /\ (forall e,
        fetch_stats float_of_str s = Raise e ->
        is_number (hashrate_result s) = true
        /\ as_float (hashrate_result s) = Raise e).
Proof.
  split.
  - intros e Hn Hf. rewrite update_stats_channels_run, fetch_stats_eq.
    unfold format_hashrate. rewrite Hn, Hf. reflexivity.
  - intros e H. rewrite fetch_stats_eq in H. unfold format_hashrate in H.
    destruct (is_number (hashrate_result s)); [|discriminate H].
    destruct (as_float (hashrate_result s)); simpl in H; [discriminate H|].
    injection H as ->. auto.
Qed.

End MoreCycle.

(** * Further properties: the fetched texts *)

Lemma format_f_converts (grouping : bool) (digits : nat) (v : pyval) :
  is_number v = true -> converts v = true ->
  exists t, format_f grouping digits v = Ok t.
Proof.
  unfold format_f. destruct v; try discriminate; simpl; intros _ H.
  - eexists. reflexivity.
  - destruct (float_of_int z); [eexists; reflexivity|discriminate H].
  - eexists. reflexivity.
Qed.

Lemma format_amount_converts (v : pyval) :
  converts v = true -> exists t, format_amount v = Ok t.
Proof.
  intros H. unfold format_amount. destruct (is_number v) eqn:E.
  - apply format_f_converts; assumption.
  - eexists. reflexivity.
Qed.

Lemma format_price_converts (p c : pyval) :
  converts p = true -> converts c = true -> exists t, format_price p c = Ok t.
Proof.
  intros Hp Hc. unfold format_price.
  destruct (is_number p) eqn:Ep.
  - destruct (format_f_converts false 6 p Ep Hp) as [tp ->]. simpl.
    destruct (is_number c) eqn:Ec; [|eexists; reflexivity].
    destruct (format_f_converts false 2 c Ec Hc) as [tc ->].
    destruct (ge_zero c); eexists; reflexivity.
  - simpl. destruct (is_number c) eqn:Ec; [|eexists; reflexivity].
    destruct (format_f_converts false 2 c Ec Hc) as [tc ->].
    destruct (ge_zero c); eexists; reflexivity.
Qed.

Lemma full_market_doc_block (s : session) (p v c ch : pyval) :
  market_block (with_coingecko s (ok_json (full_market_doc p v c ch)))
  = (tp <- format_price p ch ;;
     tv <- format_amount v ;;
     tc <- format_amount c ;;
     Ok {| price_display := PStr tp;
           volume_display := PStr tv;
           market_cap_display := PStr tc |})%res.
Proof. reflexivity. Qed.

Section FetchedTexts.

Variable float_of_str : string -> option float.


(** X12.  The three market texts share one handler.  For a document of the
    documented shape, when every value is absent, not a number, a float
    or an integer that converts, each text is decided by its own field:
    the price by price and change, the volume and the market cap each by
    its amount, a missing one shown as the sentinel beside the others.
    But when one of the numbers is an integer too large for a float, all
    three texts are the sentinel, the valid ones included. *)
Theorem market_texts_share_one_handler (s : session) (p v c ch : pyval) :
  let m := fetch_market (with_coingecko s (ok_json (full_market_doc p v c ch))) in
  (converts p = true -> converts v = true -> converts c = true ->
   converts ch = true ->
   m = Ok {| price_display := text_of (format_price p ch);
             volume_display := text_of (format_amount v);
             market_cap_display := text_of (format_amount c) |}
   /\ (is_number v = false -> volume_display (market_value
          (with_coingecko s (ok_json (full_market_doc p v c ch)))) = PStr NA)
   /\ (is_number c = false -> market_cap_display (market_value
          (with_coingecko s (ok_json (full_market_doc p v c ch)))) = PStr NA))
  /\ (converts p = false \/ converts v = false \/ converts c = false
      \/ (is_number ch = true /\ converts ch = false) ->
      m = Ok market_na).
Proof.
  intros m. unfold m, fetch_market. rewrite full_market_doc_block. split.
  - intros Hp Hv Hc Hch.
    destruct (format_price_converts p ch Hp Hch) as [tp Ep].
    destruct (format_amount_converts v Hv) as [tv Ev].
    destruct (format_amount_converts c Hc) as [tc Ec].
    unfold market_value. rewrite full_market_doc_block.
    rewrite Ep, Ev, Ec. simpl. split; [reflexivity|]. split.
    + intros Hn. unfold format_amount in Ev. rewrite Hn in Ev.
      injection Ev as <-. reflexivity.
    + intros Hn. unfold format_amount in Ec. rewrite Hn in Ec.
      injection Ec as <-. reflexivity.
  - assert (Hbad : forall g d x, converts x = false ->
                                 format_f g d x = Raise OverflowError
                                 /\ is_number x = true).
    { intros g d x H. destruct x; try discriminate H. unfold format_f. simpl in *.
      unfold float_of_int in *.
      destruct (binary_normalize prec emax z 0 false); try discriminate H;
        auto. }
    intros [H|[H|[H|[Hn H]]]].
    + destruct (Hbad false 6%nat p H) as [E N].
      unfold format_price. rewrite N, E. reflexivity.
    + destruct (Hbad true 0%nat v H) as [E N].
      unfold format_amount at 1. rewrite N, E.
      destruct (format_price p ch); reflexivity.
    + destruct (Hbad true 0%nat c H) as [E N].
      unfold format_amount at 2. rewrite N, E.
      destruct (format_price p ch); [|reflexivity].
      destruct (format_amount v); reflexivity.
    + destruct (Hbad false 2%nat ch H) as [E _].
      unfold format_price. rewrite Hn, E.
      destruct (is_number p); [destruct (format_f false 6 p)|]; simpl;
        try reflexivity; destruct (ge_zero ch); reflexivity.
Qed.

(** X13.  A price that is not available beside a change that is: when the
    change converts to a float, the text is the sentinel followed by the
    change in brackets, not the sentinel alone.  When the change is an
    integer too large for a float, formatting it raises, and the handler
    of the market block shows the sentinel alone for the three texts. *)
Theorem missing_price_keeps_change (s : session) (p v cap c : pyval) :
  is_number p = false ->
  (forall fc, as_float c = Ok fc ->
     format_price p c
     = Ok ("N/A (" ++ (if ge_zero c then "▲ +" else "▼ ")
           ++ format_float_f false 2 fc ++ "% 24h)"))
  /\ (forall e, is_number c = true -> as_float c = Raise e ->
        format_price p c = Raise e
        /\ fetch_market (with_coingecko s (ok_json (full_market_doc p v cap c)))
           = Ok market_na)
  /\ format_price PNone (PFloat float_2_0) = Ok "N/A (▲ +2.00% 24h)"
  /\ format_price (PStr "soon") (PFloat float_m1_5) = Ok "N/A (▼ -1.50% 24h)".
Proof.
  intros Hp. split; [|split; [|split]].
  - intros fc Hc. unfold format_price, format_f.
    rewrite Hp, (as_float_number _ _ Hc), Hc. simpl.
    destruct (ge_zero c); simpl; rewrite append_assoc; reflexivity.
  - intros e Hn Hc.
    assert (E : format_price p c = Raise e).
    { unfold format_price, format_f. rewrite Hp, Hn, Hc. simpl.
      destruct (ge_zero c); reflexivity. }
    split; [exact E|].
    unfold fetch_market. rewrite full_market_doc_block, E. reflexivity.
  - vm_compute. reflexivity.
  - vm_compute. reflexivity.
Qed.

(** X14.  Documents the market block cannot use.  A transport error, a body
    that does not decode, a document that is not an object, a
    [market_data] entry that is not an object, and an amount entry that
    is a bare value instead of an object all end in the handler: the
    three texts are the sentinel.  A document without [market_data] gets
    there without raising: every field is looked up in an empty object. *)
Theorem unusable_market_document (s : session) :
  fetch_market (with_coingecko s (Raise ClientError)) = Ok market_na
  /\ (forall st, fetch_market
                  (with_coingecko s (Ok {| status := st; json := Raise DecodeError |}))
                = Ok market_na)
  /\ (forall doc, (forall d, doc <> PDict d) ->
                  fetch_market (with_coingecko s (ok_json doc)) = Ok market_na)
  /\ (forall d md, dict_get d "market_data" = Some md ->
                   (forall m, md <> PDict m) ->
                   fetch_market (with_coingecko s (ok_json (PDict d))) = Ok market_na)
  /\ (forall d, dict_get d "market_data" = None ->
                market_block (with_coingecko s (ok_json (PDict d))) = Ok market_na)
  /\ (forall x rest, truthy x = true -> (forall m, x <> PDict m) ->
                     fetch_market
                       (with_coingecko s
                          (ok_json (PDict [("market_data",
                                            PDict (("current_price", x) :: rest))])))
                     = Ok market_na).
Proof.
  split; [reflexivity|]. split; [reflexivity|].
  split; [|split; [|split]].
  - intros doc H. unfold fetch_market, market_block. simpl.
    destruct doc; try reflexivity. destruct (H d eq_refl).
  - intros d md Hd H. unfold fetch_market, market_block. simpl. rewrite Hd. simpl.
    destruct md; try reflexivity. destruct (H d0 eq_refl).
  - intros d Hd. unfold market_block. simpl. rewrite Hd. reflexivity.
  - intros x rest Ht H. unfold fetch_market, market_block. simpl.
    unfold py_or. rewrite Ht.
    destruct x; try reflexivity. destruct (H d eq_refl).
Qed.

(** X15.  Documents the supply block cannot use.  The block reads the
    [coinsupply] field of an object: a document that is a bare number, a
    text or a list, an object without the field, and a field that is
    null all give the sentinel; a field that is a text is converted as
    [float] converts it, and gives the sentinel when it is not a
    number. *)
Theorem supply_needs_object (s : session) :
  (forall doc, (forall d, doc <> PDict d) ->
               fetch_supply float_of_str (with_supply s (ok_json doc)) = Ok (PStr NA))
  /\ (forall d, dict_get d "coinsupply" = None ->
                fetch_supply float_of_str (with_supply s (ok_json (PDict d)))
                = Ok (PStr NA))
  /\ fetch_supply float_of_str
       (with_supply s (ok_json (PDict [("coinsupply", PNone)]))) = Ok (PStr NA)
  /\ (forall t,
        fetch_supply float_of_str
          (with_supply s (ok_json (PDict [("coinsupply", PStr t)])))
        = Ok (PStr match float_of_str t with
                   | Some f => format_float_f true 2 (fdiv f f1e9) ++ "B SOTER"
                   | None => NA
                   end)).
Proof.
  split; [|split; [|split]].
  - intros doc H. unfold fetch_supply, supply_block. simpl.
    destruct doc; try reflexivity. destruct (H d eq_refl).
  - intros d Hd. unfold fetch_supply, supply_block. simpl. rewrite Hd. reflexivity.
  - reflexivity.
  - intros t. unfold fetch_supply, supply_block. simpl.
    destruct (float_of_str t); reflexivity.
Qed.

End FetchedTexts.


(** * Further properties: the category across cycles *)

(** X16.  The category is created once and reused: after a resolution that
    returned, the guild has a category with exactly the fixed name at the
    position returned and none before it, and the next resolution returns
    the same category after the lookup alone, with no creation and no
    change to the guild or the oracle. *)
Theorem category_is_reused (w : world) (c : nat) :
  fst (resolve_category w) = Ok c ->
  let w1 := snd (resolve_category w) in
  nth_error (categories (w_guild w1)) c = Some category_name
  /\ (forall j name,
        (j < c)%nat -> nth_error (categories (w_guild w1)) j = Some name ->
        name <> category_name)
  /\ resolve_category w1
     = (Ok c, {| w_guild := w_guild w1;
                 w_faults := w_faults w1;
                 w_log := (w_log w1 ++ [EvFindCategory category_name])%list |}).
Proof.
  intros Hres w1.
  assert (Hfind : find_index (fun n => (n =? category_name)%string)
                    (categories (w_guild w1)) 0 = Some c).
  { unfold w1. rewrite resolve_category_run in *. simpl in *.
    destruct (find_index _ (categories (w_guild w)) 0) as [i|] eqn:E; simpl in *.
    - injection Hres as <-. exact E.
    - destruct (pop_fault (w_faults w)) as [[|] r]; simpl in *; [discriminate|].
      injection Hres as <-.
      rewrite (find_index_app_new _ _ _ 0 E); [reflexivity|apply String.eqb_refl]. }
  destruct (find_index_found _ _ _ _ Hfind) as [_ (x & Hx & Hp)].
  rewrite Nat.sub_0_r in Hx. apply String.eqb_eq in Hp. subst x.
  split; [exact Hx|]. split.
  - intros j name Hj Hn E.
    pose proof (find_index_least _ _ _ _ Hfind j name ltac:(lia) Hn) as F.
    simpl in F. rewrite E, String.eqb_refl in F. discriminate.
  - rewrite resolve_category_run. simpl. rewrite Hfind. reflexivity.
Qed.

(** * Further properties: the task over all guilds *)

Section Task.

Variable float_repr : float -> string.
Variable container_str : pyval -> string.
Variable float_of_str : string -> option float.

Lemma cycle_keeps_oracle_empty (s : session) (w : world) :
  w_faults w = [] ->
  w_faults (snd (update_stats_channels float_repr container_str float_of_str s w))
  = [].
Proof.
  intros Hf.
  pose proof (cycle_from_category float_repr container_str float_of_str s w)
    as Hshape.
  destruct (resolve_category_effect w) as (_ & Hok & _).
  destruct (Hok Hf) as [Hf1 _]. simpl in Hshape.
  destruct Hshape as [->|(w1 & -> & [->|(_ & m & st & _ & _ & ->)])]; auto.
  apply (steady_faults _ _ _
           (updates_then_lock_steady float_repr container_str _ m st _)).
  exact Hf1.
Qed.

Lemma update_guilds_spec (sessions : nat -> session) (gs : list guild) (i : nat)
    (faults : list bool) (log : list event) :
  let cycle := fun j =>
    update_stats_channels float_repr container_str float_of_str (sessions j) in
  let r := update_guilds cycle i gs faults log in
  fst r = Ok tt
  /\ List.length (cl_guilds (snd r)) = List.length gs
  /\ (faults = [] -> cl_faults (snd r) = [])
  /\ forall j g,
       nth_error gs j = Some g ->
       exists f l,
         nth_error (cl_guilds (snd r)) j
         = Some (w_guild (snd (cycle (i + j)%nat
                                 {| w_guild := g; w_faults := f; w_log := l |})))
         /\ (faults = [] -> f = []).
Proof.
  intros cycle. revert i faults log.
  induction gs as [|g0 gs IH]; intros i faults log.
  - simpl. repeat split; auto. intros j g H. destruct j; discriminate H.
  - simpl.
    pose proof (update_stats_channels_run float_repr container_str float_of_str
                  (sessions i) {| w_guild := g0; w_faults := faults; w_log := log |})
      as Hrun.
    fold (cycle i) in Hrun.
    destruct (cycle i {| w_guild := g0; w_faults := faults; w_log := log |})
      as [r0 w0] eqn:Hc.
    injection Hrun as -> Hw0.
    specialize (IH (S i) (w_faults w0) (w_log w0)).
    destruct (update_guilds cycle (S i) gs (w_faults w0) (w_log w0)) as [r c].
    simpl in *. destruct IH as (Hr & Hl & Hf & Hj).
    assert (Hf0 : faults = [] -> w_faults w0 = []).
    { intros E.
      pose proof (cycle_keeps_oracle_empty (sessions i)
                    {| w_guild := g0; w_faults := faults; w_log := log |} E) as K.
      fold (cycle i) in K. rewrite Hc in K. exact K. }
    split; [exact Hr|]. split; [now rewrite Hl|]. split; [auto|].
    intros [|j] g Hn; simpl in Hn.
    + injection Hn as <-. exists faults, log. rewrite Nat.add_0_r, Hc. auto.
    + destruct (Hj j g Hn) as (f & l & E & Hfl).
      exists f, l. replace (i + S j)%nat with (S i + j)%nat by lia. auto.
Qed.

(** X17.  One firing of the task visits every guild in turn and never
    raises: the client has as many guilds after as before; the guild at
    each position ends as its own cycle leaves it, started from its own
    state, whatever the other guilds are and however their cycles end (a
    guild whose cycle stops early does not hold up the ones after it);
    and when no call fails, a guild with a member count other than zero
    whose fetch phase returned ends as the complete cycle of that guild
    alone. *)
Theorem task_visits_every_guild (sessions : nat -> session) (c : client) :
  let cycle := fun j =>
    update_stats_channels float_repr container_str float_of_str (sessions j) in
  let r := update_stats_task float_repr container_str float_of_str sessions c in
  fst r = Ok tt
  /\ List.length (cl_guilds (snd r)) = List.length (cl_guilds c)
  /\ (forall j g,
        nth_error (cl_guilds c) j = Some g ->
        exists f l,
          nth_error (cl_guilds (snd r)) j
          = Some (w_guild (snd (cycle j {| w_guild := g; w_faults := f; w_log := l |}))))
  /\ (cl_faults c = [] ->
      forall j g st n,
        nth_error (cl_guilds c) j = Some g ->
        fetch_stats float_of_str (sessions j) = Ok st ->
        member_count g = Some n -> n <> 0 ->
        nth_error (cl_guilds (snd r)) j
        = Some (cycle_guild float_repr container_str n st g)).
Proof.
  intros cycle r.
  destruct (update_guilds_spec sessions (cl_guilds c) 0 (cl_faults c) (cl_log c))
    as (Hr & Hl & _ & Hj).
  fold cycle in Hr, Hl, Hj.
  split; [exact Hr|]. split; [exact Hl|]. split.
  - intros j g Hn. destruct (Hj j g Hn) as (f & l & E & _). exists f, l. exact E.
  - intros Hf j g st n Hn Hst Hmc Hne.
    destruct (Hj j g Hn) as (f & l & E & Hfl). simpl in E.
    unfold r, update_stats_task. fold cycle. rewrite E. f_equal.
    unfold cycle.
    rewrite (cycle_no_faults float_repr container_str float_of_str (sessions j)
               {| w_guild := g; w_faults := f; w_log := l |} st n); auto.
Qed.

End Task.

(** * Further properties: numerals in the labels *)

Section Numerals.

Variable float_repr : float -> string.
Variable container_str : pyval -> string.

(** X18.  The member count in its label: for a count other than zero the
    text is the decimal numeral with thousands separators.  Taking the
    commas out gives back the plain numeral, sign included; and reading
    the digits from the right, every fourth character is a comma and
    every other one a digit: 1234567 gives [1,234,567], 1000 gives
    [1,000], 999 gives [999]. *)
Theorem member_text_round_trip (n : Z) :
  n <> 0 ->
  format_member_count (member_count_or_na (Some n)) = Ok (format_int_grouped n)
  /\ remove_commas (format_int_grouped n) = py_str float_repr container_str (PInt n)
  /\ (exists body,
        format_int_grouped n = (if n <? 0 then "-" else "") ++ body
        /\ forall i c,
             String.get i (string_rev body) = Some c ->
             ((i mod 4 = 3)%nat -> c = ","%char)
             /\ ((i mod 4 <> 3)%nat -> is_digit c = true))
  /\ format_int_grouped 1234567 = "1,234,567"
  /\ format_int_grouped 1000 = "1,000"
  /\ format_int_grouped 999 = "999"
  /\ format_int_grouped 100000 = "100,000"
  /\ format_int_grouped (-1234) = "-1,234".
Proof.
  intros Hn. split; [|split; [|split]].
  - unfold member_count_or_na, py_or. simpl.
    destruct (n =? 0) eqn:E; [apply Z.eqb_eq in E; contradiction|reflexivity].
  - unfold format_int_grouped. simpl.
    rewrite remove_commas_app, remove_commas_group_thousands, nat_digits_no_comma.
    destruct (n <? 0); reflexivity.
  - exists (group_thousands (nat_digits (Z.abs n))). split; [reflexivity|].
    intros i c. unfold group_thousands. rewrite string_rev_involutive.
    apply (group3_positions _ _ (Nat.le_refl _)).
    unfold string_rev. rewrite all_digits_rev_onto, nat_digits_digits.
    reflexivity.
  - repeat split; vm_compute; reflexivity.
Qed.

(** X19.  An integer block count or difficulty is shown as it is: the label
    is the prefix, a space and the plain decimal numeral, with no
    thousands separator, unlike the member count. *)
Theorem integer_result_shown_plain (z : Z) :
  z <> 0 ->
  label_of float_repr container_str block (or_na (PInt z))
  = "Block: " ++ (if z <? 0 then "-" else "") ++ nat_digits (Z.abs z)
  /\ label_of float_repr container_str difficulty_soterg (or_na (PInt z))
     = "Difficulty (SoterG): " ++ (if z <? 0 then "-" else "") ++ nat_digits (Z.abs z)
  /\ remove_commas (py_str float_repr container_str (or_na (PInt z)))
     = py_str float_repr container_str (or_na (PInt z))
  /\ label_of float_repr container_str block (or_na (PInt 1234567))
     = "Block: 1234567".
Proof.
  intros Hz.
  assert (E : or_na (PInt z) = PInt z).
  { unfold or_na, py_or. simpl.
    destruct (z =? 0) eqn:E; [apply Z.eqb_eq in E; contradiction|reflexivity]. }
  rewrite E. repeat split.
  simpl. rewrite remove_commas_app, nat_digits_no_comma.
  destruct (z <? 0); reflexivity.
Qed.

End Numerals.

End MoreWithUnicode.

(** * The further properties at sample inputs *)

Section MoreSamples.

#[local] Existing Instance sample_unicode.

Lemma norm_idempotent_witness :
  norm (norm "  Members : 1,234 ") = norm "  Members : 1,234 ".
Proof.
  apply (proj2 (proj2 (proj2 (norm_idempotent "  Members : 1,234 ") eq_refl))).
Defined.

Lemma norm_ignores_case_and_spaces_witness :
  norm ("24h" ++ " " ++ "Volume:") = norm ("24h" ++ "Volume:").
Proof.
  apply (proj2 (proj2 (norm_ignores_case_and_spaces "24h" "Volume:"
                         eq_refl eq_refl))).
Defined.

Lemma get_or_create_channel_finds_first_witness :
  (exists i ch,
      fst (get_or_create_channel 0 block (fresh_world kelvin_guild)) = Ok i
      /\ nth_error (channels kelvin_guild) i = Some ch
      /\ matches 0 block ch = true
      /\ w_guild (snd (get_or_create_channel 0 block (fresh_world kelvin_guild)))
         = kelvin_guild)
  /\ fst (get_or_create_channel 1 members (fresh_world sample_guild)) = Ok 3%nat.
Proof.
  split.
  - destruct (proj1 (get_or_create_channel_finds_first (u := sample_unicode)
                       0 block
                       (fresh_world kelvin_guild))
                ltac:(vm_compute; reflexivity))
      as (i & ch & Hr & Hn & Hm & _ & Hg & _).
    exists i, ch. auto.
  - apply (proj1 (proj2 (get_or_create_channel_finds_first
                           (u := sample_unicode) 1 members
                           (fresh_world sample_guild))
                    ltac:(vm_compute; reflexivity))).
    reflexivity.
Defined.

Lemma update_channel_never_duplicates_witness :
  count_matching 0 members
    (channels
       (w_guild
          (snd (update_channel sample_float_repr sample_container_str 0 block
                  (PInt 9)
                  {| w_guild := kelvin_guild; w_faults := [true]; w_log := [] |}))))
  = count_matching 0 members (channels kelvin_guild).
Proof.
  apply (proj1 (proj2 (proj2
           (update_channel_never_duplicates sample_float_repr sample_container_str
              0 block (PInt 9)
              {| w_guild := kelvin_guild; w_faults := [true]; w_log := [] |})))).
  reflexivity.
Defined.

Lemma failed_rename_is_repaired_witness :
  w_guild
    (snd (update_channel sample_float_repr sample_container_str 1 block (PInt 5)
            (snd (update_channel sample_float_repr sample_container_str 1 block
                    (PInt 5)
                    {| w_guild := sample_guild;
                       w_faults := [false; true];
                       w_log := [] |}))))
  = w_guild
      (snd (update_channel sample_float_repr sample_container_str 1 block (PInt 5)
              (fresh_world sample_guild))).
Proof.
  apply (proj2 (failed_rename_is_repaired sample_float_repr sample_container_str
                  1 block (PInt 5) sample_guild [] eq_refl)).
Defined.

Lemma cycle_idempotent_witness :
  w_guild
    (snd (update_stats_channels sample_float_repr sample_container_str
            no_float_of_str (sample_session (PInt 1))
            (fresh_world
               (w_guild
                  (snd (update_stats_channels sample_float_repr
                          sample_container_str no_float_of_str
                          (sample_session (PInt 1)) (fresh_world sample_guild)))))))
  = w_guild
      (snd (update_stats_channels sample_float_repr sample_container_str
              no_float_of_str (sample_session (PInt 1)) (fresh_world sample_guild))).
Proof.
  apply (cycle_idempotent sample_float_repr sample_container_str no_float_of_str
           (sample_session (PInt 1)) sample_guild
           (stats_of (fetch_stats no_float_of_str (sample_session (PInt 1))))
           1234).
  - vm_compute. reflexivity.
  - reflexivity.
  - discriminate.
Defined.

Lemma cycle_keeps_one_per_key_witness :
  count_matching 1 supply
    (channels
       (w_guild
          (snd (update_stats_channels sample_float_repr sample_container_str
                  no_float_of_str (sample_session (PInt 1))
                  (fresh_world sample_guild)))))
  = 1%nat.
Proof.
  apply (proj2
           (cycle_keeps_one_per_key sample_float_repr sample_container_str
              no_float_of_str (sample_session (PInt 1)) (fresh_world sample_guild))
           eq_refl
           (stats_of (fetch_stats no_float_of_str (sample_session (PInt 1))))
           1234).
  - vm_compute. reflexivity.
  - reflexivity.
  - discriminate.
Defined.

Lemma first_cycle_creates_eight_witness :
  List.length
    (channels
       (w_guild
          (snd (update_stats_channels sample_float_repr sample_container_str
                  no_float_of_str (sample_session (PInt 1))
                  (fresh_world sample_guild)))))
  = 11%nat.
Proof.
  rewrite (first_cycle_creates_eight sample_float_repr sample_container_str
             no_float_of_str (sample_session (PInt 1)) sample_guild
             (stats_of (fetch_stats no_float_of_str (sample_session (PInt 1))))
             1234).
  - rewrite length_app, !length_map. reflexivity.
  - vm_compute. reflexivity.
  - reflexivity.
  - discriminate.
  - intros k. destruct k; reflexivity.
Defined.

Lemma cycle_never_deletes_witness :
  exists ch',
    nth_error
      (channels
         (w_guild
            (snd (update_stats_channels sample_float_repr sample_container_str
                    no_float_of_str node_down
                    {| w_guild := sample_guild;
                       w_faults := [false; true; true];
                       w_log := [] |})))) 1
    = Some ch'
    /\ ch_kind ch' = VoiceChannel /\ ch_category ch' = Some 1%nat.
Proof.
  apply (proj1
           (cycle_never_deletes sample_float_repr sample_container_str
              no_float_of_str node_down
              {| w_guild := sample_guild;
                 w_faults := [false; true; true];
                 w_log := [] |})
           1%nat
           {| ch_name := "Lounge"; ch_kind := VoiceChannel;
              ch_category := Some 1%nat; ch_connect := None |}).
  reflexivity.
Defined.

Lemma unconvertible_hashrate_stops_cycle_witness :
  update_stats_channels sample_float_repr sample_container_str no_float_of_str
    (sample_session (PInt int_too_large)) (fresh_world sample_guild)
  = (Ok tt, fresh_world sample_guild).
Proof.
  apply (proj1
           (unconvertible_hashrate_stops_cycle sample_float_repr
              sample_container_str no_float_of_str
              (sample_session (PInt int_too_large)) (fresh_world sample_guild))
           OverflowError).
  - reflexivity.
  - vm_compute. reflexivity.
Defined.


Lemma market_texts_share_one_handler_witness :
  fetch_market
    (with_coingecko node_down
       (ok_json (full_market_doc (PFloat float_0_000123) PNone (PInt 5)
                   (PFloat float_2_0))))
  = Ok {| price_display := text_of (format_price (PFloat float_0_000123)
                                      (PFloat float_2_0));
          volume_display := text_of (format_amount PNone);
          market_cap_display := text_of (format_amount (PInt 5)) |}
  /\ fetch_market
       (with_coingecko node_down
          (ok_json (full_market_doc (PFloat float_0_000123) (PInt int_too_large)
                      (PInt 5) (PFloat float_2_0))))
     = Ok market_na.
Proof.
  split.
  - apply (proj1 (market_texts_share_one_handler node_down (PFloat float_0_000123)
                    PNone (PInt 5) (PFloat float_2_0)));
      vm_compute; reflexivity.
  - apply (proj2 (market_texts_share_one_handler node_down (PFloat float_0_000123)
                    (PInt int_too_large) (PInt 5) (PFloat float_2_0))).
    right. left. vm_compute. reflexivity.
Defined.

Lemma missing_price_keeps_change_witness :
  format_price PNone (PFloat float_2_0)
  = Ok ("N/A (" ++ "▲ +" ++ format_float_f false 2 float_2_0 ++ "% 24h)")
  /\ fetch_market
       (with_coingecko node_down
          (ok_json (full_market_doc PNone (PInt 5) (PInt 6) (PInt int_too_large))))
     = Ok market_na.
Proof.
  split.
  - apply (proj1 (missing_price_keeps_change node_down PNone PNone PNone
                    (PFloat float_2_0) eq_refl) float_2_0).
    reflexivity.
  - apply (proj1 (proj2 (missing_price_keeps_change node_down PNone (PInt 5)
                           (PInt 6) (PInt int_too_large) eq_refl))
             OverflowError).
    + reflexivity.
    + vm_compute. reflexivity.
Defined.

Lemma unusable_market_document_witness :
  fetch_market (with_coingecko node_down (ok_json (PList []))) = Ok market_na
  /\ fetch_market
       (with_coingecko node_down
          (ok_json (PDict [("market_data",
                            PDict [("current_price", PFloat float_2_0)])])))
     = Ok market_na.
Proof.
  split.
  - apply (proj1 (proj2 (proj2 (unusable_market_document node_down)))).
    intros d. discriminate.
  - apply (proj2 (proj2 (proj2 (proj2 (proj2
             (unusable_market_document node_down)))))
             (PFloat float_2_0) []).
    + reflexivity.
    + intros m. discriminate.
Defined.

Lemma supply_needs_object_witness :
  fetch_supply no_float_of_str (with_supply node_down (ok_json (PInt 2500000000000)))
  = Ok (PStr NA)
  /\ fetch_supply no_float_of_str
       (with_supply node_down (ok_json (PDict [("supply", PInt 2500000000000)])))
     = Ok (PStr NA).
Proof.
  split.
  - apply (proj1 (supply_needs_object no_float_of_str node_down)).
    intros d. discriminate.
  - apply (proj1 (proj2 (supply_needs_object no_float_of_str node_down))).
    reflexivity.
Defined.

Lemma category_is_reused_witness :
  resolve_category (snd (resolve_category (fresh_world guild_without_count)))
  = (Ok 0%nat,
     {| w_guild := w_guild (snd (resolve_category (fresh_world guild_without_count)));
        w_faults := w_faults (snd (resolve_category (fresh_world guild_without_count)));
        w_log := (w_log (snd (resolve_category (fresh_world guild_without_count)))
                    ++ [EvFindCategory category_name])%list |}).
Proof.
  apply (proj2 (proj2 (category_is_reused (fresh_world guild_without_count) 0%nat
                         eq_refl))).
Defined.

Lemma task_visits_every_guild_witness :
  nth_error
    (cl_guilds
       (snd (update_stats_task sample_float_repr sample_container_str
               no_float_of_str (fun _ => sample_session (PInt 1))
               {| cl_guilds := [guild_without_count; sample_guild];
                  cl_faults := [];
                  cl_log := [] |}))) 1
  = Some (cycle_guild sample_float_repr sample_container_str 1234
            (stats_of (fetch_stats no_float_of_str (sample_session (PInt 1))))
            sample_guild).
Proof.
  apply (proj2 (proj2 (proj2
           (task_visits_every_guild sample_float_repr sample_container_str
              no_float_of_str (fun _ => sample_session (PInt 1))
              {| cl_guilds := [guild_without_count; sample_guild];
                 cl_faults := [];
                 cl_log := [] |})))
           eq_refl 1%nat sample_guild
           (stats_of (fetch_stats no_float_of_str (sample_session (PInt 1))))
           1234).
  - reflexivity.
  - vm_compute. reflexivity.
  - reflexivity.
  - discriminate.
Defined.

Lemma member_text_round_trip_witness :
  format_member_count (member_count_or_na (Some 1234567))
  = Ok (format_int_grouped 1234567)
  /\ remove_commas (format_int_grouped 1234567)
     = py_str sample_float_repr sample_container_str (PInt 1234567).
Proof.
  split.
  - apply (proj1 (member_text_round_trip sample_float_repr sample_container_str
                    1234567 ltac:(discriminate))).
  - apply (proj1 (proj2 (member_text_round_trip sample_float_repr
                           sample_container_str 1234567 ltac:(discriminate)))).
Defined.

Lemma integer_result_shown_plain_witness :
  label_of sample_float_repr sample_container_str block (or_na (PInt 1234567))
  = "Block: " ++ "" ++ nat_digits (Z.abs 1234567).
Proof.
  apply (proj1 (integer_result_shown_plain sample_float_repr sample_container_str
                  1234567 ltac:(discriminate))).
Defined.

End MoreSamples.
